(** * Spin-code backend: redemption ledger and weighted outcome selector

    A shallow embedding of [server.js] (and of its twin with admin
    sessions) and the properties of the redemption transaction.

    JavaScript numbers are IEEE-754 binary64 values: they are embedded as
    Rocq's primitive [float], whose operations are the same binary64
    operations with round-to-nearest-even.  [Math.random()] is a global,
    stateful generator: it is embedded as a cursor into a sequence of
    draws.  The PostgreSQL store is embedded as two tables of rows with
    their serial counters, a transaction as a working copy that COMMIT
    installs and ROLLBACK drops.

    Beside the ledger and the selector, the development covers the admin
    sessions of the twin, the listing of the codes, the interleavings of
    concurrent redemptions, in which a transaction holds the lock of the
    row it selects for update until it ends, and the form of the player's
    panel. *)

From Stdlib Require Import ZArith List String Ascii Bool Lia Floats.
From Stdlib Require Import DecimalString.
From Stdlib Require DecimalFacts DecimalPos Uint63.
From Stdlib Require Permutation Sorted.
Import ListNotations.

Set Warnings "-inexact-float".

Local Open Scope string_scope.
Local Open Scope Z_scope.
Local Open Scope list_scope.

(** ** JavaScript values used by the handlers *)

Module Js.

(** [Math.random()]: the n-th call returns [draws n]. *)
Record Rng := mkRng { draws : nat -> float; cursor : nat }.

Definition Math_random (g : Rng) : float * Rng :=
  (draws g (cursor g), mkRng (draws g) (S (cursor g))).

(** A draw of [Math.random()] is a double [r] with [0 <= r < 1]. *)
Definition unit_interval (r : float) : Prop :=
  (0 <=? r)%float = true /\ (r <? 1)%float = true.

Definition valid_rng (g : Rng) : Prop := forall n, unit_interval (draws g n).

(** [Math.floor] of a double, as an integer; [None] for NaN and the
    infinities, which [Math.floor] returns unchanged. *)
Definition Math_floor (x : float) : option Z :=
  match Prim2SF x with
  | S754_zero _ => Some 0
  | S754_finite s m e =>
      let n := if s then Z.neg m else Z.pos m in
      Some (if 0 <=? e then n * 2 ^ e else n / 2 ^ (- e))
  | _ => None
  end.

(** The double of an integer. *)
Definition of_integer (n : Z) : float :=
  if n <? 0 then (- PrimFloat.of_uint63 (Uint63.of_Z (- n)))%float
  else PrimFloat.of_uint63 (Uint63.of_Z n).

(** [Math.min(x, y)]: [NaN] when either is, and [-0] before [+0]. *)
Definition Math_min (x y : float) : float :=
  if PrimFloat.is_nan x || PrimFloat.is_nan y then PrimFloat.nan
  else if (x <? y)%float then x
  else if (y <? x)%float then y
  else if PrimFloat.get_sign x then x else y.

(** [Number.prototype.toString] on an integral value below 1e21: its
    decimal digits, with a minus sign when negative. *)
Definition Number_toString (n : Z) : string :=
  NilZero.string_of_int (Z.to_int n).

(** [/\d/]: one ASCII digit. *)
Definition is_digit (c : ascii) : bool :=
  let n := nat_of_ascii c in (48 <=? n)%nat && (n <=? 57)%nat.

Fixpoint all_digits (s : string) : bool :=
  match s with
  | EmptyString => true
  | String c s' => is_digit c && all_digits s'
  end.

(** [/^\d{5}$/.test(s)] on a string. *)
Definition test_5_digits (s : string) : bool :=
  (String.length s =? 5)%nat && all_digits s.

(** The JSON value found under a key of [req.body], [undefined] when the
    body has no such key.  A number is given as the integer it is.  An
    array holds its elements.  An object holds its own properties, in the
    order of the text: of two properties of one name [JSON.parse] keeps
    the later. *)
#[warnings="-register-all"]
Inductive Value :=
| undefined
| null
| boolean (b : bool)
| number (n : Z)
| str (s : string)
| array (elements : list Value)
| object (properties : list (string * Value)).

(** [!v]: an array and an object are truthy. *)
Definition falsy (v : Value) : bool :=
  match v with
  | undefined | null => true
  | boolean b => negb b
  | number n => n =? 0
  | str s => (String.length s =? 0)%nat
  | array _ | object _ => false
  end.

(** The object has an own property [key]. *)
Definition has_own (key : string) (properties : list (string * Value)) : bool :=
  existsb (fun property => String.eqb (fst property) key) properties.

(** [o[key]] on the own properties of an object: [undefined] when it has
    none of that name. *)
Definition get_own (key : string) (properties : list (string * Value)) : Value :=
  match find (fun property => String.eqb (fst property) key) (rev properties) with
  | Some property => snd property
  | None => undefined
  end.

(** [v.length], for a value that is neither [undefined] nor [null]: the
    length of a string or of an array, the own property of an object, and
    [undefined] for a boolean and a number, whose prototypes have none. *)
Definition length_of (v : Value) : Value :=
  match v with
  | str s => number (Z.of_nat (String.length s))
  | array elements => number (Z.of_nat (List.length elements))
  | object properties => get_own "length" properties
  | _ => undefined
  end.

(** [v !== n] for a number [n]. *)
Definition not_identical (v : Value) (n : Z) : bool :=
  match v with
  | number m => negb (m =? n)
  | _ => true
  end.

(** The conversion of a value to a string, [None] when it throws a
    [TypeError].  An array is converted by [join]: its elements converted
    in turn, [null] and [undefined] to the empty string, with commas
    between them.  An object of JSON has no function among its own
    properties: when it has an own [toString], neither that property nor
    [valueOf] gives a primitive value and the conversion throws; otherwise
    [Object.prototype.toString] returns ["[object Object]"]. *)
Fixpoint ToString (v : Value) : option string :=
  match v with
  | undefined => Some "undefined"
  | null => Some "null"
  | boolean true => Some "true"
  | boolean false => Some "false"
  | number n => Some (Number_toString n)
  | str s => Some s
  | array elements =>
      (fix join (rest : list Value) : option string :=
         match rest with
         | [] => Some EmptyString
         | element :: rest' =>
             match match element with
                   | undefined | null => Some EmptyString
                   | _ => ToString element
                   end, rest' with
             | None, _ => None
             | Some s, [] => Some s
             | Some s, _ :: _ =>
                 match join rest' with
                 | Some t => Some (s ++ "," ++ t)%string
                 | None => None
                 end
             end
         end) elements
  | object properties =>
      if has_own "toString" properties then None else Some "[object Object]"
  end.

(** [/^\d{5}$/.test(v)]: the value is first converted to a string. *)
Definition regex_test (v : Value) : option bool :=
  option_map test_5_digits (ToString v).

(** The text a string, a number or a boolean is sent as when it is the
    parameter of a query.  The handlers send no other value: the test of
    the format lets only a string through. *)
Definition text_of (v : Value) : string :=
  match v with
  | str s => s
  | number n => Number_toString n
  | boolean true => "true"
  | boolean false => "false"
  | _ => ""
  end.

End Js.

(** ** The outcome selector *)

Module Selector.

Record Outcome := mkOutcome { prize : string; weight : float; cents : Z }.

Section Walk.

Variable outcomes : list Outcome.

(** The [for ... of] loop of [selectWeightedOutcome]: [None] when the
    loop ends without returning. *)
Fixpoint walk (rest : list Outcome) (random cumulativeWeight : float)
  : option Outcome :=
  match rest with
  | [] => None
  | outcome :: rest' =>
      let cumulativeWeight := (cumulativeWeight + weight outcome)%float in
      if (random <=? cumulativeWeight)%float then Some outcome
      else walk rest' random cumulativeWeight
  end.

(** [outcomes[outcomes.length - 1]]: [undefined] on an empty table. *)
Definition last_outcome : option Outcome :=
  nth_error outcomes (List.length outcomes - 1)%nat.

(** The body of [selectWeightedOutcome] once [Math.random()] has
    returned [random]. *)
Definition select (random : float) : option Outcome :=
  match walk outcomes random 0%float with
  | Some outcome => Some outcome
  | None => last_outcome
  end.

(** [selectWeightedOutcome()]: one call of [Math.random()], then the
    walk. *)
Definition selectWeightedOutcomeOf (g : Js.Rng) : option Outcome * Js.Rng :=
  let (random, g') := Js.Math_random g in (select random, g').

(** The running sum the loop holds after tier [i]. *)
Definition cumulative (i : nat) : float :=
  fold_left PrimFloat.add (map weight (firstn (S i) outcomes)) 0%float.

End Walk.

(** The table of [server.js]. *)
Module ServerJs.
Definition SPIN_OUTCOMES : list Outcome :=
  [ mkOutcome "$100" 0.05 10000;
    mkOutcome "$75" 0.10 7500;
    mkOutcome "$50" 0.15 5000;
    mkOutcome "$25" 0.20 2500;
    mkOutcome "$10" 0.20 1000;
    mkOutcome "$5" 0.20 500;
    mkOutcome "Try Again" 0.10 0 ].
End ServerJs.

(** The table of the variant with admin sessions. *)
Module SessionVariant.
Definition SPIN_OUTCOMES : list Outcome :=
  [ mkOutcome "$100" 0.05 10000;
    mkOutcome "$75" 0.10 7500;
    mkOutcome "$50" 0.15 5000;
    mkOutcome "$25" 0.20 2500;
    mkOutcome "$10" 0.20 1000;
    mkOutcome "$5" 0.20 500;
    mkOutcome "Try Again" 0.10 0 ].
End SessionVariant.

Definition SPIN_OUTCOMES := ServerJs.SPIN_OUTCOMES.

Definition selectWeightedOutcome (g : Js.Rng) : option Outcome * Js.Rng :=
  selectWeightedOutcomeOf SPIN_OUTCOMES g.

(** The sum of the weights of a table, added in table order. *)
Definition weight_sum (outcomes : list Outcome) : float :=
  fold_left PrimFloat.add (map weight outcomes) 0%float.

End Selector.

(** ** The store: tables, statements and transactions *)

Module Store.

Definition Timestamp := Z.

(** [spin_codes.status]: the default ['unused'], or ['used']. *)
Inductive Status := unused | used.

Definition is_used (s : Status) : bool :=
  match s with used => true | unused => false end.

Module SpinCode.
(** A row of [spin_codes]. *)
Record t := mk
  { id : Z; code : string; status : Status;
    created_at : Timestamp; used_at : option Timestamp }.
End SpinCode.

Module SpinResult.
(** A row of [spin_results]. *)
Record t := mk
  { id : Z; code_id : Z; outcome : string; prize_cents : Z; odds : float;
    created_at : Timestamp }.
End SpinResult.

(** The two tables and the counters behind their [SERIAL] keys. *)
Record Database := mkDatabase
  { spin_codes : list SpinCode.t;
    spin_results : list SpinResult.t;
    spin_codes_id_seq : Z;
    spin_results_id_seq : Z }.

(** The tables [initializeDatabase] creates. *)
Definition initializeDatabase : Database := mkDatabase [] [] 1 1.

(** What a rejected [await] carries: a database error with its SQLSTATE in
    [.code], or a [TypeError] of the handler's own code. *)
Inductive Error :=
| DatabaseError (code : string)
| TypeError.

Definition unique_violation := DatabaseError "23505".
Definition string_data_right_truncation := DatabaseError "22001".
Definition foreign_key_violation := DatabaseError "23503".
Definition connection_failure := DatabaseError "08006".
Definition sequence_generator_limit_exceeded := DatabaseError "2200H".

(** The last value of the sequence of a [SERIAL] column: [2^31 - 1]. *)
Definition serial_max : Z := 2147483647.

(** [dbError.code === '23505'] *)
Definition is_unique_violation (e : Error) : bool :=
  match e with
  | DatabaseError c => String.eqb c "23505"
  | TypeError => false
  end.

(** The statements the handlers send, and the two calls on the pool. *)
Inductive Sql :=
| CONNECT
| RELEASE
| BEGIN
| COMMIT
| ROLLBACK
| INSERT_spin_code (code : string)
| SELECT_spin_code (code : string)
| SELECT_spin_code_FOR_UPDATE (code : string)
| UPDATE_spin_code_used (id : Z)
| INSERT_spin_result (code_id : Z) (outcome : string) (prize_cents : Z) (odds : float).

Section Statements.

(** [NOW()] *)
Variable now : Timestamp.

(** [INSERT INTO spin_codes (code) VALUES ($1) RETURNING id, code,
    created_at], executed at the time [now].  A [code] that does not fit
    [VARCHAR(5)] is refused before a key is drawn.  The key is the next
    value of the sequence of [id SERIAL], which ends at [serial_max]: past
    it the statement fails; a value drawn is not given back when the row
    is refused for its [code], which is [UNIQUE]. *)
Definition insert_spin_code (c : string) (db : Database)
  : Database * (Error + SpinCode.t) :=
  let row := SpinCode.mk (spin_codes_id_seq db) c unused now None in
  let db' := mkDatabase (spin_codes db) (spin_results db)
               (spin_codes_id_seq db + 1) (spin_results_id_seq db) in
  if (5 <? String.length c)%nat then (db, inl string_data_right_truncation)
  else if serial_max <? spin_codes_id_seq db
  then (db, inl sequence_generator_limit_exceeded)
  else if existsb (fun r => String.eqb (SpinCode.code r) c) (spin_codes db)
  then (db', inl unique_violation)
  else (mkDatabase (spin_codes db ++ [row]) (spin_results db)
          (spin_codes_id_seq db + 1) (spin_results_id_seq db), inr row).

(** [SELECT id, code, status FROM spin_codes WHERE code = $1], with or
    without [FOR UPDATE]. *)
Definition select_spin_code (c : string) (db : Database)
  : Database * (Error + list SpinCode.t) :=
  (db, inr (filter (fun r => String.eqb (SpinCode.code r) c) (spin_codes db))).

Definition mark_used (i : Z) (r : SpinCode.t) : SpinCode.t :=
  if SpinCode.id r =? i
  then SpinCode.mk (SpinCode.id r) (SpinCode.code r) used
         (SpinCode.created_at r) (Some now)
  else r.

(** [UPDATE spin_codes SET status = 'used', used_at = NOW() WHERE id = $2] *)
Definition update_spin_code_used (i : Z) (db : Database)
  : Database * (Error + unit) :=
  (mkDatabase (map (mark_used i) (spin_codes db)) (spin_results db)
     (spin_codes_id_seq db) (spin_results_id_seq db), inr tt).

(** [INSERT INTO spin_results (code_id, outcome, prize_cents, odds) VALUES
    ($1, $2, $3, $4) RETURNING ...]: [code_id] references
    [spin_codes(id)].  The end of the sequence of its key is not told
    apart from the other reasons for which the store rejects the
    statement, the [faults] of a request: the handler that sends it
    treats every rejection alike. *)
Definition insert_spin_result (cid : Z) (o : string) (p : Z) (w : float)
  (db : Database) : Database * (Error + SpinResult.t) :=
  let row := SpinResult.mk (spin_results_id_seq db) cid o p w now in
  let db' := mkDatabase (spin_codes db) (spin_results db)
               (spin_codes_id_seq db) (spin_results_id_seq db + 1) in
  if existsb (fun r => SpinCode.id r =? cid) (spin_codes db)
  then (mkDatabase (spin_codes db) (spin_results db ++ [row])
          (spin_codes_id_seq db) (spin_results_id_seq db + 1), inr row)
  else (db', inl foreign_key_violation).

End Statements.

End Store.

(** ** The request handlers *)

Module Server.

Import Store.

(** What outlives a request: the committed tables and the state of
    [Math.random]. *)
Record World := mkWorld { database : Database; generator : Js.Rng }.

(** The state a handler runs in: the committed tables, the working copy of
    the transaction its connection has open, the statements sent so far,
    and the state of [Math.random]. *)
Record State := mkState
  { store : Database; txn : option Database; log : list Sql; rng : Js.Rng }.

(** An [async] computation: it resolves ([inr]) or rejects ([inl]). *)
Definition M (A : Type) : Type := State -> (Error + A) * State.

Definition ret {A} (a : A) : M A := fun s => (inr a, s).

Definition throw {A} (e : Error) : M A := fun s => (inl e, s).

Definition bind {A B} (m : M A) (k : A -> M B) : M B :=
  fun s =>
    match m s with
    | (inl e, s') => (inl e, s')
    | (inr a, s') => k a s'
    end.

(** [try { body } catch (error) { handler }] *)
Definition try_catch {A} (body : M A) (handler : Error -> M A) : M A :=
  fun s =>
    match body s with
    | (inl e, s') => handler e s'
    | (inr a, s') => (inr a, s')
    end.

(** [try { body } finally { final }], for a [final] that does not throw. *)
Definition try_finally {A} (body : M A) (final : State -> State) : M A :=
  fun s => let (r, s') := body s in (r, final s').

Declare Scope handler_scope.
Delimit Scope handler_scope with handler.
Notation "x <- m ;; k" := (bind m (fun x => k))
  (at level 61, m at next level, right associativity) : handler_scope.
Notation "m ;;; k" := (bind m (fun _ => k))
  (at level 61, right associativity) : handler_scope.
Local Open Scope handler_scope.

Definition record (q : Sql) (s : State) : State :=
  mkState (store s) (txn s) (log s ++ [q]) (rng s).

(** Sequences are not transactional: a rollback keeps the counters the
    transaction has advanced. *)
Definition keep_sequences (committed working : Database) : Database :=
  mkDatabase (spin_codes committed) (spin_results committed)
    (spin_codes_id_seq working) (spin_results_id_seq working).

Section Request.

(** The time [NOW()] has in the transaction of the request, the time it
    has in the [n]-th call of a request that opens no transaction, each
    statement being then a transaction of its own, and the storage faults
    met while the request is served: the [n]-th call on the pool or on the
    connection is rejected when [faults n] holds.  A rejected call has no
    effect on the store. *)
Variable now : Timestamp.
Variable times : nat -> Timestamp.
Variable faults : nat -> bool.

Definition faulty (s : State) : bool := faults (List.length (log s)).

(** [await pool.query(q)] or [await client.query(q)] for a statement on
    the tables: it runs in the open transaction when there is one, and
    commits on its own otherwise. *)
Definition query {A} (q : Sql) (run : Database -> Database * (Error + A))
  : M A :=
  fun s =>
    if faulty s then (inl connection_failure, record q s)
    else
      match txn s with
      | Some working =>
          let (working', r) := run working in
          (r, mkState (store s) (Some working') (log s ++ [q]) (rng s))
      | None =>
          let (store', r) := run (store s) in
          (r, mkState store' None (log s ++ [q]) (rng s))
      end.

(** [await pool.connect()] *)
Definition pool_connect : M unit :=
  fun s =>
    if faulty s then (inl connection_failure, record CONNECT s)
    else (inr tt, record CONNECT s).

(** [client.release()]: an open transaction of a released connection is
    never committed. *)
Definition client_release (s : State) : State :=
  mkState (store s) None (log s ++ [RELEASE]) (rng s).

(** [await client.query('BEGIN')] *)
Definition client_begin : M unit :=
  fun s =>
    if faulty s then (inl connection_failure, record BEGIN s)
    else
      match txn s with
      | Some _ => (inr tt, record BEGIN s)
      | None => (inr tt, mkState (store s) (Some (store s)) (log s ++ [BEGIN]) (rng s))
      end.

(** [await client.query('COMMIT')] *)
Definition client_commit : M unit :=
  fun s =>
    if faulty s then (inl connection_failure, record COMMIT s)
    else
      match txn s with
      | Some working => (inr tt, mkState working None (log s ++ [COMMIT]) (rng s))
      | None => (inr tt, record COMMIT s)
      end.

(** [await client.query('ROLLBACK')] *)
Definition client_rollback : M unit :=
  fun s =>
    if faulty s then (inl connection_failure, record ROLLBACK s)
    else
      match txn s with
      | Some working =>
          (inr tt, mkState (keep_sequences (store s) working) None
                     (log s ++ [ROLLBACK]) (rng s))
      | None => (inr tt, record ROLLBACK s)
      end.

(** A synchronous call that draws from [Math.random]. *)
Definition random_call {A} (f : Js.Rng -> A * Js.Rng) : M A :=
  fun s =>
    let (a, g) := f (rng s) in
    (inr a, mkState (store s) (txn s) (log s) g).

(** The response a handler sends: [res.status(n).json(...)], where
    [res.json(...)] alone has status 200. *)
Inductive Body :=
| error_body (error : string)
| verify_body (code : string)
| play_body (outcome : string) (prize_cents : Z) (odds : float)
    (spin_id : Z) (timestamp : Timestamp)
| generate_body (codes : list SpinCode.t).

Record Response := mkResponse { status : Z; body : Body }.

Definition res_status (n : Z) (b : Body) : Response := mkResponse n b.
Definition res_json (b : Body) : Response := mkResponse 200 b.

(** The failures of the ledger, as the handlers report them. *)
Definition InvalidFormat : Response := res_status 400 (error_body "Invalid code format").
Definition NotFound : Response := res_status 404 (error_body "Code not found").
Definition AlreadyUsed : Response := res_status 400 (error_body "Code already used").
Definition VerificationFailed : Response := res_status 500 (error_body "Verification failed").
Definition SpinFailed : Response := res_status 500 (error_body "Spin failed").
Definition GenerationFailed : Response := res_status 500 (error_body "Failed to generate codes").

(** An expression of the handler whose evaluation may throw a
    [TypeError]. *)
Definition evaluate {A} (value : option A) : M A :=
  match value with
  | Some a => ret a
  | None => throw TypeError
  end.

(** [!code || code.length !== 5 || !/^\d{5}$/.test(code)]: the operands
    are evaluated from the left, up to the first that holds; [None] when
    the last one throws. *)
Definition invalid_format (code : Js.Value) : option bool :=
  if Js.falsy code then Some true
  else if Js.not_identical (Js.length_of code) 5 then Some true
  else option_map negb (Js.regex_test code).

(** [Math.floor(10000 + Math.random() * 90000).toString()] on the value
    [Math.random()] returned. *)
Definition spin_code_of (random : float) : string :=
  match Js.Math_floor (10000 + random * 90000)%float with
  | Some n => Js.Number_toString n
  | None => "NaN"
  end.

Definition generateSpinCode (g : Js.Rng) : string * Js.Rng :=
  let (random, g') := Js.Math_random g in (spin_code_of random, g').

(** [POST /spin/verify] *)
Definition spin_verify (code : Js.Value) : M Response :=
  try_catch
    (invalid <- evaluate (invalid_format code) ;;
     if invalid then ret InvalidFormat
     else
       result <- query (SELECT_spin_code (Js.text_of code))
                   (select_spin_code (Js.text_of code)) ;;
       match result with
       | [] => ret NotFound
       | codeData :: _ =>
           if is_used (SpinCode.status codeData) then ret AlreadyUsed
           else ret (res_json (verify_body (SpinCode.code codeData)))
       end)
    (fun error => ret VerificationFailed).

(** [POST /spin/play] *)
Definition spin_play (code : Js.Value) : M Response :=
  pool_connect ;;;
  try_finally
    (try_catch
       (client_begin ;;;
        invalid <- evaluate (invalid_format code) ;;
        if invalid then
          client_rollback ;;; ret InvalidFormat
        else
          codeResult <- query (SELECT_spin_code_FOR_UPDATE (Js.text_of code))
                          (select_spin_code (Js.text_of code)) ;;
          match codeResult with
          | [] => client_rollback ;;; ret NotFound
          | codeData :: _ =>
              if is_used (SpinCode.status codeData) then
                client_rollback ;;; ret AlreadyUsed
              else
                outcome <- random_call Selector.selectWeightedOutcome ;;
                query (UPDATE_spin_code_used (SpinCode.id codeData))
                  (update_spin_code_used now (SpinCode.id codeData)) ;;;
                match outcome with
                | None => throw TypeError
                | Some outcome =>
                    spinResult <-
                      query (INSERT_spin_result (SpinCode.id codeData)
                               (Selector.prize outcome) (Selector.cents outcome)
                               (Selector.weight outcome))
                        (insert_spin_result now (SpinCode.id codeData)
                           (Selector.prize outcome) (Selector.cents outcome)
                           (Selector.weight outcome)) ;;
                    client_commit ;;;
                    ret (res_json
                           (play_body (SpinResult.outcome spinResult)
                              (SpinResult.prize_cents spinResult)
                              (SpinResult.odds spinResult)
                              (SpinResult.id spinResult)
                              (SpinResult.created_at spinResult)))
                end
          end)
       (fun error => client_rollback ;;; ret SpinFailed))
    client_release.

(** [await pool.query(q)] for a statement that reads [NOW()] outside a
    transaction. *)
Definition query_now {A} (q : Sql)
  (run : Timestamp -> Database -> Database * (Error + A)) : M A :=
  fun s => query q (run (times (List.length (log s)))) s.

(** The loop of [POST /admin/generate], [fuel] bounding the number of
    iterations run: [None] when the loop has not ended within them.  The
    counter [i] is compared, as a number, with [Math.min(count, 100)].  On
    a uniqueness violation [i--] then the loop's [i++] leave [i] as it
    was. *)
Fixpoint generate_loop (fuel : nat) (count : float) (i : Z) (codes : list SpinCode.t)
  : M (option (list SpinCode.t)) :=
  match fuel with
  | O => ret None
  | S fuel' =>
      if (Js.of_integer i <? Js.Math_min count 100)%float then
        code <- random_call generateSpinCode ;;
        inserted <-
          try_catch
            (result <- query_now (INSERT_spin_code code)
                         (fun now => insert_spin_code now code) ;;
             ret (Some result))
            (fun dbError =>
               if is_unique_violation dbError then ret None else throw dbError) ;;
        match inserted with
        | Some row => generate_loop fuel' count (i + 1) (codes ++ [row])
        | None => generate_loop fuel' count (i - 1 + 1) codes
        end
      else ret (Some codes)
  end.

(** [POST /admin/generate], for the number [count] of the request body
    ([1] when it has none). *)
Definition admin_generate (fuel : nat) (count : option float) : M (option Response) :=
  try_catch
    (let count := match count with Some c => c | None => 1%float end in
     codes <- generate_loop fuel count 0 [] ;;
     match codes with
     | Some codes => ret (Some (res_json (generate_body codes)))
     | None => ret None
     end)
    (fun error => ret (Some GenerationFailed)).

(** Serving one request: the handler runs on a connection with no open
    transaction; what it leaves is the committed tables and the state of
    [Math.random]. *)
Definition serve {A} (handler : M A) (w : World)
  : (Error + A) * World * list Sql :=
  let (r, s) := handler (mkState (database w) None [] (generator w)) in
  (r, mkWorld (store s) (rng s), log s).

End Request.

End Server.

(** ** The ledger as a transition system *)

Module Ledger.

Import Store Server.

(** The three operations of the ledger, each on any request and under any
    storage faults: [issue] is [POST /admin/generate], [verify] is
    [POST /spin/verify] and [redeem] is [POST /spin/play]. *)
Inductive Operation :=
| issue (times : nat -> Timestamp) (faults : nat -> bool) (fuel : nat)
    (count : option float)
| verify (faults : nat -> bool) (code : Js.Value)
| redeem (now : Timestamp) (faults : nat -> bool) (code : Js.Value).

(** The world an operation leaves. *)
Definition after (op : Operation) (w : World) : World :=
  match op with
  | issue times faults fuel count =>
      snd (fst (serve (admin_generate times faults fuel count) w))
  | verify faults code => snd (fst (serve (spin_verify faults code) w))
  | redeem now faults code => snd (fst (serve (spin_play now faults code) w))
  end.

(** The worlds reached from [w0] by a sequence of operations. *)
Inductive reachable_from (w0 : World) : World -> Prop :=
| reach_start : reachable_from w0 w0
| reach_step w op : reachable_from w0 w -> reachable_from w0 (after op w).

(** The worlds reached from the empty tables. *)
Definition reachable (w : World) : Prop :=
  exists g, reachable_from (mkWorld initializeDatabase g) w.

(** The rows of [spin_results] that refer to the code of key [i]. *)
Definition results_of (i : Z) (db : Database) : list SpinResult.t :=
  filter (fun r => SpinResult.code_id r =? i) (spin_results db).

(** The rows of [spin_codes] whose code is [c]. *)
Definition codes_of (c : string) (db : Database) : list SpinCode.t :=
  filter (fun r => String.eqb (SpinCode.code r) c) (spin_codes db).

(** The tables are consistent: keys and codes are unique, a result refers
    to a code, a code has one result when it is used and none otherwise,
    and it has a time of use exactly when it is used. *)
Record consistent (db : Database) : Prop := mkConsistent
  { ids_below_seq :
      forall c, In c (spin_codes db) -> SpinCode.id c < spin_codes_id_seq db;
    ids_unique : NoDup (map SpinCode.id (spin_codes db));
    codes_unique : NoDup (map SpinCode.code (spin_codes db));
    results_refer :
      forall r, In r (spin_results db) ->
                exists c, In c (spin_codes db) /\ SpinCode.id c = SpinResult.code_id r;
    one_result_iff_used :
      forall c, In c (spin_codes db) ->
                List.length (results_of (SpinCode.id c) db)
                = if is_used (SpinCode.status c) then 1%nat else 0%nat;
    used_at_iff_used :
      forall c, In c (spin_codes db) ->
                (SpinCode.used_at c <> None <-> SpinCode.status c = used) }.

(** Every code of [db] is still a code of [db'], used if it was used. *)
Definition codes_kept (db db' : Database) : Prop :=
  forall c, In c (spin_codes db) ->
            exists c', In c' (spin_codes db')
                       /\ SpinCode.id c' = SpinCode.id c
                       /\ SpinCode.code c' = SpinCode.code c
                       /\ (SpinCode.status c = used -> c' = c).

(** The tables after the redemption of the row [codeData] with the
    outcome [o]: the row is marked used and its result is recorded. *)
Definition redeemed (now : Timestamp) (codeData : SpinCode.t) (o : Selector.Outcome)
  (db : Database) : Database :=
  mkDatabase (map (mark_used now (SpinCode.id codeData)) (spin_codes db))
    (spin_results db
     ++ [SpinResult.mk (spin_results_id_seq db) (SpinCode.id codeData)
           (Selector.prize o) (Selector.cents o) (Selector.weight o) now])
    (spin_codes_id_seq db) (spin_results_id_seq db + 1).

(** A code of the right format: a string of exactly five ASCII digits. *)
Definition well_formed (v : Js.Value) : Prop :=
  exists s, v = Js.str s /\ String.length s = 5%nat /\ Js.all_digits s = true.

(** The statements a handler sends without reading or writing a row. *)
Definition touches_no_row (q : Sql) : bool :=
  match q with
  | CONNECT | RELEASE | BEGIN | COMMIT | ROLLBACK => true
  | _ => false
  end.






(** The codes drawn by the [n] calls of [Math.random] from [g] on. *)
Definition candidates (g : Js.Rng) (n : nat) : list string :=
  map (fun k => spin_code_of (Js.draws g (Js.cursor g + k))) (seq 0 n).


(** The string starts with the digit 0. *)
Definition leading_zero (s : string) : bool :=
  match s with
  | String c _ => Ascii.eqb c "0"
  | EmptyString => false
  end.

(** The decimal notation of an integer of [10000, 99999]. *)
Definition five_digit_number (s : string) : Prop :=
  exists n, 10000 <= n <= 99999 /\ s = Js.Number_toString n.


(** Every stored code is one [generateSpinCode] can return. *)
Definition codes_generated (db : Database) : Prop :=
  forall c, In c (spin_codes db) -> five_digit_number (SpinCode.code c).


(** The row is one that an [INSERT INTO spin_codes] of a request creates:
    unused, at the time of one of the statements of the request, those
    from [first] to [last], with a key of the sequence from [seq] on. *)
Definition issued_row (times : nat -> Timestamp) (seq : Z) (first last : nat)
  (row : SpinCode.t) : Prop :=
  SpinCode.status row = unused
  /\ SpinCode.used_at row = None
  /\ (exists position,
        (first <= position < last)%nat /\ SpinCode.created_at row = times position)
  /\ seq <= SpinCode.id row <= serial_max.

(** The result records a tier of the table: its label, payout and weight. *)
Definition records_tier (r : SpinResult.t) : Prop :=
  exists o, In o Selector.SPIN_OUTCOMES
            /\ SpinResult.outcome r = Selector.prize o
            /\ SpinResult.prize_cents r = Selector.cents o
            /\ SpinResult.odds r = Selector.weight o.

(** The sum of the prizes recorded. *)
Definition total_prize_cents (db : Database) : Z :=
  fold_right (fun r acc => SpinResult.prize_cents r + acc) 0 (spin_results db).


(** The keys of both tables grow along the tables and are below the
    counters, which start at 1; those of [spin_codes] are values of its
    sequence. *)
Definition keys_increase (db : Database) : Prop :=
  Sorted.StronglySorted Z.lt (map SpinCode.id (spin_codes db))
  /\ Forall (fun i => 1 <= i < spin_codes_id_seq db /\ i <= serial_max)
       (map SpinCode.id (spin_codes db))
  /\ Sorted.StronglySorted Z.lt (map SpinResult.id (spin_results db))
  /\ Forall (fun i => 1 <= i < spin_results_id_seq db)
       (map SpinResult.id (spin_results db)).



(** The counters are at least 1 and the keys increase. *)
Definition keys_from_one (db : Database) : Prop :=
  keys_increase db /\ 1 <= spin_codes_id_seq db /\ 1 <= spin_results_id_seq db.

(** The response is the success of a redemption. *)
Definition is_success (r : Error + Response) : bool :=
  match r with
  | inr (mkResponse 200 (play_body _ _ _ _ _)) => true
  | _ => false
  end.

End Ledger.

(** ** Sample worlds *)

Module Samples.

Import Store Server Ledger.

(** A generator whose first draws are 0, 0.5 and the double below 1. *)
Definition sample_rng : Js.Rng :=
  Js.mkRng
    (fun n =>
       match n with
       | 0%nat => 0%float
       | 1%nat => 0.5%float
       | 2%nat => 0x1.fffffffffffffp-1%float
       | _ => 0.03%float
       end) 0.

Definition no_faults : nat -> bool := fun _ => false.

(** The [n]-th call alone is rejected. *)
Definition fault_at (n : nat) : nat -> bool := fun k => Nat.eqb k n.

Definition empty_world : World := mkWorld initializeDatabase sample_rng.

(** Every statement of the request is executed at the time 100. *)
Definition at_100 : nat -> Timestamp := fun _ => 100.

(** The [n]-th statement of the request is executed at the time
    [100 + n]. *)
Definition ticking : nat -> Timestamp := fun n => 100 + Z.of_nat n.

(** Three codes issued: 10000, 55000 and 99999. *)
Definition issued_world : World :=
  after (issue at_100 no_faults 10 (Some 3%float)) empty_world.

(** The code 10000 redeemed. *)
Definition played_world : World :=
  after (redeem 200 no_faults (Js.str "10000")) issued_world.


End Samples.

(** ** Binary64 arithmetic and decimal notation *)

Module Binary64.

(** The exponent of the format for a number of [e] digits: [fexp] of
    binary64. *)
Definition fexp64 (e : Z) : Z := Z.max (e - 53) (-1074).

(** What [binary_round_aux] returns for the mantissa [mz] and the
    exponent [e] it ends with. *)
Definition rounded (mz e : Z) : spec_float :=
  match mz with
  | Z0 => S754_zero false
  | Zpos m => if e <=? 971 then S754_finite false m e else S754_infinity false
  | Zneg _ => S754_nan
  end.

(** The mantissas of 90000 and of 10000 as doubles. *)
Definition mantissa_90000 : positive := 6184752906240000.
Definition mantissa_10000 : positive := 5497558138880000.

(** The value of the positive double [m * 2^e] in units of [2^-1200]. *)
Definition scaled (m : positive) (e : Z) : Z := Z.pos m * 2 ^ (e + 1200).

(** One decimal digit before the digits [l]. *)
Definition digit (k : N) (l : Decimal.uint) : Decimal.uint :=
  match k with
  | 0%N => Decimal.D0 l | 1%N => Decimal.D1 l | 2%N => Decimal.D2 l
  | 3%N => Decimal.D3 l | 4%N => Decimal.D4 l | 5%N => Decimal.D5 l
  | 6%N => Decimal.D6 l | 7%N => Decimal.D7 l | 8%N => Decimal.D8 l
  | _ => Decimal.D9 l
  end.

(** The character of a digit. *)
Definition digit_char (k : N) : ascii := ascii_of_N (48 + k).

End Binary64.

(** ** Concurrent redemptions *)

Module Concurrent.

Import Store Server Ledger.

(** Where a handler of [POST /spin/play] stands: at the [await] it is
    suspended on, with what it holds in its variables, or after its
    response.  The store rejects no call here. *)
Inductive Stage :=
| Connecting
| Beginning
| Selecting
| Updating (codeData : SpinCode.t) (outcome : option Selector.Outcome)
| Inserting (codeData : SpinCode.t) (outcome : Selector.Outcome)
| Committing (codeData : SpinCode.t) (spinResult : SpinResult.t)
| RollingBack (response : Response)
| Responded (response : Response).

(** A request being served: its code, the time [NOW()] of its transaction,
    its stage, and the keys of the rows of [spin_codes] its transaction has
    locked. *)
Record Handler := mkHandler
  { code : Js.Value; now : Timestamp; stage : Stage; locked : list Z }.

(** The committed tables, the global [Math.random] and the handlers that
    run. *)
Record State := mkState
  { committed : Database; generator : Js.Rng; handlers : list Handler }.

(** The clients of the pool: [new Pool] is given no [max], and the
    default of the library is ten. *)
Definition max_clients : nat := 10.

(** The handler holds a client of the pool: from the moment
    [pool.connect()] resolves to [client.release()], which follows the
    response. *)
Definition holds_client (h : Handler) : bool :=
  match stage h with
  | Connecting | Responded _ => false
  | _ => true
  end.

(** The clients that a list of handlers has checked out. *)
Definition checked_out (hs : list Handler) : nat :=
  List.length (filter holds_client hs).

(** One step of a handler: the store executes the statement the handler
    awaits, and the handler runs up to its next [await].  [held] are the
    rows locked by the other transactions and [busy] the number of clients
    the other handlers have checked out.  [pool.connect()] does not
    resolve while all the clients of the pool are checked out.
    [SELECT ... FOR UPDATE] does not resolve while another transaction
    holds the lock of a row it selects; it then locks the rows and returns
    them as committed.  The writes of a transaction reach the committed
    tables at its COMMIT; the serial of a result is drawn at its INSERT
    and is not given back. *)
Definition step (db : Database) (g : Js.Rng) (held : list Z) (busy : nat)
  (h : Handler) : option (Database * Js.Rng * Handler) :=
  match stage h with
  | Connecting =>
      if (max_clients <=? busy)%nat then None
      else Some (db, g, mkHandler (code h) (now h) Beginning [])
  | Beginning =>
      match invalid_format (code h) with
      | Some true =>
          Some (db, g, mkHandler (code h) (now h) (RollingBack InvalidFormat) [])
      | Some false => Some (db, g, mkHandler (code h) (now h) Selecting [])
      | None => Some (db, g, mkHandler (code h) (now h) (RollingBack SpinFailed) [])
      end
  | Selecting =>
      let rows := codes_of (Js.text_of (code h)) db in
      if existsb (fun row => existsb (Z.eqb (SpinCode.id row)) held) rows then None
      else
        match rows with
        | [] => Some (db, g, mkHandler (code h) (now h) (RollingBack NotFound) [])
        | codeData :: _ =>
            if is_used (SpinCode.status codeData) then
              Some (db, g,
                    mkHandler (code h) (now h) (RollingBack AlreadyUsed)
                      (map SpinCode.id rows))
            else
              let (outcome, g') := Selector.selectWeightedOutcome g in
              Some (db, g',
                    mkHandler (code h) (now h) (Updating codeData outcome)
                      (map SpinCode.id rows))
        end
  | Updating codeData outcome =>
      match outcome with
      | Some outcome =>
          Some (db, g,
                mkHandler (code h) (now h) (Inserting codeData outcome) (locked h))
      | None =>
          Some (db, g, mkHandler (code h) (now h) (RollingBack SpinFailed) (locked h))
      end
  | Inserting codeData outcome =>
      let spinResult :=
        SpinResult.mk (spin_results_id_seq db) (SpinCode.id codeData)
          (Selector.prize outcome) (Selector.cents outcome)
          (Selector.weight outcome) (now h) in
      Some (mkDatabase (spin_codes db) (spin_results db) (spin_codes_id_seq db)
              (spin_results_id_seq db + 1),
            g,
            mkHandler (code h) (now h) (Committing codeData spinResult) (locked h))
  | Committing codeData spinResult =>
      Some (mkDatabase
              (map (mark_used (now h) (SpinCode.id codeData)) (spin_codes db))
              (spin_results db ++ [spinResult])
              (spin_codes_id_seq db) (spin_results_id_seq db),
            g,
            mkHandler (code h) (now h)
              (Responded
                 (res_json
                    (play_body (SpinResult.outcome spinResult)
                       (SpinResult.prize_cents spinResult)
                       (SpinResult.odds spinResult) (SpinResult.id spinResult)
                       (SpinResult.created_at spinResult))))
              [])
  | RollingBack response =>
      Some (db, g, mkHandler (code h) (now h) (Responded response) [])
  | Responded _ => None
  end.

(** The rows locked by a list of handlers. *)
Definition held_by (hs : list Handler) : list Z := flat_map locked hs.

(** The step of the handler of index [k]: [None] when there is no such
    handler, when it has responded, or when it waits for a client or for a
    lock. *)
Definition advance (k : nat) (st : State) : option State :=
  match nth_error (handlers st) k with
  | Some h =>
      let pre := firstn k (handlers st) in
      let post := skipn (S k) (handlers st) in
      match step (committed st) (generator st) (held_by (pre ++ post))
              (checked_out (pre ++ post)) h with
      | Some (db, g, h') => Some (mkState db g (pre ++ h' :: post))
      | None => None
      end
  | None => None
  end.

(** A schedule names the handlers in the order of their steps. *)
Fixpoint run (schedule : list nat) (st : State) : option State :=
  match schedule with
  | [] => Some st
  | k :: rest =>
      match advance k st with
      | Some st' => run rest st'
      | None => None
      end
  end.

(** The requests arrive: each has its code and the time of its
    transaction. *)
Definition arrive (w : World) (requests : list (Js.Value * Timestamp)) : State :=
  mkState (database w) (Server.generator w)
    (map (fun request => mkHandler (fst request) (snd request) Connecting [])
       requests).

Definition responded (h : Handler) : bool :=
  match stage h with Responded _ => true | _ => false end.

(** The handler has answered with a prize. *)
Definition succeeded (h : Handler) : bool :=
  match stage h with
  | Responded response => is_success (inr response)
  | _ => false
  end.

(** The handler was asked to redeem the code [c], in the right format. *)
Definition asks (c : string) (h : Handler) : bool :=
  match invalid_format (code h) with
  | Some false => String.eqb (Js.text_of (code h)) c
  | _ => false
  end.

(** The steps a handler has left at most. *)
Definition remaining (h : Handler) : nat :=
  match stage h with
  | Connecting => 6
  | Beginning => 5
  | Selecting => 4
  | Updating _ _ => 3
  | Inserting _ _ => 2
  | Committing _ _ => 1
  | RollingBack _ => 1
  | Responded _ => 0
  end.

(** The steps of a handler that runs alone. *)
Fixpoint alone (n : nat) (db : Database) (g : Js.Rng) (h : Handler)
  : option (Database * Js.Rng * Handler) :=
  match n with
  | O => Some (db, g, h)
  | S n' =>
      match step db g [] 0 h with
      | Some (db', g', h') => alone n' db' g' h'
      | None => None
      end
  end.

(** The rows of the code [c] that are used: none or one. *)
Definition used_rows (c : string) (db : Database) : nat :=
  List.length (filter (fun row => is_used (SpinCode.status row)) (codes_of c db)).

(** The handlers that have answered a request for the code [c] with a
    prize. *)
Definition successes (c : string) (hs : list Handler) : nat :=
  List.length (filter (fun h => succeeded h && asks c h) hs).

(** The steps the handlers have left at most. *)
Definition steps_left (st : State) : nat := list_sum (map remaining (handlers st)).

(** The handler holds the lock of [codeData], a row of its code that is
    committed as unused. *)
Definition holds_row (db : Database) (h : Handler) (codeData : SpinCode.t) : Prop :=
  invalid_format (code h) = Some false
  /\ In codeData (spin_codes db)
  /\ SpinCode.status codeData = unused
  /\ SpinCode.code codeData = Js.text_of (code h)
  /\ In (SpinCode.id codeData) (locked h).

(** The response of a failure states what the tables hold. *)
Definition justified (db : Database) (h : Handler) (response : Response) : Prop :=
  (response = InvalidFormat /\ invalid_format (code h) = Some true)
  \/ (response = SpinFailed /\ invalid_format (code h) = None)
  \/ (response = NotFound /\ invalid_format (code h) = Some false
      /\ codes_of (Js.text_of (code h)) db = [])
  \/ (response = AlreadyUsed /\ invalid_format (code h) = Some false
      /\ exists row, In row (spin_codes db)
                     /\ SpinCode.code row = Js.text_of (code h)
                     /\ SpinCode.status row = used).

(** What holds of a handler at each stage. *)
Definition stage_ok (db : Database) (h : Handler) : Prop :=
  Forall (fun i => exists row, In row (spin_codes db) /\ SpinCode.id row = i
                               /\ SpinCode.code row = Js.text_of (code h))
    (locked h)
  /\ match stage h with
     | Connecting | Beginning => locked h = []
     | Selecting => locked h = [] /\ invalid_format (code h) = Some false
     | Updating codeData outcome => holds_row db h codeData /\ outcome <> None
     | Inserting codeData _ => holds_row db h codeData
     | Committing codeData spinResult =>
         holds_row db h codeData
         /\ SpinResult.code_id spinResult = SpinCode.id codeData
     | RollingBack response => justified db h response
     | Responded response =>
         locked h = []
         /\ (justified db h response
             \/ (is_success (inr response) = true
                 /\ invalid_format (code h) = Some false))
     end.

(** What holds of the states reached from the tables [d0] and the
    requests [requests]. *)
Record invariant (d0 : Database) (requests : list (Js.Value * Timestamp))
  (st : State) : Prop := mkInvariant
  { inv_consistent : consistent (committed st);
    inv_kept : codes_kept d0 (committed st);
    inv_requests : map (fun h => (code h, now h)) (handlers st) = requests;
    inv_locks : NoDup (held_by (handlers st));
    inv_stages : Forall (stage_ok (committed st)) (handlers st);
    inv_successes :
      forall c, (successes c (handlers st) + used_rows c d0)%nat
                = used_rows c (committed st) }.


End Concurrent.


(** ** Sample races *)

Module ConcurrentSamples.

Import Concurrent.

(** Two requests for the code 55000 of the three issued, and an order of
    their steps in which the second waits for the first. *)
Definition two_requests : list (Js.Value * Store.Timestamp) :=
  [(Js.str "55000", 300); (Js.str "55000", 400)].

Definition interleaved : list nat := [0; 1; 0; 1; 0; 0; 0; 0; 1; 1]%nat.

Definition raced : State :=
  match run interleaved (arrive Samples.issued_world two_requests) with
  | Some st => st
  | None => arrive Samples.issued_world two_requests
  end.

End ConcurrentSamples.


(** ** The listing of the codes *)

Module Listing.

Import Store Ledger.

(** A row of the query of [GET /admin/codes]: the columns of the code and
    those of a result, [NULL] when the join finds none. *)
Record CodeRow := mkCodeRow
  { id : Z; code : string; status : Status;
    created_at : Timestamp; used_at : option Timestamp;
    outcome : option string; prize_cents : option Z; odds : option float }.

Definition code_row (sc : SpinCode.t) (sr : option SpinResult.t) : CodeRow :=
  mkCodeRow (SpinCode.id sc) (SpinCode.code sc) (SpinCode.status sc)
    (SpinCode.created_at sc) (SpinCode.used_at sc)
    (option_map SpinResult.outcome sr) (option_map SpinResult.prize_cents sr)
    (option_map SpinResult.odds sr).

(** [FROM spin_codes sc LEFT JOIN spin_results sr ON sc.id = sr.code_id] *)
Definition left_join (db : Database) : list CodeRow :=
  flat_map
    (fun sc =>
       match results_of (SpinCode.id sc) db with
       | [] => [code_row sc None]
       | matching => map (fun sr => code_row sc (Some sr)) matching
       end)
    (spin_codes db).

(** [ORDER BY sc.created_at DESC]: the same rows, none followed by a newer
    one; the order of the rows of one time is not determined. *)
Definition newest_first (rows : list CodeRow) : Prop :=
  Sorted.StronglySorted (fun a b => created_at b <= created_at a) rows.

Definition ordered_by_created_at_desc (rows ordered : list CodeRow) : Prop :=
  Permutation.Permutation rows ordered /\ newest_first ordered.

(** One such order: the rows inserted one by one before the first row
    that is not newer. *)
Fixpoint insert_by_created_at (row : CodeRow) (ordered : list CodeRow)
  : list CodeRow :=
  match ordered with
  | [] => [row]
  | first :: rest =>
      if created_at first <=? created_at row then row :: ordered
      else first :: insert_by_created_at row rest
  end.

Definition order_by_created_at_desc (rows : list CodeRow) : list CodeRow :=
  fold_right insert_by_created_at [] rows.

(** What [GET /admin/codes] answers: the list of the rows, or 500 with
    [Failed to fetch codes]. *)
Inductive Answer :=
| listed (codes : list CodeRow)
| FetchFailed.

(** [GET /admin/codes]: the answers the handler can give, the query being
    rejected when [faults 0] holds. *)
Definition admin_codes (faults : nat -> bool) (db : Database) (answer : Answer)
  : Prop :=
  if faults 0%nat then answer = FetchFailed
  else exists ordered,
      ordered_by_created_at_desc (left_join db) ordered
      /\ answer = listed (firstn 100 ordered).

(** The result joined to a code: the first that refers to it. *)
Definition result_of (sc : SpinCode.t) (db : Database) : option SpinResult.t :=
  hd_error (results_of (SpinCode.id sc) db).

(** The codes whose status is [used]. *)
Definition used_codes (db : Database) : list SpinCode.t :=
  filter (fun sc => is_used (SpinCode.status sc)) (spin_codes db).

End Listing.


(** ** The admin sessions of the variant *)

Module Admin.

Import Store.

(** [crypto.randomBytes]: the octets the generator of the system yields,
    taken in order. *)
Record Entropy := mkEntropy { octets : nat -> Byte.byte; taken : nat }.

Definition crypto_randomBytes (size : nat) (e : Entropy)
  : list Byte.byte * Entropy :=
  (map (fun k => octets e (taken e + k)%nat) (seq 0 size),
   mkEntropy (octets e) (taken e + size)%nat).

(** One digit of [buffer.toString('hex')]: lower case. *)
Definition hex_digit (n : N) : ascii :=
  if (n <? 10)%N then ascii_of_N (48 + n) else ascii_of_N (87 + n).

(** [buffer.toString('hex')]: two digits for each octet, the high one
    first. *)
Fixpoint Buffer_toString_hex (buffer : list Byte.byte) : string :=
  match buffer with
  | [] => EmptyString
  | octet :: rest =>
      String (hex_digit (Byte.to_N octet / 16))
        (String (hex_digit (Byte.to_N octet mod 16)) (Buffer_toString_hex rest))
  end.

Definition generateSessionToken (e : Entropy) : string * Entropy :=
  let (buffer, e') := crypto_randomBytes 32 e in (Buffer_toString_hex buffer, e').

(** The token that [generateSessionToken] returns once [k] tokens more have
    been drawn. *)
Definition later_token (e : Entropy) (k : nat) : string :=
  fst (generateSessionToken (mkEntropy (octets e) (taken e + 32 * k))).

(** [Date.now()]: the n-th call returns [readings n], in milliseconds. *)
Record Clock := mkClock { readings : nat -> Z; reads : nat }.

Definition Date_now (c : Clock) : Z * Clock :=
  (readings c (reads c), mkClock (readings c) (S (reads c))).

Record Session := mkSession { username : string; expires : Z; createdAt : Z }.

(** [sessions], a [Map] from tokens to sessions: [set] replaces the value
    of a key it holds and adds the key at the end otherwise, so that no key
    occurs twice. *)
Definition SessionMap := list (string * Session).

Fixpoint Map_get (key : string) (m : SessionMap) : option Session :=
  match m with
  | [] => None
  | (k, v) :: m' => if String.eqb k key then Some v else Map_get key m'
  end.

Definition Map_has (key : string) (m : SessionMap) : bool :=
  match Map_get key m with Some _ => true | None => false end.

Fixpoint Map_set (key : string) (value : Session) (m : SessionMap) : SessionMap :=
  match m with
  | [] => [(key, value)]
  | (k, v) :: m' =>
      if String.eqb k key then (k, value) :: m' else (k, v) :: Map_set key value m'
  end.

Definition Map_delete (key : string) (m : SessionMap) : SessionMap :=
  filter (fun entry => negb (String.eqb (fst entry) key)) m.

(** The first [n] characters dropped. *)
Fixpoint drop (n : nat) (s : string) : string :=
  match n, s with
  | S n', String _ s' => drop n' s'
  | _, _ => s
  end.

(** [s.replace(pattern, '')] for a string [pattern]: the first occurrence
    of [pattern] in [s] is removed, wherever it is. *)
Fixpoint String_replace_empty (pattern s : string) : string :=
  if String.prefix pattern s then drop (String.length pattern) s
  else
    match s with
    | EmptyString => EmptyString
    | String c s' => String c (String_replace_empty pattern s')
    end.

(** What the process keeps between requests beside the store: the
    sessions, and the states of [crypto.randomBytes] and of the clock. *)
Record Process := mkProcess
  { sessions : SessionMap; entropy : Entropy; clock : Clock }.

(** The responses of the admin routes. *)
Inductive Body :=
| error_body (error : string)
| login_body (token expiresIn : string)
| success_body.

Record Response := mkResponse { status : Z; body : Body }.

Definition res_status (n : Z) (b : Body) : Response := mkResponse n b.
Definition res_json (b : Body) : Response := mkResponse 200 b.

Definition Unauthorized : Response := res_status 401 (error_body "Unauthorized").
Definition SessionExpired : Response := res_status 401 (error_body "Session expired").
Definition CredentialsRequired : Response :=
  res_status 400 (error_body "Username and password required").
Definition InvalidCredentials : Response :=
  res_status 401 (error_body "Invalid credentials").

(** [req.headers.authorization?.replace('Bearer ', '')], for a header that
    is absent ([None]) or a string. *)
Definition bearer_token (authorization : option string) : option string :=
  match authorization with
  | Some header => Some (String_replace_empty "Bearer " header)
  | None => None
  end.

(** [!sessionToken] *)
Definition no_token (sessionToken : option string) : bool :=
  match sessionToken with
  | Some token => (String.length token =? 0)%nat
  | None => true
  end.

(** What the middleware does: it answers, or calls [next()] with the
    session in [req.session]. *)
Inductive Guard :=
| answered (response : Response)
| next (session : Session).

(** [requireAuth(req, res, next)] *)
Definition requireAuth (authorization : option string) (p : Process)
  : Guard * Process :=
  let sessionToken := bearer_token authorization in
  match sessionToken with
  | Some token =>
      if no_token sessionToken || negb (Map_has token (sessions p)) then
        (answered Unauthorized, p)
      else
        match Map_get token (sessions p) with
        | Some session =>
            let (time, c) := Date_now (clock p) in
            if expires session <? time then
              (answered SessionExpired,
               mkProcess (Map_delete token (sessions p)) (entropy p) c)
            else (next session, mkProcess (sessions p) (entropy p) c)
        | None => (answered Unauthorized, p)
        end
  | None => (answered Unauthorized, p)
  end.

Section Environment.

(** [ADMIN_USERNAME] and [ADMIN_PASSWORD] of [process.env]: a variable
    that is not set has the default of the destructuring. *)
Variable env_ADMIN_USERNAME env_ADMIN_PASSWORD : option string.

Definition ADMIN_USERNAME : string :=
  match env_ADMIN_USERNAME with Some v => v | None => "admin" end.

Definition ADMIN_PASSWORD : string :=
  match env_ADMIN_PASSWORD with Some v => v | None => "changeme" end.

(** [v !== s] for a string [s] *)
Definition differs (v : Js.Value) (s : string) : bool :=
  match v with
  | Js.str t => negb (String.eqb t s)
  | _ => true
  end.

(** [POST /admin/login], for the [username] and [password] of the request
    body. *)
Definition admin_login (username password : Js.Value) (p : Process)
  : Response * Process :=
  if Js.falsy username || Js.falsy password then (CredentialsRequired, p)
  else if differs username ADMIN_USERNAME || differs password ADMIN_PASSWORD then
    (InvalidCredentials, p)
  else
    let (sessionToken, e) := generateSessionToken (entropy p) in
    let (time, c) := Date_now (clock p) in
    let expires := time + 24 * 60 * 60 * 1000 in
    let (createdAt, c') := Date_now c in
    (res_json (login_body sessionToken "24h"),
     mkProcess (Map_set sessionToken (mkSession ADMIN_USERNAME expires createdAt)
                  (sessions p))
       e c').

End Environment.

(** [POST /admin/logout], behind [requireAuth]. *)
Definition admin_logout (authorization : option string) (p : Process)
  : Response * Process :=
  match requireAuth authorization p with
  | (answered response, p') => (response, p')
  | (next _, p') =>
      let sessionToken := bearer_token authorization in
      (res_json success_body,
       match sessionToken with
       | Some token =>
           if no_token sessionToken then p'
           else mkProcess (Map_delete token (sessions p')) (entropy p') (clock p')
       | None => p'
       end)
  end.

(** The process and the store it serves. *)
Record App := mkApp { process : Process; world : Server.World }.

(** A route behind [requireAuth]: the handler runs when the middleware
    calls [next()], and not at all when it answers. *)
Definition guarded {A} (authorization : option string)
  (handler : Server.World -> (Error + A) * Server.World * list Sql) (a : App)
  : (Response + (Error + A)) * App * list Sql :=
  match requireAuth authorization (process a) with
  | (answered response, p) => (inl response, mkApp p (world a), [])
  | (next _, p) =>
      let '(r, w, l) := handler (world a) in (inr r, mkApp p w, l)
  end.

(** [POST /admin/generate] of the variant. *)
Definition admin_generate (times : nat -> Timestamp) (faults : nat -> bool)
  (fuel : nat) (authorization : option string) (count : option float) (a : App)
  : (Response + (Error + option Server.Response)) * App * list Sql :=
  guarded authorization (Server.serve (Server.admin_generate times faults fuel count)) a.

(** The requests on the admin routes of the variant. *)
Inductive Request :=
| login (username password : Js.Value)
| logout (authorization : option string)
| generate (times : nat -> Timestamp) (faults : nat -> bool) (fuel : nat)
    (authorization : option string) (count : option float).

Section Serving.

Variable env_ADMIN_USERNAME env_ADMIN_PASSWORD : option string.

Definition handle (r : Request) (a : App) : App :=
  match r with
  | login username password =>
      mkApp (snd (admin_login env_ADMIN_USERNAME env_ADMIN_PASSWORD
                    username password (process a)))
        (world a)
  | logout authorization =>
      mkApp (snd (admin_logout authorization (process a))) (world a)
  | generate times faults fuel authorization count =>
      snd (fst (admin_generate times faults fuel authorization count a))
  end.

(** The states of the application after a list of requests, served one
    after the other. *)
Definition serve_all (requests : list Request) (a : App) : App :=
  fold_left (fun a r => handle r a) requests a.

End Serving.

(** The process when the server starts: [new Map()]. *)
Definition start (e : Entropy) (c : Clock) : Process := mkProcess [] e c.

(** The value of a digit of [0-9a-f]. *)
Definition hex_value (c : ascii) : N :=
  let n := N_of_ascii c in if (n <? 58)%N then n - 48 else n - 87.

(** One of the digits [0-9a-f]. *)
Definition is_hex (c : ascii) : bool :=
  let n := nat_of_ascii c in
  ((48 <=? n)%nat && (n <=? 57)%nat) || ((97 <=? n)%nat && (n <=? 102)%nat).

Fixpoint all_hex (s : string) : bool :=
  match s with
  | EmptyString => true
  | String c s' => is_hex c && all_hex s'
  end.

(** The token is one that [generateSessionToken] returns: 64 digits of
    [0-9a-f]. *)
Definition session_token (token : string) : Prop :=
  String.length token = 64%nat /\ all_hex token = true.

(** The credentials of the request are those of the environment. *)
Definition credentials (env_ADMIN_USERNAME env_ADMIN_PASSWORD : option string)
  (username password : Js.Value) : Prop :=
  username = Js.str (ADMIN_USERNAME env_ADMIN_USERNAME)
  /\ password = Js.str (ADMIN_PASSWORD env_ADMIN_PASSWORD).


(** The sessions of the process were opened by logins that read the clock
    [c0]: each is stored under a token, belongs to [ADMIN_USERNAME] and
    expires 24 hours after a reading the clock has given. *)
Definition opened_by_logins (env_ADMIN_USERNAME : option string) (c0 : Clock)
  (p : Process) : Prop :=
  readings (clock p) = readings c0
  /\ forall token session,
      Map_get token (sessions p) = Some session ->
      session_token token
      /\ username session = ADMIN_USERNAME env_ADMIN_USERNAME
      /\ exists n, (n < reads (clock p))%nat
                   /\ expires session = readings c0 n + 86400000.


End Admin.


(** ** Sample processes *)

Module AdminSamples.

(** The octets 0, 1, 2, ... and a clock that advances by a second at each
    reading. *)
Definition sample_entropy : Admin.Entropy :=
  Admin.mkEntropy
    (fun n => match Byte.of_N (N.of_nat n mod 256) with
              | Some octet => octet
              | None => Byte.x00
              end)
    0.

Definition sample_clock : Admin.Clock :=
  Admin.mkClock (fun n => 1000 * Z.of_nat n) 0.

(** A clock that jumps by two days at each reading. *)
Definition slow_clock : Admin.Clock :=
  Admin.mkClock (fun n => 172800000 * Z.of_nat n) 0.

(** The variant once started, and after a login with the default
    credentials. *)
Definition started : Admin.Process := Admin.start sample_entropy sample_clock.

Definition logged_in : Admin.Process :=
  snd (Admin.admin_login None None (Js.str "admin") (Js.str "changeme") started).

Definition sample_token : string :=
  "000102030405060708090a0b0c0d0e0f101112131415161718191a1b1c1d1e1f".

(** The octets 0, 1, ..., 31, then 255 for ever, and the variant after a
    login that draws the first 32. *)
Definition once_entropy : Admin.Entropy :=
  Admin.mkEntropy
    (fun n => if (n <? 32)%nat
              then match Byte.of_N (N.of_nat n) with
                   | Some octet => octet
                   | None => Byte.x00
                   end
              else Byte.xff)
    0.

Definition logged_once : Admin.Process :=
  snd (Admin.admin_login None None (Js.str "admin") (Js.str "changeme")
         (Admin.start once_entropy sample_clock)).

End AdminSamples.

(** ** The panel of the player *)

Module Panel.

(** The state [code] of [SpinCodePanel]: the five fields of the form. *)
Definition initial : list string := [""; ""; ""; ""; ""].

(** [newCode[index] = value]: an index past the end leaves holes, which
    [join] takes as empty strings. *)
Fixpoint array_set (index : nat) (value : string) (a : list string) : list string :=
  match index, a with
  | O, [] => [value]
  | O, _ :: rest => value :: rest
  | S i, [] => EmptyString :: array_set i value []
  | S i, x :: rest => x :: array_set i value rest
  end.

(** [handleCodeChange(index, value)]: the next state [code]. *)
Definition handleCodeChange (index : nat) (value : string) (code : list string)
  : list string :=
  if (1 <? String.length value)%nat then code else array_set index value code.

(** [code.join('')] *)
Definition join (code : list string) : string := String.concat "" code.

(** What [handleSpin] does with the state: it shows an error, or calls
    [playerAPI.spin(codeString)]. *)
Inductive Spin :=
| setError (message : string)
| spin (codeString : string).

Definition handleSpin (code : list string) : Spin :=
  let codeString := join code in
  if negb (String.length codeString =? 5)%nat then
    setError "Please enter a complete 5-digit code"
  else if negb (Js.test_5_digits codeString) then
    setError "Code must contain only numbers"
  else spin codeString.

(** [disabled] of the button, when no spin is under way:
    [code.join('').length !== 5]. *)
Definition disabled (code : list string) : bool :=
  negb (String.length (join code) =? 5)%nat.

(** The state after the changes [(index, value)] of the fields, in order. *)
Definition edited (changes : list (nat * string)) : list string :=
  fold_left (fun code change => handleCodeChange (fst change) (snd change) code)
    changes initial.

(** The field holds one digit. *)
Definition one_digit (field : string) : Prop :=
  exists d, field = String d EmptyString /\ Js.is_digit d = true.

(** A field of the form holds at most one character. *)
Definition short (field : string) : Prop := (String.length field <= 1)%nat.

End Panel.

(** * Properties *)

(** ** The outcome selector *)

Module SelectorFacts.

Import Selector.

(** [random <= cumulativeWeight] holds after tier [i]. *)
Definition reaches (outcomes : list Outcome) (random : float) (i : nat) : bool :=
  (random <=? cumulative outcomes i)%float.

(** The table of the scenario: two tiers A and B. *)
Definition scenario : list Outcome :=
  [ mkOutcome "A" 0.05 10000; mkOutcome "B" 0.95 0 ].

Section Walk.

Variable outcomes : list Outcome.
Variable random : float.

Lemma cumulative_snoc (pre rest : list Outcome) (o : Outcome) :
  outcomes = pre ++ o :: rest ->
  cumulative outcomes (List.length pre)
  = (fold_left PrimFloat.add (map weight pre) 0 + weight o)%float.
Proof.
  intros ->. unfold cumulative.
  replace (S (List.length pre)) with (List.length (pre ++ [o]))
    by (rewrite length_app; simpl; lia).
  replace (pre ++ o :: rest) with ((pre ++ [o]) ++ rest)
    by (rewrite <- app_assoc; reflexivity).
  rewrite firstn_app, firstn_all, Nat.sub_diag. simpl.
  rewrite app_nil_r, map_app, fold_left_app. reflexivity.
Qed.

(** The loop, started after the tiers [pre], returns the first tier from
    there on that [random] reaches. *)
Lemma walk_some (rest pre : list Outcome) (o : Outcome) :
  outcomes = pre ++ rest ->
  walk rest random (fold_left PrimFloat.add (map weight pre) 0%float) = Some o ->
  exists i, nth_error outcomes i = Some o
    /\ (List.length pre <= i)%nat
    /\ reaches outcomes random i = true
    /\ forall j, (List.length pre <= j < i)%nat -> reaches outcomes random j = false.
Proof.
  revert pre. induction rest as [|t rest IH]; intros pre Hsplit Hwalk.
  - discriminate.
  - simpl in Hwalk.
    pose proof (cumulative_snoc pre rest t Hsplit) as Hcum.
    destruct (random <=? _)%float eqn:Hle.
    + injection Hwalk as <-. exists (List.length pre). repeat split.
      * rewrite Hsplit, nth_error_app2, Nat.sub_diag by lia. reflexivity.
      * lia.
      * unfold reaches. rewrite Hcum. exact Hle.
      * intros j Hj. lia.
    + destruct (IH (pre ++ [t])) as (i & Hnth & Hlen & Hreach & Hfirst).
      * rewrite <- app_assoc. exact Hsplit.
      * rewrite map_app, fold_left_app. exact Hwalk.
      * rewrite length_app in Hlen, Hfirst. simpl in Hlen, Hfirst.
        exists i. repeat split; try assumption; try lia.
        intros j Hj.
        destruct (Nat.eq_dec j (List.length pre)) as [->|Hne].
        -- unfold reaches. rewrite Hcum. exact Hle.
        -- apply Hfirst. lia.
Qed.

(** The loop ends without returning only when [random] reaches no tier. *)
Lemma walk_none (rest pre : list Outcome) :
  outcomes = pre ++ rest ->
  walk rest random (fold_left PrimFloat.add (map weight pre) 0%float) = None ->
  forall j, (List.length pre <= j < List.length outcomes)%nat ->
            reaches outcomes random j = false.
Proof.
  revert pre. induction rest as [|t rest IH]; intros pre Hsplit Hwalk j Hj.
  - rewrite Hsplit, length_app in Hj. simpl in Hj. lia.
  - simpl in Hwalk.
    pose proof (cumulative_snoc pre rest t Hsplit) as Hcum.
    destruct (random <=? _)%float eqn:Hle; [discriminate|].
    destruct (Nat.eq_dec j (List.length pre)) as [->|Hne].
    + unfold reaches. rewrite Hcum. exact Hle.
    + apply (IH (pre ++ [t])).
      * rewrite <- app_assoc. exact Hsplit.
      * rewrite map_app, fold_left_app. exact Hwalk.
      * rewrite length_app. simpl. lia.
Qed.

Lemma last_outcome_some :
  outcomes <> [] -> exists o, last_outcome outcomes = Some o /\ In o outcomes.
Proof.
  intros Hne. unfold last_outcome.
  destruct (nth_error outcomes (List.length outcomes - 1)) as [o|] eqn:Hnth.
  - exists o. split; [reflexivity|]. eapply nth_error_In. exact Hnth.
  - apply nth_error_None in Hnth. destruct outcomes; [congruence|simpl in Hnth; lia].
Qed.

End Walk.

Lemma select_from_table (outcomes : list Outcome) (random : float) :
  outcomes <> [] ->
  exists o, select outcomes random = Some o /\ In o outcomes
    /\ ((exists i, nth_error outcomes i = Some o
                   /\ reaches outcomes random i = true
                   /\ forall j, (j < i)%nat -> reaches outcomes random j = false)
        \/ ((forall j, (j < List.length outcomes)%nat -> reaches outcomes random j = false)
            /\ last_outcome outcomes = Some o)).
Proof.
  intros Hne. unfold select.
  destruct (walk outcomes random 0%float) as [o|] eqn:Hwalk.
  - destruct (walk_some outcomes random outcomes [] o eq_refl Hwalk)
      as (i & Hnth & _ & Hreach & Hfirst).
    exists o. split; [reflexivity|]. split; [eapply nth_error_In; exact Hnth|].
    left. exists i. repeat split; try assumption.
    intros j Hj. apply Hfirst. simpl. lia.
  - destruct (last_outcome_some outcomes Hne) as (o & Hlast & Hin).
    exists o. split; [exact Hlast|]. split; [exact Hin|].
    right. split; [|exact Hlast].
    intros j Hj. apply (walk_none outcomes random outcomes [] eq_refl Hwalk).
    simpl. lia.
Qed.

(** The tier that the selector returns, by its position in the table: the
    first that [random] reaches, or the one in the last position when
    [random] reaches none. *)
Lemma select_by_position (outcomes : list Outcome) (random : float) :
  outcomes <> [] ->
  exists i o, select outcomes random = Some o
    /\ nth_error outcomes i = Some o
    /\ In o outcomes
    /\ ((reaches outcomes random i = true
         /\ forall j, (j < i)%nat -> reaches outcomes random j = false)
        \/ (S i = List.length outcomes
            /\ forall j, (j < List.length outcomes)%nat
                         -> reaches outcomes random j = false)).
Proof.
  intros Hne. unfold select.
  destruct (walk outcomes random 0%float) as [o|] eqn:Hwalk.
  - destruct (walk_some outcomes random outcomes [] o eq_refl Hwalk)
      as (i & Hnth & _ & Hreach & Hfirst).
    exists i, o. split; [reflexivity|]. split; [exact Hnth|].
    split; [eapply nth_error_In; exact Hnth|].
    left. split; [exact Hreach|].
    intros j Hj. apply Hfirst. simpl. lia.
  - destruct (last_outcome_some outcomes Hne) as (o & Hlast & Hin).
    exists (List.length outcomes - 1)%nat, o.
    split; [exact Hlast|]. split; [exact Hlast|]. split; [exact Hin|].
    right. split.
    + destruct outcomes; [congruence|simpl; lia].
    + intros j Hj. apply (walk_none outcomes random outcomes [] eq_refl Hwalk).
      simpl. lia.
Qed.

(** C3. For every table with at least one tier and every value [random]
    that [Math.random()] returns, the selector returns the first tier, in
    table order, whose cumulative weight [random] does not exceed, and the
    tier in the last position of the table when there is none.
    [selectWeightedOutcome] does so on [SPIN_OUTCOMES] with the value that
    its one call of [Math.random()] returns, so it always returns one of
    the seven tiers.  On the table A (0.05, 10000), B (0.95, 0) the draw
    0.03 gives A and the draws 0.50 and [1 - 1e-9] give B, whose cumulative
    weight is 1; on a table whose weights sum to 0.15 the draw 0.5 reaches
    no tier and gives the last. *)
Theorem draw_first_tier_reaching_random :
  (forall (outcomes : list Outcome) (random : float),
      outcomes <> [] ->
      exists i o, select outcomes random = Some o
        /\ nth_error outcomes i = Some o
        /\ In o outcomes
        /\ ((reaches outcomes random i = true
             /\ forall j, (j < i)%nat -> reaches outcomes random j = false)
            \/ (S i = List.length outcomes
                /\ forall j, (j < List.length outcomes)%nat
                             -> reaches outcomes random j = false)))
  /\ (forall g : Js.Rng,
         let random := Js.draws g (Js.cursor g) in
         exists i o,
           selectWeightedOutcome g = (Some o, Js.mkRng (Js.draws g) (S (Js.cursor g)))
           /\ nth_error SPIN_OUTCOMES i = Some o
           /\ In o SPIN_OUTCOMES
           /\ ((reaches SPIN_OUTCOMES random i = true
                /\ forall j, (j < i)%nat -> reaches SPIN_OUTCOMES random j = false)
               \/ (i = 6%nat
                   /\ forall j, (j < 7)%nat -> reaches SPIN_OUTCOMES random j = false)))
  /\ select scenario 0.03 = Some (mkOutcome "A" 0.05 10000)
  /\ select scenario 0.50 = Some (mkOutcome "B" 0.95 0)
  /\ select scenario (1 - 1e-9) = Some (mkOutcome "B" 0.95 0)
  /\ cumulative scenario 1 = 1%float
  /\ walk [mkOutcome "A" 0.05 10000; mkOutcome "B" 0.10 0] 0.5 0 = None
  /\ select [mkOutcome "A" 0.05 10000; mkOutcome "B" 0.10 0] 0.5
     = Some (mkOutcome "B" 0.10 0).
Proof.
  split; [exact select_by_position|].
  split; [|repeat (split; [vm_compute; reflexivity|]); vm_compute; reflexivity].
  intros g random.
  destruct (select_by_position SPIN_OUTCOMES random)
    as (i & o & Hsel & Hnth & Hin & Hwhich); [discriminate|].
  exists i, o. split.
  - unfold selectWeightedOutcome, selectWeightedOutcomeOf, Js.Math_random.
    fold random. rewrite Hsel. reflexivity.
  - split; [exact Hnth|]. split; [exact Hin|].
    destruct Hwhich as [Hfirst|[Hlast Hnone]]; [left; exact Hfirst|right].
    split; [|exact Hnone]. cbn [SPIN_OUTCOMES ServerJs.SPIN_OUTCOMES List.length] in Hlast.
    lia.
Qed.

(** The statement of C3 at the table of [server.js] and the draw 0.5, which
    the fourth tier is the first to reach. *)
Lemma draw_first_tier_reaching_random_witness :
  SPIN_OUTCOMES <> []
  /\ exists i o, select SPIN_OUTCOMES 0.5 = Some o
       /\ nth_error SPIN_OUTCOMES i = Some o
       /\ o = mkOutcome "$25" 0.20 2500.
Proof.
  split; [discriminate|].
  destruct (proj1 draw_first_tier_reaching_random SPIN_OUTCOMES 0.5%float)
    as (i & o & Hsel & Hnth & _); [discriminate|].
  exists i, o. split; [exact Hsel|]. split; [exact Hnth|].
  vm_compute in Hsel. injection Hsel as <-. reflexivity.
Defined.

(** A generator whose draws alternate between 0.03 and 0.5. *)
Definition alternating : Js.Rng :=
  Js.mkRng (fun n => if Nat.even n then 0.03%float else 0.5%float) 0.

(** C8, as stated, fails: [selectWeightedOutcome] is given no random
    source; it draws from the global [Math.random], which it advances, so
    that a second call returns another outcome and a later
    [generateSpinCode] another code than before the call. *)
Lemma draw_advances_global_generator :
  ~ (forall g : Js.Rng,
        snd (selectWeightedOutcome g) = g
        /\ fst (selectWeightedOutcome (snd (selectWeightedOutcome g)))
           = fst (selectWeightedOutcome g)
        /\ fst (Server.generateSpinCode (snd (selectWeightedOutcome g)))
           = fst (Server.generateSpinCode g)).
Proof.
  intros H. destruct (H alternating) as (_ & Hsame & _).
  vm_compute in Hsame. discriminate.
Qed.

(** The tier of [SPIN_OUTCOMES] as a function of the value drawn: the
    thresholds are the sums, as doubles, of the weights up to each tier;
    a value above them all, or NaN, gives the last tier. *)
Definition tier_of (random : float) : Outcome :=
  if (random <=? 0.05)%float then mkOutcome "$100" 0.05 10000
  else if (random <=? 0.15000000000000002)%float then mkOutcome "$75" 0.10 7500
  else if (random <=? 0.30000000000000004)%float then mkOutcome "$50" 0.15 5000
  else if (random <=? 0.5)%float then mkOutcome "$25" 0.20 2500
  else if (random <=? 0.7)%float then mkOutcome "$10" 0.20 1000
  else if (random <=? 0.8999999999999999)%float then mkOutcome "$5" 0.20 500
  else mkOutcome "Try Again" 0.10 0.

Lemma select_tier_of (random : float) :
  select SPIN_OUTCOMES random = Some (tier_of random).
Proof.
  unfold tier_of. vm_compute.
  repeat (destruct (random <=? _)%float; [reflexivity|]). reflexivity.
Qed.

Lemma tier_of_in_table (random : float) : In (tier_of random) SPIN_OUTCOMES.
Proof.
  unfold tier_of, SPIN_OUTCOMES, ServerJs.SPIN_OUTCOMES.
  repeat (destruct (random <=? _)%float; [cbn [In]; tauto|]). cbn [In]. tauto.
Qed.

(** C8, amended. [selectWeightedOutcome] takes no random source: it draws
    once from the global [Math.random], which it advances by that one draw
    and nothing else.  Its result is a function of the value drawn, the
    tier of the table that the thresholds 0.05, 0.15000000000000002,
    0.30000000000000004, 0.5, 0.7 and 0.8999999999999999 give: two calls
    in which [Math.random] returns the same value return the same prize,
    payout and weight. *)
Theorem draw_determined_by_value_drawn (g1 g2 : Js.Rng) :
  Js.draws g1 (Js.cursor g1) = Js.draws g2 (Js.cursor g2) ->
  exists o,
    selectWeightedOutcome g1 = (Some o, Js.mkRng (Js.draws g1) (S (Js.cursor g1)))
    /\ selectWeightedOutcome g2 = (Some o, Js.mkRng (Js.draws g2) (S (Js.cursor g2)))
    /\ o = tier_of (Js.draws g1 (Js.cursor g1))
    /\ In o SPIN_OUTCOMES.
Proof.
  intros Heq. exists (tier_of (Js.draws g1 (Js.cursor g1))).
  unfold selectWeightedOutcome, selectWeightedOutcomeOf, Js.Math_random.
  rewrite <- Heq, select_tier_of.
  repeat split. apply tier_of_in_table.
Qed.

(** The statement of C8 on two generators whose next draw is 0.03. *)
Lemma draw_determined_by_value_drawn_witness :
  selectWeightedOutcome alternating
  = (Some (mkOutcome "$100" 0.05 10000), Js.mkRng (Js.draws alternating) 1)
  /\ selectWeightedOutcome (Js.mkRng (fun _ => 0.03%float) 7)
     = (Some (mkOutcome "$100" 0.05 10000), Js.mkRng (fun _ => 0.03%float) 8).
Proof.
  destruct (draw_determined_by_value_drawn alternating
              (Js.mkRng (fun _ => 0.03%float) 7) eq_refl)
    as (o & Hfirst & Hsecond & Htier & _).
  rewrite Hfirst, Hsecond, Htier. split; reflexivity.
Defined.

(** [1 - 2^-53], the double just below 1. *)
Definition below_one : float := 0x1.fffffffffffffp-1%float.

(** C9, as stated, fails: the two variants configure the same table. *)
Lemma tables_of_both_variants_equal :
  ~ (ServerJs.SPIN_OUTCOMES <> SessionVariant.SPIN_OUTCOMES
     /\ ((weight_sum ServerJs.SPIN_OUTCOMES = 1%float
          /\ weight_sum SessionVariant.SPIN_OUTCOMES <> 1%float)
         \/ (weight_sum ServerJs.SPIN_OUTCOMES <> 1%float
             /\ weight_sum SessionVariant.SPIN_OUTCOMES = 1%float))).
Proof.
  intros [Hne _]. apply Hne. reflexivity.
Qed.

(** C9, amended. The two variants configure the same ordered table of
    prizes, weights and payouts; added in table order as doubles, the
    weights of either sum to [1 - 2^-53], the double just below 1, which
    every draw below 1 reaches. *)
Theorem tables_agree_and_sum_below_one :
  ServerJs.SPIN_OUTCOMES = SessionVariant.SPIN_OUTCOMES
  /\ weight_sum ServerJs.SPIN_OUTCOMES = below_one
  /\ weight_sum SessionVariant.SPIN_OUTCOMES = below_one
  /\ (weight_sum ServerJs.SPIN_OUTCOMES =? 1)%float = false
  /\ (below_one <? 1)%float = true
  /\ PrimFloat.next_up below_one = 1%float.
Proof.
  repeat split; vm_compute; reflexivity.
Qed.

End SelectorFacts.

(** ** The ledger: one request at a time *)

Module LedgerFacts.

Import Store Server Ledger.

(** Unfolds a handler down to the statements it sends. *)
Ltac run_handler :=
  unfold serve, spin_play, spin_verify, bind, try_finally, try_catch, pool_connect,
    client_begin, client_commit, client_rollback, client_release, query, faulty,
    record, random_call, evaluate, ret, throw; simpl.

(** Splits on the next test the handler makes. *)
Ltac case_step :=
  match goal with
  | |- context [match invalid_format ?code with Some _ => _ | None => _ end] =>
      destruct (invalid_format code) as [[|]|] eqn:?
  | |- context [if ?b then _ else _] => destruct b eqn:?
  | |- context [match ?x with [] => _ | _ :: _ => _ end] => destruct x eqn:?
  | |- context [match ?x with Some _ => _ | None => _ end] => destruct x eqn:?
  end; simpl.

(** *** Rows and keys *)

Lemma NoDup_map_injective {A B} (f : A -> B) (l : list A) (a b : A) :
  NoDup (map f l) -> In a l -> In b l -> f a = f b -> a = b.
Proof.
  induction l as [|x l IH]; simpl; intros Hnd Ha Hb Heq; [contradiction|].
  inversion Hnd as [|? ? Hnotin Hnd']; subst.
  destruct Ha as [->|Ha], Hb as [->|Hb].
  - reflexivity.
  - exfalso. apply Hnotin. rewrite Heq. apply in_map. exact Hb.
  - exfalso. apply Hnotin. rewrite <- Heq. apply in_map. exact Ha.
  - apply IH; assumption.
Qed.

Lemma mark_used_id now i r : SpinCode.id (mark_used now i r) = SpinCode.id r.
Proof. unfold mark_used. destruct (SpinCode.id r =? i); reflexivity. Qed.

Lemma mark_used_code now i r : SpinCode.code (mark_used now i r) = SpinCode.code r.
Proof. unfold mark_used. destruct (SpinCode.id r =? i); reflexivity. Qed.

Lemma mark_used_other now i r : SpinCode.id r <> i -> mark_used now i r = r.
Proof.
  intros Hne. unfold mark_used.
  destruct (Z.eqb_spec (SpinCode.id r) i); [contradiction|reflexivity].
Qed.

Lemma mark_used_same now r :
  mark_used now (SpinCode.id r) r
  = SpinCode.mk (SpinCode.id r) (SpinCode.code r) used (SpinCode.created_at r) (Some now).
Proof. unfold mark_used. rewrite Z.eqb_refl. reflexivity. Qed.

Lemma map_id_mark_used now i codes :
  map SpinCode.id (map (mark_used now i) codes) = map SpinCode.id codes.
Proof.
  rewrite map_map. apply map_ext. intros r. apply mark_used_id.
Qed.

Lemma map_code_mark_used now i codes :
  map SpinCode.code (map (mark_used now i) codes) = map SpinCode.code codes.
Proof.
  rewrite map_map. apply map_ext. intros r. apply mark_used_code.
Qed.

Lemma existsb_id_marked now i (t : SpinCode.t) codes :
  In t codes ->
  existsb (fun r => SpinCode.id r =? SpinCode.id t) (map (mark_used now i) codes) = true.
Proof.
  intros Hin. apply existsb_exists. exists (mark_used now i t). split.
  - apply in_map. exact Hin.
  - rewrite mark_used_id. apply Z.eqb_refl.
Qed.

Lemma codes_of_In c db t : In t (codes_of c db) <-> In t (spin_codes db) /\ SpinCode.code t = c.
Proof.
  unfold codes_of. rewrite filter_In, String.eqb_eq. reflexivity.
Qed.

Lemma codes_of_head c db t l :
  codes_of c db = t :: l -> In t (spin_codes db) /\ SpinCode.code t = c.
Proof.
  intros H. apply codes_of_In. rewrite H. left. reflexivity.
Qed.

Lemma codes_of_nil c db :
  codes_of c db = [] -> forall t, In t (spin_codes db) -> SpinCode.code t <> c.
Proof.
  intros H t Hin Heq.
  assert (Hin' : In t (codes_of c db)) by (apply codes_of_In; split; assumption).
  rewrite H in Hin'. exact Hin'.
Qed.

(** Under the uniqueness of codes, the rows of a stored code are that one
    row. *)
Lemma codes_of_unique db t :
  NoDup (map SpinCode.code (spin_codes db)) ->
  In t (spin_codes db) ->
  codes_of (SpinCode.code t) db = [t].
Proof.
  unfold codes_of. induction (spin_codes db) as [|x l IH]; simpl; intros Hnd Hin.
  - contradiction.
  - inversion Hnd as [|? ? Hnotin Hnd']; subst. destruct Hin as [->|Hin].
    + rewrite String.eqb_refl. f_equal.
      clear IH Hnd Hnd'. induction l as [|y l IH]; simpl; [reflexivity|].
      destruct (String.eqb_spec (SpinCode.code y) (SpinCode.code t)) as [Heq|Hne].
      * exfalso. apply Hnotin. left. exact Heq.
      * apply IH. intros Hin. apply Hnotin. right. exact Hin.
    + destruct (String.eqb_spec (SpinCode.code x) (SpinCode.code t)) as [Heq|Hne].
      * exfalso. apply Hnotin. rewrite Heq. apply in_map. exact Hin.
      * apply IH; assumption.
Qed.

(** *** The tables stay consistent *)

Lemma consistent_initial : consistent initializeDatabase.
Proof.
  constructor; simpl; try constructor; intros; contradiction.
Qed.

Lemma results_of_app i codes results r cseq rseq :
  results_of i (mkDatabase codes (results ++ [r]) cseq rseq)
  = results_of i (mkDatabase codes results cseq rseq)
    ++ (if SpinResult.code_id r =? i then [r] else []).
Proof.
  unfold results_of. simpl. rewrite filter_app. simpl.
  destruct (SpinResult.code_id r =? i); reflexivity.
Qed.

(** Marking an unused row used and recording its result keeps the tables
    consistent. *)
Lemma consistent_redeemed now t o db :
  consistent db -> In t (spin_codes db) -> SpinCode.status t = unused ->
  consistent (redeemed now t o db).
Proof.
  intros [Hseq Hids Hcodes Hrefer Hone Hat] Hin Hunused.
  constructor; unfold redeemed; simpl.
  - intros c Hc. apply in_map_iff in Hc. destruct Hc as (c0 & <- & Hc0).
    rewrite mark_used_id. apply Hseq. exact Hc0.
  - rewrite map_id_mark_used. exact Hids.
  - rewrite map_code_mark_used. exact Hcodes.
  - intros r Hr. apply in_app_iff in Hr. destruct Hr as [Hr|[<-|[]]].
    + destruct (Hrefer r Hr) as (c & Hc & Hid).
      exists (mark_used now (SpinCode.id t) c). split; [apply in_map; exact Hc|].
      rewrite mark_used_id. exact Hid.
    + exists (mark_used now (SpinCode.id t) t). split; [apply in_map; exact Hin|].
      rewrite mark_used_id. reflexivity.
  - intros c Hc. apply in_map_iff in Hc. destruct Hc as (c0 & <- & Hc0).
    rewrite mark_used_id, results_of_app. simpl. rewrite length_app.
    change (results_of (SpinCode.id c0) _) with (results_of (SpinCode.id c0) db).
    rewrite (Hone c0 Hc0).
    destruct (Z.eqb_spec (SpinCode.id t) (SpinCode.id c0)) as [Heq|Hne].
    + assert (c0 = t) as ->
        by (apply (NoDup_map_injective SpinCode.id (spin_codes db)); auto).
      rewrite mark_used_same, Hunused. reflexivity.
    + rewrite mark_used_other by congruence. simpl. lia.
  - intros c Hc. apply in_map_iff in Hc. destruct Hc as (c0 & <- & Hc0).
    destruct (Z.eq_dec (SpinCode.id c0) (SpinCode.id t)) as [Heq|Hne].
    + rewrite <- Heq, mark_used_same. simpl. split; [reflexivity|discriminate].
    + rewrite mark_used_other by assumption. apply Hat. exact Hc0.
Qed.

Lemma existsb_codes_of c db :
  existsb (fun r => String.eqb (SpinCode.code r) c) (spin_codes db) = true
  <-> codes_of c db <> [].
Proof.
  unfold codes_of. induction (spin_codes db) as [|x l IH]; simpl.
  - split; [discriminate|congruence].
  - destruct (String.eqb (SpinCode.code x) c); simpl.
    + split; [discriminate|reflexivity].
    + exact IH.
Qed.

(** What [INSERT INTO spin_codes] does: it refuses a code of more than
    five characters, without drawing a key; it fails when the sequence of
    the keys has ended; it draws the next key, then refuses a code already
    stored and adds the row otherwise. *)
Lemma insert_spin_code_cases now c db :
  let drawn :=
    mkDatabase (spin_codes db) (spin_results db)
      (spin_codes_id_seq db + 1) (spin_results_id_seq db) in
  let row := SpinCode.mk (spin_codes_id_seq db) c unused now None in
  ((5 < String.length c)%nat
   /\ insert_spin_code now c db = (db, inl string_data_right_truncation))
  \/ ((String.length c <= 5)%nat /\ serial_max < spin_codes_id_seq db
      /\ insert_spin_code now c db = (db, inl sequence_generator_limit_exceeded))
  \/ ((String.length c <= 5)%nat /\ spin_codes_id_seq db <= serial_max
      /\ codes_of c db <> []
      /\ insert_spin_code now c db = (drawn, inl unique_violation))
  \/ ((String.length c <= 5)%nat /\ spin_codes_id_seq db <= serial_max
      /\ codes_of c db = []
      /\ insert_spin_code now c db
         = (mkDatabase (spin_codes db ++ [row]) (spin_results db)
              (spin_codes_id_seq db + 1) (spin_results_id_seq db), inr row)).
Proof.
  intros drawn row. unfold insert_spin_code.
  destruct (Nat.ltb_spec 5 (String.length c)) as [Hlong|Hshort].
  - left. split; [exact Hlong|reflexivity].
  - right.
    destruct (Z.ltb_spec serial_max (spin_codes_id_seq db)) as [Hend|Hroom].
    + left. split; [exact Hshort|]. split; [exact Hend|reflexivity].
    + right.
      destruct (existsb _ (spin_codes db)) eqn:Hex.
      * left. split; [exact Hshort|]. split; [exact Hroom|]. split; [|reflexivity].
        apply existsb_codes_of. exact Hex.
      * right. split; [exact Hshort|]. split; [exact Hroom|]. split; [|reflexivity].
        destruct (codes_of c db) eqn:Hc; [reflexivity|].
        assert (existsb (fun r => String.eqb (SpinCode.code r) c) (spin_codes db) = true)
          by (apply existsb_codes_of; rewrite Hc; discriminate).
        congruence.
Qed.

Lemma database_eta db :
  mkDatabase (spin_codes db) (spin_results db) (spin_codes_id_seq db)
    (spin_results_id_seq db) = db.
Proof. destruct db. reflexivity. Qed.

Lemma consistent_sequence_drawn db cseq rseq :
  consistent db -> spin_codes_id_seq db <= cseq ->
  consistent (mkDatabase (spin_codes db) (spin_results db) cseq rseq).
Proof.
  intros [Hseq Hids Hcodes Hrefer Hone Hat] Hle.
  constructor; simpl; try assumption.
  intros c Hc. specialize (Hseq c Hc). lia.
Qed.

(** No result refers to a key that no code has. *)
Lemma results_of_fresh db i :
  consistent db -> (forall c, In c (spin_codes db) -> SpinCode.id c <> i) ->
  results_of i db = [].
Proof.
  intros Hcons Hfresh. unfold results_of.
  destruct (filter _ (spin_results db)) as [|r l] eqn:Hf; [reflexivity|].
  assert (Hr : In r (filter (fun r => SpinResult.code_id r =? i) (spin_results db)))
    by (rewrite Hf; left; reflexivity).
  apply filter_In in Hr. destruct Hr as [Hr Hid]. apply Z.eqb_eq in Hid.
  destruct (results_refer db Hcons r Hr) as (c & Hc & Hcid).
  exfalso. apply (Hfresh c Hc). congruence.
Qed.

(** Adding an unused row with the next key and a code not yet stored
    keeps the tables consistent. *)
Lemma consistent_issued now c db :
  consistent db -> codes_of c db = [] ->
  consistent
    (mkDatabase
       (spin_codes db ++ [SpinCode.mk (spin_codes_id_seq db) c unused now None])
       (spin_results db) (spin_codes_id_seq db + 1) (spin_results_id_seq db)).
Proof.
  intros Hcons Hnew.
  pose proof (results_of_fresh db (spin_codes_id_seq db) Hcons) as Hfresh.
  destruct Hcons as [Hseq Hids Hcodes Hrefer Hone Hat].
  assert (Hidnew : forall c0, In c0 (spin_codes db) -> SpinCode.id c0 <> spin_codes_id_seq db)
    by (intros c0 Hc0; specialize (Hseq c0 Hc0); lia).
  constructor; simpl.
  - intros c0 Hc0. apply in_app_iff in Hc0. destruct Hc0 as [Hc0|[<-|[]]].
    + specialize (Hseq c0 Hc0). lia.
    + simpl. lia.
  - rewrite map_app. simpl. apply NoDup_app; [exact Hids|repeat constructor; intros []|].
    intros i Hi [<-|[]]. apply in_map_iff in Hi. destruct Hi as (c0 & Hid & Hc0).
    exact (Hidnew c0 Hc0 Hid).
  - rewrite map_app. simpl. apply NoDup_app; [exact Hcodes|repeat constructor; intros []|].
    intros s Hs [<-|[]]. apply in_map_iff in Hs. destruct Hs as (c0 & Hcode & Hc0).
    exact (codes_of_nil c db Hnew c0 Hc0 Hcode).
  - intros r Hr. destruct (Hrefer r Hr) as (c0 & Hc0 & Hid).
    exists c0. split; [apply in_app_iff; left; exact Hc0|exact Hid].
  - intros c0 Hc0. apply in_app_iff in Hc0.
    change (results_of (SpinCode.id c0) _) with (results_of (SpinCode.id c0) db).
    destruct Hc0 as [Hc0|[<-|[]]].
    + apply Hone. exact Hc0.
    + simpl. rewrite (Hfresh Hidnew). reflexivity.
  - intros c0 Hc0. apply in_app_iff in Hc0. destruct Hc0 as [Hc0|[<-|[]]].
    + apply Hat. exact Hc0.
    + simpl. split; [congruence|discriminate].
Qed.

(** *** What the handlers do *)

(** [POST /spin/play] either redeems the first row of the code, which was
    unused, or leaves both tables as they were. *)
Lemma spin_play_cases now faults code w r w' l :
  serve (spin_play now faults code) w = (r, w', l) ->
  Js.draws (generator w') = Js.draws (generator w)
  /\ ((exists codeData rest o,
          invalid_format code = Some false
          /\ codes_of (Js.text_of code) (database w) = codeData :: rest
          /\ SpinCode.status codeData = unused
          /\ Selector.select Selector.SPIN_OUTCOMES
               (Js.draws (generator w) (Js.cursor (generator w))) = Some o
          /\ r = inr (res_json (play_body (Selector.prize o) (Selector.cents o)
                                  (Selector.weight o)
                                  (spin_results_id_seq (database w)) now))
          /\ database w' = redeemed now codeData o (database w))
      \/ (is_success r = false
          /\ exists rseq,
              spin_results_id_seq (database w) <= rseq
              /\ database w'
                 = mkDatabase (spin_codes (database w)) (spin_results (database w))
                     (spin_codes_id_seq (database w)) rseq)).
Proof.
  destruct w as [[codes results cseq rseq] g].
  fold (codes_of (Js.text_of code) (mkDatabase codes results cseq rseq)).
  run_handler. unfold insert_spin_result.
  fold (codes_of (Js.text_of code) (mkDatabase codes results cseq rseq)).
  repeat case_step; intros [= <- <- <-]; simpl; (split; [reflexivity|]);
    try (right; split; [reflexivity|]; unfold keep_sequences; simpl;
         eexists; split; [|reflexivity]; lia).
  all: try match goal with
    | H : codes_of _ _ = ?t :: _, E : existsb _ _ = false |- _ =>
        rewrite (existsb_id_marked _ _ t) in E
          by (apply (codes_of_head _ _ _ _ H)); discriminate
    end.
  left. exists t, l0, o. repeat split; try assumption.
  destruct (SpinCode.status t); [reflexivity|discriminate].
Qed.

(** [POST /spin/play] when the store rejects no call. *)
Lemma spin_play_served now faults code w :
  (forall n, faults n = false) ->
  fst (fst (serve (spin_play now faults code) w))
  = match invalid_format code with
    | None => inr SpinFailed
    | Some true => inr InvalidFormat
    | Some false =>
        match codes_of (Js.text_of code) (database w) with
        | [] => inr NotFound
        | codeData :: _ =>
            if is_used (SpinCode.status codeData) then inr AlreadyUsed
            else match Selector.select Selector.SPIN_OUTCOMES
                         (Js.draws (generator w) (Js.cursor (generator w))) with
                 | Some o =>
                     inr (res_json (play_body (Selector.prize o) (Selector.cents o)
                                      (Selector.weight o)
                                      (spin_results_id_seq (database w)) now))
                 | None => inr SpinFailed
                 end
        end
    end.
Proof.
  intros Hnone. destruct w as [db g].
  assert (Hhead : forall t rest, codes_of (Js.text_of code) db = t :: rest ->
                                 In t (spin_codes db))
    by (intros t rest H; apply (codes_of_head _ _ _ _ H)).
  unfold codes_of in *.
  run_handler. unfold insert_spin_result. rewrite ?Hnone. simpl.
  destruct (invalid_format code) as [[|]|]; simpl; try (rewrite ?Hnone; reflexivity).
  rewrite ?Hnone. simpl.
  destruct (filter _ (spin_codes db)) as [|t rest] eqn:Hcodes; simpl;
    [rewrite ?Hnone; reflexivity|].
  destruct (is_used (SpinCode.status t)); simpl; [rewrite ?Hnone; reflexivity|].
  rewrite ?Hnone. simpl.
  destruct (Selector.select _ _) as [o|]; simpl; [|rewrite ?Hnone; reflexivity].
  rewrite ?Hnone. simpl.
  rewrite (existsb_id_marked now (SpinCode.id t) t) by (eapply Hhead; reflexivity).
  simpl. rewrite ?Hnone. reflexivity.
Qed.

(** [POST /spin/verify] changes nothing; it answers from the first row of
    the code, by one query, which it sends only for a well-formed code. *)
Lemma spin_verify_served faults code w :
  serve (spin_verify faults code) w
  = match invalid_format code with
    | None => (inr VerificationFailed, w, [])
    | Some true => (inr InvalidFormat, w, [])
    | Some false =>
        (if faults 0%nat then inr VerificationFailed
         else match codes_of (Js.text_of code) (database w) with
              | [] => inr NotFound
              | codeData :: _ =>
                  if is_used (SpinCode.status codeData) then inr AlreadyUsed
                  else inr (res_json (verify_body (SpinCode.code codeData)))
              end,
         w, [SELECT_spin_code (Js.text_of code)])
    end.
Proof.
  destruct w as [db g]. unfold codes_of. run_handler.
  destruct (invalid_format code) as [[|]|]; simpl; try reflexivity.
  destruct (faults 0%nat); simpl; [reflexivity|].
  destruct (filter _ (spin_codes db)) as [|t rest]; simpl; [reflexivity|].
  destruct (is_used (SpinCode.status t)); reflexivity.
Qed.

(** *** The loop of [POST /admin/generate] *)

(** One iteration of the loop that the loop's test lets in: the statement
    sent, and the state it resumes from. *)
Lemma generate_loop_step times faults fuel count i codes s :
  (Js.of_integer i <? Js.Math_min count 100)%float = true -> txn s = None ->
  let c := spin_code_of (Js.draws (rng s) (Js.cursor (rng s))) in
  let g' := Js.mkRng (Js.draws (rng s)) (S (Js.cursor (rng s))) in
  let sent := log s ++ [INSERT_spin_code c] in
  generate_loop times faults (S fuel) count i codes s
  = if faults (List.length (log s))
    then (inl connection_failure, mkState (store s) None sent g')
    else
      match insert_spin_code (times (List.length (log s))) c (store s) with
      | (store', inr row) =>
          generate_loop times faults fuel count (i + 1) (codes ++ [row])
            (mkState store' None sent g')
      | (store', inl e) =>
          if is_unique_violation e
          then generate_loop times faults fuel count (i - 1 + 1) codes
                 (mkState store' None sent g')
          else (inl e, mkState store' None sent g')
      end.
Proof.
  intros Hlt Htxn. simpl. rewrite Hlt.
  unfold bind at 1. unfold random_call, generateSpinCode. simpl.
  unfold bind at 1. unfold try_catch, bind, query_now, query, faulty, record. simpl.
  rewrite Htxn.
  destruct (faults (List.length (log s))); simpl; [reflexivity|].
  destruct (insert_spin_code _ _ (store s)) as [store' [e|row]]; simpl.
  - destruct (is_unique_violation e); reflexivity.
  - reflexivity.
Qed.

(** The loop ends when its test fails. *)
Lemma generate_loop_exit times faults fuel count i codes s :
  (Js.of_integer i <? Js.Math_min count 100)%float = false ->
  generate_loop times faults (S fuel) count i codes s = (inr (Some codes), s).
Proof. intros Hge. simpl. rewrite Hge. reflexivity. Qed.

Lemma admin_generate_served times faults fuel count w :
  serve (admin_generate times faults fuel count) w
  = let (r, s) :=
      generate_loop times faults fuel (match count with Some c => c | None => 1%float end)
        0 [] (mkState (database w) None [] (generator w)) in
    (match r with
     | inl _ => inr (Some GenerationFailed)
     | inr (Some codes) => inr (Some (res_json (generate_body codes)))
     | inr None => inr None
     end, mkWorld (store s) (rng s), log s).
Proof.
  unfold serve, admin_generate, try_catch, bind, ret.
  destruct (generate_loop _ _ _ _ _ _ _) as [[e|[codes|]] s]; reflexivity.
Qed.

Lemma codes_of_same_rows c db db' :
  spin_codes db' = spin_codes db -> codes_of c db' = codes_of c db.
Proof. unfold codes_of. intros ->. reflexivity. Qed.

Lemma codes_of_added c db row cseq rseq :
  codes_of c (mkDatabase (spin_codes db ++ [row]) (spin_results db) cseq rseq)
  = codes_of c db ++ (if String.eqb (SpinCode.code row) c then [row] else []).
Proof.
  unfold codes_of. simpl. rewrite filter_app. simpl.
  destruct (String.eqb (SpinCode.code row) c); reflexivity.
Qed.

(** *** Invariants of the operations *)

Section Preserved.

(** A property of the tables that issuing a generated code and redeeming
    an unused code preserve, and that does not depend on the counters. *)
Variable P : Database -> Prop.
Variable draws0 : nat -> float.

Hypothesis P_issue :
  forall now db n,
    P db -> P (fst (insert_spin_code now (spin_code_of (draws0 n)) db)).
Hypothesis P_redeem :
  forall now t o db,
    P db -> In t (spin_codes db) -> SpinCode.status t = unused ->
    P (redeemed now t o db).
Hypothesis P_counter :
  forall db rseq,
    P db ->
    P (mkDatabase (spin_codes db) (spin_results db) (spin_codes_id_seq db) rseq).

Lemma generate_loop_preserves times faults fuel :
  forall count i codes s r s',
    txn s = None -> Js.draws (rng s) = draws0 -> P (store s) ->
    generate_loop times faults fuel count i codes s = (r, s') ->
    txn s' = None /\ Js.draws (rng s') = draws0 /\ P (store s').
Proof.
  induction fuel as [|fuel IH]; intros count i codes s r s' Htxn Hdraws HP.
  - simpl. unfold ret. intros [= <- <-]. auto.
  - destruct (Js.of_integer i <? Js.Math_min count 100)%float eqn:Hlt;
      [|rewrite generate_loop_exit by exact Hlt; intros [= <- <-]; auto].
    rewrite generate_loop_step by assumption.
    destruct (faults (List.length (log s))).
    + intros [= <- <-]. simpl. auto.
    + pose proof (P_issue (times (List.length (log s))) (store s)
                    (Js.cursor (rng s)) HP) as HP'.
      rewrite <- Hdraws in HP'.
      destruct (insert_spin_code _ _ (store s)) as [store' [e|row]]; simpl in HP'.
      * destruct (is_unique_violation e).
        -- apply IH; simpl; auto.
        -- intros [= <- <-]. simpl. auto.
      * apply IH; simpl; auto.
Qed.

Lemma admin_generate_preserves times faults fuel count w r w' l :
  serve (admin_generate times faults fuel count) w = (r, w', l) ->
  Js.draws (generator w) = draws0 -> P (database w) ->
  Js.draws (generator w') = draws0 /\ P (database w').
Proof.
  rewrite admin_generate_served.
  destruct (generate_loop _ _ _ _ _ _ _) as [r0 s0] eqn:Hloop.
  intros Hserve Hdraws HP.
  apply generate_loop_preserves in Hloop; simpl; auto.
  destruct Hloop as (_ & Hdraws' & HP').
  injection Hserve as <- <- <-. simpl. auto.
Qed.

(** Every operation of the ledger preserves such a property. *)
Lemma after_preserves op w :
  Js.draws (generator w) = draws0 -> P (database w) ->
  Js.draws (generator (after op w)) = draws0 /\ P (database (after op w)).
Proof.
  intros Hdraws HP. destruct op as [times faults fuel count|faults code|now faults code];
    simpl.
  - destruct (serve (admin_generate times faults fuel count) w) as [[r w'] l] eqn:Hs.
    simpl. eapply admin_generate_preserves; eauto.
  - rewrite spin_verify_served. destruct (invalid_format code) as [[|]|]; simpl; auto.
  - destruct (serve (spin_play now faults code) w) as [[r w'] l] eqn:Hs. simpl.
    destruct (spin_play_cases _ _ _ _ _ _ _ Hs) as [Hd Hcases].
    split; [congruence|].
    destruct Hcases as [(t & rest & o & _ & Hcodes & Hunused & _ & _ & ->)
                       |(_ & rseq & _ & ->)].
    + apply P_redeem; auto. apply (codes_of_head _ _ _ _ Hcodes).
    + apply P_counter. exact HP.
Qed.

Lemma reachable_from_preserves w0 w :
  reachable_from w0 w ->
  Js.draws (generator w0) = draws0 -> P (database w0) ->
  Js.draws (generator w) = draws0 /\ P (database w).
Proof.
  induction 1 as [|w op Hreach IH]; intros Hdraws HP; [auto|].
  destruct (IH Hdraws HP) as [Hd HPw]. apply after_preserves; assumption.
Qed.

End Preserved.

(** *** Consistency and kept codes along the operations *)

Lemma consistent_counter db rseq :
  consistent db ->
  consistent (mkDatabase (spin_codes db) (spin_results db) (spin_codes_id_seq db) rseq).
Proof.
  intros H. apply consistent_sequence_drawn; [exact H|lia].
Qed.

Lemma consistent_insert_spin_code now c db :
  consistent db -> consistent (fst (insert_spin_code now c db)).
Proof.
  intros Hcons.
  destruct (insert_spin_code_cases now c db)
    as [(_ & ->)|[(_ & _ & ->)|[(_ & _ & _ & ->)|(_ & _ & Hnew & ->)]]]; simpl.
  - exact Hcons.
  - exact Hcons.
  - apply consistent_sequence_drawn; [exact Hcons|lia].
  - apply consistent_issued; assumption.
Qed.

Lemma codes_kept_refl db : codes_kept db db.
Proof. intros c Hc. exists c. auto. Qed.

Lemma codes_kept_trans db1 db2 db3 :
  codes_kept db1 db2 -> codes_kept db2 db3 -> codes_kept db1 db3.
Proof.
  intros H12 H23 c Hc.
  destruct (H12 c Hc) as (c2 & Hc2 & Hid2 & Hcode2 & Hused2).
  destruct (H23 c2 Hc2) as (c3 & Hc3 & Hid3 & Hcode3 & Hused3).
  exists c3. repeat split; try congruence.
  intros Hu. specialize (Hused2 Hu). subst c2. apply Hused3. exact Hu.
Qed.

Lemma codes_kept_insert_spin_code now c db :
  codes_kept db (fst (insert_spin_code now c db)).
Proof.
  destruct (insert_spin_code_cases now c db)
    as [(_ & ->)|[(_ & _ & ->)|[(_ & _ & _ & ->)|(_ & _ & _ & ->)]]]; simpl;
    intros c0 Hc0; exists c0; simpl; repeat split; auto.
  apply in_app_iff. left. exact Hc0.
Qed.

Lemma codes_kept_redeemed now t o db :
  consistent db -> In t (spin_codes db) -> SpinCode.status t = unused ->
  codes_kept db (redeemed now t o db).
Proof.
  intros Hcons Hin Hunused c Hc.
  exists (mark_used now (SpinCode.id t) c). unfold redeemed. simpl.
  split; [apply in_map; exact Hc|].
  rewrite mark_used_id, mark_used_code. repeat split.
  intros Hused. apply mark_used_other. intros Heq.
  assert (c = t)
    by (apply (NoDup_map_injective SpinCode.id (spin_codes db)); auto;
        apply (ids_unique db Hcons)).
  congruence.
Qed.

Lemma codes_kept_counter db rseq :
  codes_kept db
    (mkDatabase (spin_codes db) (spin_results db) (spin_codes_id_seq db) rseq).
Proof. intros c Hc. exists c. auto. Qed.

(** The tables are consistent, and keep the codes of [db0]. *)
Definition kept_consistent (db0 db : Database) : Prop :=
  consistent db /\ codes_kept db0 db.

Lemma reachable_from_kept_consistent w0 w :
  reachable_from w0 w -> consistent (database w0) ->
  consistent (database w) /\ codes_kept (database w0) (database w).
Proof.
  intros Hreach Hcons.
  apply (reachable_from_preserves (kept_consistent (database w0))
           (Js.draws (generator w0))) with (w0 := w0) (w := w); auto.
  - intros now db n [Hc Hk]. split.
    + apply consistent_insert_spin_code. exact Hc.
    + eapply codes_kept_trans; [exact Hk|apply codes_kept_insert_spin_code].
  - intros now t o db [Hc Hk] Hin Hunused. split.
    + apply consistent_redeemed; assumption.
    + eapply codes_kept_trans; [exact Hk|apply codes_kept_redeemed; assumption].
  - intros db rseq [Hc Hk]. split.
    + apply consistent_counter. exact Hc.
    + eapply codes_kept_trans; [exact Hk|apply codes_kept_counter].
  - split; [exact Hcons|apply codes_kept_refl].
Qed.

Lemma reachable_consistent w : reachable w -> consistent (database w).
Proof.
  intros [g Hreach].
  apply (reachable_from_kept_consistent _ _ Hreach). apply consistent_initial.
Qed.

Lemma reachable_after op w : reachable w -> reachable (after op w).
Proof. intros [g Hreach]. exists g. apply reach_step. exact Hreach. Qed.

(** A code has a result exactly when it is used, and then only one. *)
Lemma result_iff_used db c :
  consistent db -> In c (spin_codes db) ->
  ((exists r, In r (spin_results db) /\ SpinResult.code_id r = SpinCode.id c)
   <-> SpinCode.status c = used)
  /\ (List.length (results_of (SpinCode.id c) db) <= 1)%nat.
Proof.
  intros Hcons Hc. pose proof (one_result_iff_used db Hcons c Hc) as Hone.
  split; [split|].
  - intros (r & Hr & Hid).
    assert (Hin : In r (results_of (SpinCode.id c) db))
      by (apply filter_In; split; [exact Hr|apply Z.eqb_eq; exact Hid]).
    destruct (SpinCode.status c); [|reflexivity].
    simpl in Hone. apply length_zero_iff_nil in Hone. rewrite Hone in Hin.
    contradiction.
  - intros Hused. rewrite Hused in Hone. simpl in Hone.
    destruct (results_of (SpinCode.id c) db) as [|r rest] eqn:Hres; [discriminate|].
    assert (Hin : In r (results_of (SpinCode.id c) db)) by (rewrite Hres; left; reflexivity).
    apply filter_In in Hin. destruct Hin as [Hr Hid].
    exists r. split; [exact Hr|apply Z.eqb_eq; exact Hid].
  - rewrite Hone. destruct (is_used (SpinCode.status c)); lia.
Qed.

(** *** The claims on the ledger *)

Import Samples.

Lemma reachable_empty_world : reachable empty_world.
Proof. exists sample_rng. apply reach_start. Qed.

Lemma reachable_issued_world : reachable issued_world.
Proof. apply reachable_after. exact reachable_empty_world. Qed.

Lemma reachable_played_world : reachable played_world.
Proof. apply reachable_after. exact reachable_issued_world. Qed.

(** C4. In every world reached from the empty tables by issue, verify and
    redeem operations, under any storage faults: a code has a result
    exactly when it is used, and then one result only; every result
    refers to a code, which its key identifies; and in every world reached
    from there each code is still stored, under the same key and value, and
    a used code is the very same row: it is never unused again, nor
    deleted. *)
Theorem result_iff_used_and_used_terminal (w : World) :
  reachable w ->
  (forall c, In c (spin_codes (database w)) ->
     ((exists r, In r (spin_results (database w))
                 /\ SpinResult.code_id r = SpinCode.id c)
      <-> SpinCode.status c = used)
     /\ (List.length (results_of (SpinCode.id c) (database w)) <= 1)%nat)
  /\ (forall r, In r (spin_results (database w)) ->
        exists c, In c (spin_codes (database w))
                  /\ SpinCode.id c = SpinResult.code_id r)
  /\ NoDup (map SpinCode.id (spin_codes (database w)))
  /\ (forall w', reachable_from w w' ->
        forall c, In c (spin_codes (database w)) ->
          exists c', In c' (spin_codes (database w'))
                     /\ SpinCode.id c' = SpinCode.id c
                     /\ SpinCode.code c' = SpinCode.code c
                     /\ (SpinCode.status c = used -> c' = c)).
Proof.
  intros Hreach. pose proof (reachable_consistent w Hreach) as Hcons.
  split; [|split; [|split]].
  - intros c Hc. apply result_iff_used; assumption.
  - apply (results_refer _ Hcons).
  - apply (ids_unique _ Hcons).
  - intros w' Hreach'.
    apply (reachable_from_kept_consistent w w' Hreach' Hcons).
Qed.

(** The statement of C4 on the world in which 10000 has been redeemed. *)
Lemma result_iff_used_and_used_terminal_witness :
  reachable played_world
  /\ NoDup (map SpinCode.id (spin_codes (database played_world))).
Proof.
  split; [exact reachable_played_world|].
  apply (result_iff_used_and_used_terminal played_world reachable_played_world).
Defined.

(** C2. Whenever [POST /spin/play] does not answer with the success of
    the redemption (it answers invalid format, not found, already used or
    spin failed, or a rejection escapes it), under any storage faults, the
    rows of both tables are what they were: no status, no time of use has
    changed and no result is recorded; and consistent tables are
    consistent after the request, whatever its answer. *)
Theorem failed_redeem_leaves_tables (now : Timestamp) (faults : nat -> bool)
  (code : Js.Value) (w : World) :
  is_success (fst (fst (serve (spin_play now faults code) w))) = false ->
  spin_codes (database (after (redeem now faults code) w)) = spin_codes (database w)
  /\ spin_results (database (after (redeem now faults code) w))
     = spin_results (database w)
  /\ (consistent (database w) ->
      consistent (database (after (redeem now faults code) w))).
Proof.
  intros Hfail. simpl.
  destruct (serve (spin_play now faults code) w) as [[r w'] l] eqn:Hs. simpl in *.
  destruct (spin_play_cases _ _ _ _ _ _ _ Hs) as [_ Hcases].
  destruct Hcases as [(t & rest & o & _ & _ & _ & _ & -> & _)
                     |(_ & rseq & _ & ->)].
  - discriminate.
  - simpl. split; [reflexivity|]. split; [reflexivity|]. apply consistent_counter.
Qed.

(** The statement of C2 on a redemption that fails at its COMMIT. *)
Lemma failed_redeem_leaves_tables_witness :
  spin_codes (database (after (redeem 200 (fault_at 5) (Js.str "10000")) issued_world))
  = spin_codes (database issued_world)
  /\ spin_results (database (after (redeem 200 (fault_at 5) (Js.str "10000")) issued_world))
     = spin_results (database issued_world).
Proof.
  destruct (failed_redeem_leaves_tables 200 (fault_at 5) (Js.str "10000") issued_world)
    as (Hcodes & Hresults & _); [vm_compute; reflexivity|].
  split; assumption.
Defined.

Lemma all_digits_append (a b : string) :
  Js.all_digits (a ++ b) = Js.all_digits a && Js.all_digits b.
Proof.
  induction a as [|c a IH]; [reflexivity|].
  cbn [append Js.all_digits]. rewrite IH. apply andb_assoc.
Qed.

(** The conversion of an array of two elements or more holds a comma. *)
Lemma ToString_array_comma (first second : Js.Value) (rest : list Js.Value) (s : string) :
  Js.ToString (Js.array (first :: second :: rest)) = Some s -> Js.all_digits s = false.
Proof.
  cbn [Js.ToString].
  destruct (match first with
            | Js.undefined | Js.null => Some EmptyString
            | _ => Js.ToString first
            end) as [s0|]; [|discriminate].
  match goal with
  | |- match ?joined with Some _ => _ | None => _ end = _ -> _ =>
      destruct joined as [t|]; [|discriminate]
  end.
  intros [= <-]. rewrite all_digits_append. cbn [append Js.all_digits].
  change (Js.is_digit ",") with false. cbn [andb]. apply andb_false_r.
Qed.

Lemma not_identical_false (v : Js.Value) (n : Z) :
  Js.not_identical v n = false <-> v = Js.number n.
Proof.
  destruct v; cbn [Js.not_identical]; split; try discriminate.
  - intros H. apply negb_false_iff, Z.eqb_eq in H. congruence.
  - intros [= ->]. rewrite Z.eqb_refl. reflexivity.
Qed.

(** The test of the format lets a value through exactly when it is a
    string of five digits. *)
Lemma invalid_format_well_formed v : invalid_format v = Some false <-> well_formed v.
Proof.
  unfold invalid_format, well_formed. split.
  - destruct (Js.falsy v); [discriminate|].
    destruct (Js.not_identical (Js.length_of v) 5) eqn:Hlen; [discriminate|].
    apply not_identical_false in Hlen. unfold Js.regex_test.
    destruct v as [| |b|n|s|elements|properties]; cbn [Js.length_of] in Hlen;
      try discriminate.
    + cbn [Js.ToString option_map]. intros [= Hre]. apply negb_false_iff in Hre.
      exists s. split; [reflexivity|]. injection Hlen as Hlen.
      split; [lia|]. unfold Js.test_5_digits in Hre. apply andb_true_iff in Hre.
      apply Hre.
    + injection Hlen as Hlen.
      destruct elements as [|e1 [|e2 rest]]; try (cbn [List.length] in Hlen; lia).
      destruct (Js.ToString (Js.array (e1 :: e2 :: rest))) as [s|] eqn:Hs;
        [|discriminate].
      apply ToString_array_comma in Hs. cbn [option_map]. unfold Js.test_5_digits.
      rewrite Hs, andb_false_r. discriminate.
    + cbn [Js.ToString]. destruct (Js.has_own "toString" properties); discriminate.
  - intros (s & -> & Hlen & Hdigits). cbn [Js.falsy Js.length_of Js.not_identical].
    rewrite Hlen. cbn. unfold Js.regex_test, Js.test_5_digits. cbn [Js.ToString option_map].
    rewrite Hlen, Hdigits. reflexivity.
Qed.

Lemma not_well_formed_invalid v : ~ well_formed v -> invalid_format v <> Some false.
Proof.
  intros H Hinv. apply H. apply invalid_format_well_formed. exact Hinv.
Qed.

(** The test of the format throws exactly on a value with the length 5
    whose conversion to a string throws: an array of five elements or an
    object with the property [length]. *)
Lemma invalid_format_throws v :
  invalid_format v = None <-> Js.length_of v = Js.number 5 /\ Js.ToString v = None.
Proof.
  unfold invalid_format, Js.regex_test. split.
  - destruct (Js.falsy v); [discriminate|].
    destruct (Js.not_identical (Js.length_of v) 5) eqn:Hlen; [discriminate|].
    apply not_identical_false in Hlen.
    destruct (Js.ToString v); [discriminate|]. auto.
  - intros [Hlen Hs]. rewrite Hlen, Hs.
    destruct v as [| |[|]|n|s|elements|properties]; try discriminate; reflexivity.
Qed.

(** C5. After a successful [POST /spin/play] on a code, in every world
    reached from there by further operations, [POST /spin/verify] on that
    code answers already used (verification failed when the store rejects
    its query), and [POST /spin/play] on it never succeeds, leaves the
    rows of both tables as they are, so records no new result, and answers
    already used when the store rejects no call. *)
Theorem redeemed_code_already_used (now : Timestamp) (faults : nat -> bool)
  (code : Js.Value) (w : World) :
  reachable w ->
  is_success (fst (fst (serve (spin_play now faults code) w))) = true ->
  forall w', reachable_from (after (redeem now faults code) w) w' ->
    (forall faults',
        fst (fst (serve (spin_verify faults' code) w'))
        = if faults' 0%nat then inr VerificationFailed else inr AlreadyUsed)
    /\ (forall now' faults',
           is_success (fst (fst (serve (spin_play now' faults' code) w'))) = false
           /\ spin_results (database (after (redeem now' faults' code) w'))
              = spin_results (database w')
           /\ spin_codes (database (after (redeem now' faults' code) w'))
              = spin_codes (database w')
           /\ ((forall n, faults' n = false) ->
               fst (fst (serve (spin_play now' faults' code) w')) = inr AlreadyUsed)).
Proof.
  intros Hreach Hok w' Hreach'.
  pose proof (reachable_consistent w Hreach) as Hcons.
  pose proof (reachable_consistent _ (reachable_after (redeem now faults code) w Hreach))
    as Hcons1.
  destruct (reachable_from_kept_consistent _ _ Hreach' Hcons1) as [Hcons' Hkept].
  simpl in Hreach', Hcons1, Hkept.
  destruct (serve (spin_play now faults code) w) as [[r w1] l] eqn:Hs. simpl in *.
  destruct (spin_play_cases _ _ _ _ _ _ _ Hs) as [_ Hcases].
  destruct Hcases as [(t & rest & o & Hinv & Hcodes & Hunused & _ & _ & Hdb)
                     |(Hfail & _)]; [|congruence].
  destruct (codes_of_head _ _ _ _ Hcodes) as [Hin Hcode].
  (* the redeemed row, used, is a row of [w'] *)
  assert (Hin1 : In (mark_used now (SpinCode.id t) t) (spin_codes (database w1)))
    by (rewrite Hdb; simpl; apply in_map; exact Hin).
  destruct (Hkept _ Hin1) as (c' & Hc' & _ & _ & Hsame).
  rewrite mark_used_same in Hsame. specialize (Hsame eq_refl). subst c'.
  rewrite <- mark_used_same in Hc'.
  pose proof (codes_of_unique (database w') _ (codes_unique _ Hcons') Hc') as Hrows.
  rewrite mark_used_code, Hcode in Hrows.
  split.
  - intros faults'. rewrite spin_verify_served, Hinv. simpl. rewrite Hrows.
    rewrite mark_used_same. reflexivity.
  - intros now' faults'.
    destruct (serve (spin_play now' faults' code) w') as [[r' w2] l'] eqn:Hs'.
    pose proof (spin_play_served now' faults' code w') as Hserved.
    rewrite Hs' in Hserved. simpl in *.
    destruct (spin_play_cases _ _ _ _ _ _ _ Hs') as [_ Hcases].
    destruct Hcases as [(t' & rest' & o' & _ & Hcodes' & Hunused' & _)
                       |(Hfail & rseq & _ & ->)].
    + rewrite Hrows in Hcodes'. injection Hcodes' as <- <-.
      rewrite mark_used_same in Hunused'. discriminate.
    + simpl. repeat split; [exact Hfail|].
      intros Hnone. rewrite (Hserved Hnone), Hinv, Hrows, mark_used_same.
      reflexivity.
Qed.

Lemma redeemed_code_already_used_witness :
  fst (fst (serve (spin_verify no_faults (Js.str "10000")) played_world))
  = inr AlreadyUsed.
Proof.
  destruct (redeemed_code_already_used 200 no_faults (Js.str "10000") issued_world
              reachable_issued_world) with (w' := played_world) as [Hverify _].
  - vm_compute. reflexivity.
  - apply reach_start.
  - exact (Hverify no_faults).
Defined.

(** C6, as stated, fails: on a value of four digits [POST /spin/play]
    has acquired a connection and sent BEGIN before it tests the format,
    and answers spin failed when BEGIN is rejected. *)
Lemma redeem_checks_format_after_begin :
  ~ (forall (v : Js.Value) (now : Timestamp) (faults : nat -> bool) (w : World),
        ~ well_formed v ->
        fst (fst (serve (spin_verify faults v) w)) = inr InvalidFormat
        /\ fst (fst (serve (spin_play now faults v) w)) = inr InvalidFormat
        /\ snd (serve (spin_play now faults v) w) = []).
Proof.
  intros H.
  destruct (H (Js.str "1234") 0 (fault_at 1) empty_world) as (_ & Hplay & _).
  - intros (s & [= <-] & Hlen & _). discriminate.
  - vm_compute in Hplay. discriminate.
Qed.

(** C6, amended. On every JSON value that is not a string of exactly
    five ASCII digits, the test of the format either holds or throws; it
    throws exactly on a value whose [length] is 5 and whose conversion to
    a string throws, such as [{"length": 5, "toString": null}].
    [POST /spin/verify] sends no query: it answers invalid format, and
    verification failed when the test throws.  [POST /spin/play] tests
    the format once it has acquired a connection and sent BEGIN: it
    answers invalid format, and spin failed when the test throws, when the
    store rejects none of its three calls; it never succeeds, sends no
    statement that reads or writes a row, and leaves the tables as they
    were. *)
Theorem malformed_code_invalid_format (v : Js.Value) (now : Timestamp)
  (faults : nat -> bool) (w : World) :
  ~ well_formed v ->
  invalid_format v <> Some false
  /\ (invalid_format v = None
      <-> Js.length_of v = Js.number 5 /\ Js.ToString v = None)
  /\ serve (spin_verify faults v) w
     = (inr (match invalid_format v with
             | Some _ => InvalidFormat
             | None => VerificationFailed
             end), w, [])
  /\ is_success (fst (fst (serve (spin_play now faults v) w))) = false
  /\ database (after (redeem now faults v) w) = database w
  /\ forallb touches_no_row (snd (serve (spin_play now faults v) w)) = true
  /\ (faults 0%nat = false -> faults 1%nat = false -> faults 2%nat = false ->
      fst (serve (spin_play now faults v) w)
      = (inr (match invalid_format v with
              | Some _ => InvalidFormat
              | None => SpinFailed
              end), w)
      /\ snd (serve (spin_play now faults v) w) = [CONNECT; BEGIN; ROLLBACK; RELEASE]).
Proof.
  intros Hbad. apply not_well_formed_invalid in Hbad.
  split; [exact Hbad|]. split; [apply invalid_format_throws|].
  split; [rewrite spin_verify_served;
          destruct (invalid_format v) as [[|]|]; [reflexivity|congruence|reflexivity]|].
  destruct w as [[codes results cseq rseq] g]. simpl. run_handler.
  destruct (invalid_format v) as [[|]|]; [|congruence|];
    (destruct (faults 0%nat); simpl; [repeat split; discriminate|]);
    (destruct (faults 1%nat); simpl;
     [destruct (faults 2%nat); simpl; repeat split; discriminate|]);
    (destruct (faults 2%nat); simpl;
     [try (destruct (faults 3%nat); simpl); repeat split; discriminate|]);
    repeat split.
Qed.

(** The statement of C6 on a string of four digits, and on an object
    whose conversion to a string throws. *)
Lemma malformed_code_invalid_format_witness :
  (serve (spin_verify no_faults (Js.str "1234")) issued_world
   = (inr InvalidFormat, issued_world, [])
   /\ snd (serve (spin_play 200 no_faults (Js.str "1234")) issued_world)
      = [CONNECT; BEGIN; ROLLBACK; RELEASE])
  /\ serve (spin_verify no_faults
              (Js.object [("length", Js.number 5); ("toString", Js.null)]))
        issued_world
     = (inr VerificationFailed, issued_world, []).
Proof.
  split.
  - destruct (malformed_code_invalid_format (Js.str "1234") 200 no_faults issued_world)
      as (_ & _ & Hverify & _ & _ & _ & Hplay).
    + intros (s & [= <-] & Hlen & _). discriminate.
    + split; [exact Hverify|]. apply Hplay; reflexivity.
  - destruct (malformed_code_invalid_format
                (Js.object [("length", Js.number 5); ("toString", Js.null)])
                200 no_faults issued_world)
      as (_ & _ & Hverify & _).
    + intros (s & [=] & _).
    + exact Hverify.
Defined.

End LedgerFacts.

(** ** Binary64 rounding *)

Module Binary64Facts.

Import Binary64.

(** *** Shifting a mantissa to the right *)

Lemma iter_pos_nat {A} (f : A -> A) (p : positive) (x : A) :
  iter_pos f p x = Nat.iter (Pos.to_nat p) f x.
Proof.
  revert x. induction p as [p IH|p IH|]; intros x; cbn [iter_pos].
  - rewrite !IH, Pos2Nat.inj_xI. rewrite <- Nat.iter_succ_r.
    rewrite <- Nat.iter_add. f_equal. lia.
  - rewrite !IH, Pos2Nat.inj_xO. rewrite <- Nat.iter_add. f_equal. lia.
  - reflexivity.
Qed.

Lemma shr_1_nonneg (m : Z) (r s : bool) :
  0 <= m ->
  shr_1 (Build_shr_record m r s) = Build_shr_record (m / 2) (Z.odd m) (r || s).
Proof.
  intros Hm. destruct m as [|p|p]; [reflexivity| |lia].
  destruct p as [p|p|]; unfold shr_1.
  - replace (Z.pos p~1 / 2) with (Z.pos p); [reflexivity|].
    apply (Z.div_unique _ _ _ 1); lia.
  - replace (Z.pos p~0 / 2) with (Z.pos p); [reflexivity|].
    apply (Z.div_unique _ _ _ 0); lia.
  - reflexivity.
Qed.

(** After [k] shifts of [M]: the quotient by [2^k], and a round bit that is
    set only when the remainder is at least half of [2^k]. *)
Lemma shr_steps (M : Z) (k : nat) :
  0 <= M ->
  let mrs := Nat.iter k shr_1 (Build_shr_record M false false) in
  shr_m mrs = M / 2 ^ Z.of_nat k
  /\ (shr_r mrs = true -> (0 < k)%nat /\ 2 ^ (Z.of_nat k - 1) <= M mod 2 ^ Z.of_nat k).
Proof.
  intros HM. cbv zeta. induction k as [|k IH]; cbn [Nat.iter].
  - cbn [shr_m shr_r]. split; [rewrite Z.div_1_r; reflexivity|discriminate].
  - destruct IH as [Hm Hr]. rewrite Nat.iter_succ.
    destruct (Nat.iter k shr_1 _) as [m r s]. cbn [shr_m shr_r] in Hm, Hr.
    assert (Hpow : 0 < 2 ^ Z.of_nat k) by (apply Z.pow_pos_nonneg; lia).
    rewrite shr_1_nonneg by (subst m; apply Z.div_pos; lia).
    cbn [shr_m shr_r]. subst m.
    rewrite Nat2Z.inj_succ, Z.pow_succ_r by lia.
    split.
    + rewrite Z.mul_comm, Z.div_div by lia. reflexivity.
    + intros Hodd. split; [lia|].
      replace (Z.succ (Z.of_nat k) - 1) with (Z.of_nat k) by lia.
      rewrite Z.mul_comm, Z.rem_mul_r by lia.
      pose proof (Zmod_odd (M / 2 ^ Z.of_nat k)) as Hmod. rewrite Hodd in Hmod.
      pose proof (Z.mod_pos_bound M (2 ^ Z.of_nat k) Hpow). nia.
Qed.

Lemma fexp64_eq e : fexp 53 1024 e = fexp64 e.
Proof. reflexivity. Qed.

Lemma digits2_bounds (p : positive) :
  2 ^ (Z.pos (digits2_pos p) - 1) <= Z.pos p < 2 ^ Z.pos (digits2_pos p).
Proof.
  induction p as [p IH|p IH|]; cbn [digits2_pos].
  - rewrite Pos2Z.inj_succ, Z.pow_succ_r by lia.
    replace (Z.succ (Z.pos (digits2_pos p)) - 1) with (Z.succ (Z.pos (digits2_pos p) - 1)) by lia.
    rewrite Z.pow_succ_r by lia. lia.
  - rewrite Pos2Z.inj_succ, Z.pow_succ_r by lia.
    replace (Z.succ (Z.pos (digits2_pos p)) - 1) with (Z.succ (Z.pos (digits2_pos p) - 1)) by lia.
    rewrite Z.pow_succ_r by lia. lia.
  - simpl. lia.
Qed.

(** A mantissa below [2^k] has at most [k] digits. *)
Lemma Zdigits2_le (m k : Z) : 0 <= m -> 0 <= k -> m < 2 ^ k -> Zdigits2 m <= k.
Proof.
  intros Hm Hk Hlt. destruct m as [|p|p]; simpl; [lia| |lia].
  destruct (Z_le_gt_dec (Z.pos (digits2_pos p)) k) as [Hle|Hgt]; [exact Hle|].
  pose proof (digits2_bounds p) as [Hlow _].
  assert (2 ^ k <= 2 ^ (Z.pos (digits2_pos p) - 1)) by (apply Z.pow_le_mono_r; lia).
  lia.
Qed.

Lemma shr_pos (M : Z) (p : positive) :
  0 <= M ->
  let mrs := iter_pos shr_1 p (Build_shr_record M false false) in
  shr_m mrs = M / 2 ^ Z.pos p
  /\ (shr_r mrs = true -> 2 ^ (Z.pos p - 1) <= M mod 2 ^ Z.pos p).
Proof.
  intros HM. cbv zeta. rewrite iter_pos_nat.
  destruct (shr_steps M (Pos.to_nat p) HM) as [Hm Hr].
  rewrite positive_nat_Z in Hm, Hr. split; [exact Hm|].
  intros H. apply Hr. exact H.
Qed.

(** Rounding to nearest even adds one unit at most, and only on a set
    round bit. *)
Lemma round_nearest_even_cases (mrs : shr_record) :
  let m := round_nearest_even (shr_m mrs) (loc_of_shr_record mrs) in
  m = shr_m mrs \/ (m = shr_m mrs + 1 /\ shr_r mrs = true).
Proof.
  destruct mrs as [m r s]. destruct r, s; simpl; auto.
  destruct (Z.even m); auto.
Qed.

(** Rounding the exact positive value [M * 2^E]: the result has an
    exponent [e >= E], at most one above the target exponent; in units of
    [2^E] it is at least [M] truncated to multiples of [2^(e - E)], and at
    most [M] plus half a unit of the target exponent. *)
Lemma binary_round_aux_bounds (M : positive) (E : Z) :
  let target := fexp64 (Z.pos (digits2_pos M) + E) in
  exists mz e,
    binary_round_aux 53 1024 false (Z.pos M) E loc_Exact = rounded mz e
    /\ 0 <= mz
    /\ E <= e <= Z.max target E + 1
    /\ Z.pos M / 2 ^ (e - E) <= mz
    /\ mz * 2 ^ (e - E)
       <= Z.pos M + (if E <? target then 2 ^ (target - E - 1) else 0).
Proof.
  intros target.
  assert (Htarget : -1074 <= target) by (unfold target, fexp64; lia).
  pose proof (digits2_bounds M) as [_ HMhi].
  unfold binary_round_aux, shr_fexp. rewrite !fexp64_eq.
  cbn [Zdigits2 shr_record_of_loc]. fold target.
  (* the second shift, of the rounded mantissa [m1] at exponent [e1] *)
  assert (Hsecond : forall m1 e1,
             0 <= m1 <= 2 ^ 53 -> -1074 <= e1 ->
             exists mz e,
               (let '(mrs, e) :=
                  shr (Build_shr_record m1 false false) e1
                    (fexp64 (Zdigits2 m1 + e1) - e1) in
                match shr_m mrs with
                | Z0 => S754_zero false
                | Zpos m =>
                    if e <=? 1024 - 53 then S754_finite false m e
                    else S754_infinity false
                | Zneg _ => S754_nan
                end) = rounded mz e
               /\ 0 <= mz /\ e1 <= e <= e1 + 1
               /\ mz = m1 / 2 ^ (e - e1)).
  { intros m1 e1 [Hm0 Hm1] He1.
    assert (Hd : Zdigits2 m1 <= 54)
      by (apply Zdigits2_le; try lia;
          apply Z.le_lt_trans with (1 := Hm1); apply Z.pow_lt_mono_r; lia).
    unfold shr.
    destruct (fexp64 (Zdigits2 m1 + e1) - e1) as [|p|p] eqn:Hn.
    - exists m1, e1. cbn [shr_m]. rewrite Z.sub_diag, Z.div_1_r.
      repeat split; try lia.
    - assert (Hp : Z.pos p = 1) by (unfold fexp64 in Hn; lia).
      destruct (shr_pos m1 p Hm0) as [Hq _].
      exists (m1 / 2 ^ Z.pos p), (e1 + Z.pos p). rewrite Hq.
      replace (e1 + Z.pos p - e1) with (Z.pos p) by lia.
      repeat split; try lia.
      apply Z.div_pos; [lia|]. apply Z.pow_pos_nonneg; lia.
    - exists m1, e1. cbn [shr_m]. rewrite Z.sub_diag, Z.div_1_r.
      repeat split; try lia. }
  unfold shr at 1.
  destruct (target - E) as [|p|p] eqn:Hn.
  - (* no shift *)
    cbn [shr_m loc_of_shr_record round_nearest_even].
    destruct (Hsecond (Z.pos M) E) as (mz & e & Heq & Hmz & He & Hdiv).
    + split; [lia|]. apply Z.lt_le_incl.
      apply Z.lt_le_trans with (1 := HMhi). apply Z.pow_le_mono_r; [lia|].
      unfold target, fexp64 in Hn. lia.
    + lia.
    + exists mz, e. split; [exact Heq|].
      replace (E <? target) with false by (symmetry; apply Z.ltb_ge; lia).
      assert (Hpow : 0 < 2 ^ (e - E)) by (apply Z.pow_pos_nonneg; lia).
      repeat split; try lia.
      rewrite Hdiv. rewrite Z.mul_comm. apply Z.mul_div_le. exact Hpow.
  - (* a shift by [p] digits, then the rounding *)
    destruct (shr_pos (Z.pos M) p ltac:(lia)) as [Hq Hr].
    pose proof (round_nearest_even_cases
                  (iter_pos shr_1 p (Build_shr_record (Z.pos M) false false)))
      as Hround.
    cbv zeta in Hround.
    set (m1 := round_nearest_even _ _) in *.
    rewrite Hq in Hround.
    assert (Hp2 : 0 < 2 ^ Z.pos p) by (apply Z.pow_pos_nonneg; lia).
    assert (Hq0 : 0 <= Z.pos M / 2 ^ Z.pos p) by (apply Z.div_pos; lia).
    assert (Hq53 : Z.pos M / 2 ^ Z.pos p < 2 ^ 53).
    { apply Z.div_lt_upper_bound; [exact Hp2|].
      rewrite <- Z.pow_add_r by lia.
      apply Z.lt_le_trans with (1 := HMhi). apply Z.pow_le_mono_r; [lia|].
      unfold target, fexp64 in Hn. lia. }
    destruct (Hsecond m1 (E + Z.pos p)) as (mz & e & Heq & Hmz & He & Hdiv);
      [destruct Hround as [->|[-> _]]; lia|lia|].
    exists mz, e. split; [exact Heq|].
    replace (E <? target) with true by (symmetry; apply Z.ltb_lt; lia).
    replace (target - E - 1) with (Z.pos p - 1) by lia.
    assert (Hsplit : 2 ^ (e - E) = 2 ^ Z.pos p * 2 ^ (e - (E + Z.pos p)))
      by (rewrite <- Z.pow_add_r by lia; f_equal; lia).
    assert (Hp3 : 0 < 2 ^ (e - (E + Z.pos p))) by (apply Z.pow_pos_nonneg; lia).
    split; [exact Hmz|]. split; [lia|]. split.
    + rewrite Hsplit, <- Z.div_div by lia. rewrite Hdiv.
      apply Z.div_le_mono; [lia|]. destruct Hround as [->|[-> _]]; lia.
    + rewrite Hsplit.
      assert (Hmz1 : mz * 2 ^ (e - (E + Z.pos p)) <= m1)
        by (rewrite Hdiv, Z.mul_comm; apply Z.mul_div_le; exact Hp3).
      assert (Hm1 : m1 * 2 ^ Z.pos p <= Z.pos M + 2 ^ (Z.pos p - 1)).
      { pose proof (Z.div_mod (Z.pos M) (2 ^ Z.pos p) ltac:(lia)) as Hdm.
        pose proof (Z.mod_pos_bound (Z.pos M) (2 ^ Z.pos p) Hp2) as Hmod.
        assert (Hhalf : 2 ^ Z.pos p = 2 * 2 ^ (Z.pos p - 1))
          by (rewrite <- Z.pow_succ_r by lia; f_equal; lia).
        destruct Hround as [->|[-> Hbit]].
        - nia.
        - specialize (Hr Hbit). nia. }
      nia.
  - (* the exponent is above the target: no shift *)
    cbn [shr_m loc_of_shr_record round_nearest_even].
    destruct (Hsecond (Z.pos M) E) as (mz & e & Heq & Hmz & He & Hdiv).
    + split; [lia|]. apply Z.lt_le_incl.
      apply Z.lt_le_trans with (1 := HMhi). apply Z.pow_le_mono_r; [lia|].
      unfold target, fexp64 in Hn. lia.
    + unfold target, fexp64 in Hn. lia.
    + exists mz, e. split; [exact Heq|].
      replace (E <? target) with false by (symmetry; apply Z.ltb_ge; lia).
      assert (Hpow : 0 < 2 ^ (e - E)) by (apply Z.pow_pos_nonneg; lia).
      repeat split; try lia.
      rewrite Hdiv. rewrite Z.mul_comm. apply Z.mul_div_le. exact Hpow.
Qed.

(** *** The order of the doubles *)



(** *** The doubles of [0, 1) *)

(** A draw is zero, or a positive double [m * 2^e] with a mantissa below
    [2^53] and an exponent of -53 at most. *)
Lemma unit_interval_cases (r : float) :
  Js.unit_interval r ->
  (exists s, Prim2SF r = S754_zero s)
  \/ (exists m e, Prim2SF r = S754_finite false m e
                  /\ Z.pos m < 2 ^ 53 /\ -1074 <= e <= -53).
Proof.
  intros [Hge Hlt]. rewrite leb_spec in Hge. rewrite ltb_spec in Hlt.
  pose proof (Prim2SF_valid r) as Hvalid.
  change (Prim2SF 0) with (S754_zero false) in Hge.
  change (Prim2SF 1) with (S754_finite false 4503599627370496 (-52)) in Hlt.
  destruct (Prim2SF r) as [s|s| |s m e].
  - left. exists s. reflexivity.
  - destruct s; discriminate.
  - discriminate.
  - right. exists m, e.
    destruct s; [discriminate|]. split; [reflexivity|].
    unfold valid_binary, bounded, canonical_mantissa in Hvalid.
    apply andb_true_iff in Hvalid. destruct Hvalid as [Hcanon _].
    apply Z.eqb_eq in Hcanon. rewrite fexp64_eq in Hcanon. unfold fexp64 in Hcanon.
    pose proof (digits2_bounds m) as [Hlow Hhigh].
    unfold SFltb, SFcompare in Hlt.
    assert (He : e <= -53).
    { destruct (Z.compare_spec e (-52)) as [Heq|Hlt'|Hgt]; [|lia|discriminate].
      assert (Hm : (m < 4503599627370496)%positive).
      { rewrite Pos.compare_cont_spec in Hlt.
        destruct (Pos.compare_spec m 4503599627370496) as [Hc|Hc|Hc];
          [discriminate Hlt|exact Hc|discriminate Hlt]. }
      assert (Hd : Z.pos (digits2_pos m) <= 52).
      { change (Z.pos (digits2_pos m)) with (Zdigits2 (Z.pos m)).
        apply Zdigits2_le.
        - clear. lia.
        - clear. lia.
        - change (2 ^ 52) with (Z.pos 4503599627370496).
          apply Pos2Z.pos_lt_pos. exact Hm. }
      clear - Hd Hcanon Heq. lia. }
    clear Hlt. split; [|lia].
    apply Z.lt_le_trans with (1 := Hhigh). apply Z.pow_le_mono_r; lia.
Qed.

(** *** The constants of [generateSpinCode] *)

Lemma mantissa_90000_eq : Z.pos mantissa_90000 = 90000 * 2 ^ 36.
Proof. reflexivity. Qed.

Lemma mantissa_10000_eq : Z.pos mantissa_10000 = 10000 * 2 ^ 39.
Proof. reflexivity. Qed.

Lemma Prim2SF_90000 : Prim2SF 90000 = S754_finite false mantissa_90000 (-36).
Proof. reflexivity. Qed.

Lemma Prim2SF_10000 : Prim2SF 10000 = S754_finite false mantissa_10000 (-39).
Proof. reflexivity. Qed.

Lemma pow2_pos (k : Z) : 0 <= k -> 0 < 2 ^ k.
Proof. intros. apply Z.pow_pos_nonneg; lia. Qed.

Lemma pow2_split (a b : Z) : 0 <= a -> 0 <= b -> 2 ^ (a + b) = 2 ^ a * 2 ^ b.
Proof. intros. apply Z.pow_add_r; assumption. Qed.

Lemma pow2_le (a b : Z) : 0 <= a <= b -> 2 ^ a <= 2 ^ b.
Proof. intros. apply Z.pow_le_mono_r; lia. Qed.

(** A valid double has a mantissa below [2^53]. *)
Lemma valid_mantissa (s : bool) (m : positive) (e : Z) :
  valid_binary (S754_finite s m e) = true -> Z.pos m < 2 ^ 53 /\ -1074 <= e.
Proof.
  unfold SpecFloat.valid_binary, bounded, canonical_mantissa. intros H.
  apply andb_true_iff in H. destruct H as [Hcanon _].
  apply Z.eqb_eq in Hcanon. rewrite fexp64_eq in Hcanon. unfold fexp64 in Hcanon.
  pose proof (digits2_bounds m) as [_ Hhigh].
  split; [|lia].
  apply Z.lt_le_trans with (1 := Hhigh). apply pow2_le. lia.
Qed.

(** The product of a draw by 90000 is zero or a double of at most
    [90000 - 2^-36]. *)
Lemma mul_90000_bound (m : positive) (e : Z) :
  Z.pos m < 2 ^ 53 -> -1074 <= e <= -53 ->
  let x := SF64mul (S754_finite false m e) (S754_finite false mantissa_90000 (-36)) in
  valid_binary x = true ->
  x = S754_zero false
  \/ exists m2 e2,
      x = S754_finite false m2 e2 /\ -1110 <= e2 <= -35
      /\ scaled m2 e2 <= (Z.pos mantissa_90000 - 1) * 2 ^ 1164.
Proof.
  intros Hm He x Hvalid. subst x.
  unfold SF64mul, SFmul in *. cbn [xorb] in *.
  change prec with 53 in *. change emax with 1024 in *.
  destruct (binary_round_aux_bounds (m * mantissa_90000) (e + -36))
    as (mz & e2 & Heq & Hmz & He2 & _ & Hup).
  rewrite Heq in *. clear Heq.
  rewrite Pos2Z.inj_mul in Hup.
  set (d := Z.pos (digits2_pos (m * mantissa_90000))) in *.
  assert (Hd : d <= 106).
  { change d with (Zdigits2 (Z.pos (m * mantissa_90000))).
    apply Zdigits2_le; [lia|lia|].
    rewrite Pos2Z.inj_mul, mantissa_90000_eq.
    change (2 ^ 106) with (2 ^ 53 * 2 ^ 53). nia. }
  pose proof mantissa_90000_eq as HC.
  remember (Z.pos mantissa_90000) as C eqn:HCdef. clear HCdef.
  assert (HC52 : 2 ^ 52 < C) by (rewrite HC; lia).
  assert (HC53 : C < 2 ^ 53) by (rewrite HC; lia).
  clear HC.
  assert (Hd0 : 0 < d) by (unfold d; lia).
  clearbody d.
  set (E := e + -36) in *.
  assert (HE : -1110 <= E <= -89) by (unfold E; lia).
  set (target := fexp64 (d + E)) in *.
  assert (Htarget : -1074 <= target <= -36) by (unfold target, fexp64, E; lia).
  assert (Hslack : (if E <? target then 2 ^ (target - E - 1) else 0) <= 2 ^ 52).
  { destruct (E <? target) eqn:Hlt; [|lia].
    apply Z.ltb_lt in Hlt. apply pow2_le. unfold target, fexp64, E in *. lia. }
  assert (Hlt : mz * 2 ^ (e2 - E) < 2 ^ 53 * C) by nia.
  clear Hup Hslack.
  destruct mz as [|m2|m2]; [left; reflexivity| |lia].
  right. unfold rounded in *.
  replace (e2 <=? 971) with true in * by (symmetry; apply Z.leb_le; lia).
  exists m2, e2. split; [reflexivity|]. split; [lia|].
  apply valid_mantissa in Hvalid. destruct Hvalid as [Hm2 _].
  unfold scaled.
  destruct (Z_le_gt_dec (-36) e2) as [Hhigh|Hlow].
  - (* exponent -36 or -35: the value is a multiple of 2^-36 below 90000 *)
    assert (Hsplit : 2 ^ (e2 - E) = 2 ^ (e2 + 36) * 2 ^ (-36 - E))
      by (rewrite <- pow2_split by lia; f_equal; lia).
    assert (Hbig : 2 ^ 53 <= 2 ^ (-36 - E)) by (apply pow2_le; lia).
    assert (Hp : 0 < 2 ^ (e2 + 36)) by (apply pow2_pos; lia).
    assert (Hunits : Z.pos m2 * 2 ^ (e2 + 36) < C).
    { rewrite Hsplit in Hlt.
      set (u := Z.pos m2 * 2 ^ (e2 + 36)) in *.
      set (P := 2 ^ (-36 - E)) in *.
      assert (0 < P) by (apply pow2_pos; lia).
      assert (u * P < P * C) by nia.
      nia. }
    replace (e2 + 1200) with ((e2 + 36) + 1164) by lia.
    rewrite pow2_split by lia.
    assert (0 < 2 ^ 1164) by (apply pow2_pos; lia).
    nia.
  - (* a smaller exponent: the value is below 2^16 *)
    assert (Hexp : 2 ^ (e2 + 1200) * 2 ^ 53 <= 2 ^ 52 * 2 ^ 1164).
    { rewrite <- !pow2_split by lia. apply pow2_le. lia. }
    assert (0 < 2 ^ (e2 + 1200)) by (apply pow2_pos; lia).
    assert (0 < 2 ^ 1164) by (apply pow2_pos; lia).
    nia.
Qed.

(** *** Aligning and adding *)

Lemma iter_xO_pow (m d : positive) :
  Z.pos (Pos.iter xO m d) = Z.pos m * 2 ^ Z.pos d.
Proof.
  induction d as [|d IH] using Pos.peano_ind.
  - simpl. lia.
  - rewrite Pos.iter_succ, Pos2Z.inj_xO, IH, Pos2Z.inj_succ, Z.pow_succ_r by lia. lia.
Qed.

(** Aligning a mantissa on a lower exponent keeps the value. *)
Lemma shl_align_spec (mx : positive) (ex e' : Z) :
  exists m' e'', shl_align mx ex e' = (m', e'')
    /\ e'' = Z.min ex e'
    /\ Z.pos m' = Z.pos mx * 2 ^ (ex - e'').
Proof.
  unfold shl_align. destruct (e' - ex) as [|d|d] eqn:Hd.
  - exists mx, ex. repeat split; [lia|]. rewrite Z.sub_diag. simpl. lia.
  - exists mx, ex. repeat split; [lia|]. rewrite Z.sub_diag. simpl. lia.
  - exists (Pos.iter xO mx d), e'. repeat split; [lia|].
    rewrite iter_xO_pow. f_equal. f_equal. lia.
Qed.

(** The sum of 10000 and of a double of at most [90000 - 2^-36] is a
    double of [10000, 100000). *)
Lemma add_10000_bound (m2 : positive) (e2 : Z) :
  -1110 <= e2 <= -35 ->
  scaled m2 e2 <= (Z.pos mantissa_90000 - 1) * 2 ^ 1164 ->
  exists mw ew,
    SF64add (S754_finite false mantissa_10000 (-39)) (S754_finite false m2 e2)
    = S754_finite false mw ew
    /\ ew < 0
    /\ 10000 * 2 ^ (- ew) <= Z.pos mw < 100000 * 2 ^ (- ew).
Proof.
  intros He2 Hscaled.
  unfold SF64add, SFadd. change prec with 53. change emax with 1024.
  cbn [cond_Zopp].
  set (ez := Z.min (-39) e2).
  destruct (shl_align_spec mantissa_10000 (-39) ez) as (p1 & e1 & -> & He1 & Hp1).
  destruct (shl_align_spec m2 e2 ez) as (p2 & e2' & -> & He2' & Hp2).
  cbn [fst].
  change (Z.pos p1 + Z.pos p2) with (Z.pos (p1 + p2)).
  cbn [binary_normalize]. unfold binary_round. rewrite fexp64_eq.
  assert (Hez : -1110 <= ez <= -39) by (unfold ez; lia).
  replace e1 with ez in Hp1 by (unfold ez in *; lia).
  replace e2' with ez in Hp2 by (unfold ez in *; lia).
  clear He1 He2' e1 e2'.
  (* the exact sum [S], in units of [2^ez] *)
  assert (HS : 10000 * 2 ^ 36 * 2 ^ (-36 - ez) <= Z.pos (p1 + p2)
               <= (100000 * 2 ^ 36 - 1) * 2 ^ (-36 - ez)).
  { rewrite Pos2Z.inj_add, Hp1, Hp2, mantissa_10000_eq.
    unfold scaled in Hscaled. rewrite mantissa_90000_eq in Hscaled.
    assert (H39 : 2 ^ (-39 - ez) * 2 ^ 3 = 2 ^ (-36 - ez))
      by (rewrite <- pow2_split by lia; f_equal; lia).
    assert (Hm2 : Z.pos m2 * 2 ^ (e2 - ez) <= (90000 * 2 ^ 36 - 1) * 2 ^ (-36 - ez)).
    { assert (Hl : 2 ^ (e2 + 1200) = 2 ^ (e2 - ez) * 2 ^ (ez + 1200))
        by (rewrite <- pow2_split by lia; f_equal; lia).
      assert (Hr : 2 ^ 1164 = 2 ^ (-36 - ez) * 2 ^ (ez + 1200))
        by (rewrite <- pow2_split by lia; f_equal; lia).
      rewrite Hl, Hr in Hscaled.
      assert (0 < 2 ^ (ez + 1200)) by (apply pow2_pos; lia).
      set (Q := 2 ^ (ez + 1200)) in *. set (u := Z.pos m2 * 2 ^ (e2 - ez)).
      set (v := (90000 * 2 ^ 36 - 1) * 2 ^ (-36 - ez)).
      assert (u * Q <= v * Q) by (unfold u, v; lia).
      nia. }
    assert (0 < 2 ^ (-39 - ez)) by (apply pow2_pos; lia).
    assert (0 <= Z.pos m2 * 2 ^ (e2 - ez))
      by (apply Z.mul_nonneg_nonneg; [lia|apply Z.lt_le_incl, pow2_pos; lia]).
    change (2 ^ 39) with (2 ^ 36 * 2 ^ 3). rewrite <- H39 in Hm2 |- *.
    change (2 ^ 3) with 8 in *. change (2 ^ 36) with 68719476736 in *. lia. }
  set (S := (p1 + p2)%positive) in *. clearbody S. clear Hp1 Hp2 p1 p2 Hscaled.
  destruct (shl_align_spec S ez (fexp64 (Z.pos (digits2_pos S) + ez)))
    as (mz & ez' & -> & Hez' & Hmz).
  assert (Hez'le : -1110 <= ez' <= ez).
  { rewrite Hez'. unfold fexp64. pose proof (digits2_bounds S). lia. }
  clear Hez'.
  (* the aligned sum, in units of [2^ez'] *)
  set (T := 2 ^ (-36 - ez')).
  assert (HT : 0 < T) by (apply pow2_pos; lia).
  assert (HTsplit : T = 2 ^ (-36 - ez) * 2 ^ (ez - ez'))
    by (unfold T; rewrite <- pow2_split by lia; f_equal; lia).
  assert (HQ : 0 < 2 ^ (ez - ez')) by (apply pow2_pos; lia).
  assert (HP : 0 < 2 ^ (-36 - ez)) by (apply pow2_pos; lia).
  assert (Hmzb : 10000 * 2 ^ 36 * T <= Z.pos mz <= (100000 * 2 ^ 36 - 1) * T).
  { rewrite Hmz, HTsplit. split; nia. }
  clear Hmz HS HTsplit HQ HP S.
  destruct (binary_round_aux_bounds mz ez') as (mw & ew & -> & Hmw & Hew & Hlow & Hup).
  set (target := fexp64 (Z.pos (digits2_pos mz) + ez')) in *.
  assert (Hd : Z.pos (digits2_pos mz) <= 17 - ez').
  { change (Z.pos (digits2_pos mz)) with (Zdigits2 (Z.pos mz)).
    apply Zdigits2_le; [lia|lia|].
    replace (17 - ez') with (53 + (-36 - ez')) by lia.
    rewrite pow2_split by lia. fold T.
    change (2 ^ 36) with 68719476736 in Hmzb. change (2 ^ 53) with 9007199254740992.
    nia. }
  assert (Htarget : -1074 <= target <= -36) by (unfold target, fexp64; lia).
  assert (Hew2 : ez' <= ew <= -35) by lia.
  assert (Hslack : 2 * (if ez' <? target then 2 ^ (target - ez' - 1) else 0) <= T).
  { destruct (ez' <? target) eqn:Hlt; [|lia].
    apply Z.ltb_lt in Hlt.
    rewrite <- Z.pow_succ_r by lia. unfold T. apply pow2_le. lia. }
  set (Q := 2 ^ (ew - ez')) in *.
  assert (HQ : 0 < Q) by (apply pow2_pos; lia).
  assert (HTQ : 2 ^ 36 * T = 2 ^ (- ew) * Q).
  { unfold T, Q. rewrite <- !pow2_split by lia. f_equal. lia. }
  assert (HW : 0 < 2 ^ (- ew)) by (apply pow2_pos; lia).
  set (W := 2 ^ (- ew)) in *.
  change (2 ^ 36) with 68719476736 in *.
  assert (Hupper : mw < 100000 * W) by nia.
  assert (Hlower : 10000 * W <= mw).
  { apply Z.le_trans with (2 := Hlow). apply Z.div_le_lower_bound; [exact HQ|]. nia. }
  destruct mw as [|mw|mw]; [lia| |lia].
  exists mw, ew. unfold rounded.
  replace (ew <=? 971) with true by (symmetry; apply Z.leb_le; lia).
  repeat split; lia.
Qed.

(** *** The integer a spin code is taken from *)

Lemma add_10000_zero (s : bool) :
  SF64add (S754_finite false mantissa_10000 (-39)) (S754_zero s)
  = S754_finite false mantissa_10000 (-39).
Proof. reflexivity. Qed.

(** For every draw of [0, 1), [Math.floor(10000 + random * 90000)] is an
    integer of [10000, 99999]. *)
Lemma floor_of_draw (random : float) :
  Js.unit_interval random ->
  exists n, Js.Math_floor (10000 + random * 90000)%float = Some n
            /\ 10000 <= n <= 99999.
Proof.
  intros Hunit. unfold Js.Math_floor.
  pose proof (Prim2SF_valid (random * 90000)%float) as Hvalid.
  rewrite add_spec, mul_spec, Prim2SF_10000, Prim2SF_90000.
  rewrite mul_spec, Prim2SF_90000 in Hvalid.
  assert (Hzero : exists n : Z,
             Some (if 0 <=? -39 then Z.pos mantissa_10000 * 2 ^ (-39)
                   else Z.pos mantissa_10000 / 2 ^ (- -39)) = Some n
             /\ 10000 <= n <= 99999).
  { exists 10000. split; [reflexivity|lia]. }
  destruct (unit_interval_cases random Hunit) as [[s Hr]|(m & e & Hr & Hm & He)];
    rewrite Hr in *.
  - replace (SF64mul (S754_zero s) (S754_finite false mantissa_90000 (-36)))
      with (S754_zero (xorb s false)) by reflexivity.
    rewrite add_10000_zero. exact Hzero.
  - destruct (mul_90000_bound m e Hm He Hvalid)
      as [Hmul|(m2 & e2 & Hmul & He2 & Hscaled)]; rewrite Hmul.
    + rewrite add_10000_zero. exact Hzero.
    + destruct (add_10000_bound m2 e2 He2 Hscaled) as (mw & ew & Hadd & Hew & Hmw).
      rewrite Hadd.
      replace (0 <=? ew) with false by (symmetry; apply Z.leb_gt; lia).
      assert (Hpow : 0 < 2 ^ (- ew)) by (apply pow2_pos; lia).
      exists (Z.pos mw / 2 ^ (- ew)). split; [reflexivity|]. split.
      * apply Z.div_le_lower_bound; [exact Hpow|]. lia.
      * assert (Z.pos mw / 2 ^ (- ew) < 100000); [|lia].
        apply Z.div_lt_upper_bound; [exact Hpow|]. lia.
Qed.

(** *** The decimal notation of a five-digit integer *)

Ltac each_digit k :=
  let H := fresh in
  assert (H : (k = 0 \/ k = 1 \/ k = 2 \/ k = 3 \/ k = 4 \/ k = 5 \/ k = 6
               \/ k = 7 \/ k = 8 \/ k = 9)%N) by lia;
  repeat (destruct H as [H|H]); subst k.

Lemma of_lu_digit (k : N) (l : Decimal.uint) :
  (k < 10)%N -> DecimalPos.Unsigned.of_lu (digit k l) = (k + 10 * DecimalPos.Unsigned.of_lu l)%N.
Proof. intros Hk. each_digit k; reflexivity. Qed.

Lemma revapp_digit (k : N) (l acc : Decimal.uint) :
  (k < 10)%N -> Decimal.revapp (digit k l) acc = Decimal.revapp l (digit k acc).
Proof. intros Hk. each_digit k; reflexivity. Qed.

Lemma unorm_digit (k : N) (l : Decimal.uint) :
  (0 < k < 10)%N -> Decimal.unorm (digit k l) = digit k l.
Proof. intros Hk. each_digit k; try lia; reflexivity. Qed.

Lemma string_of_digit (k : N) (l : Decimal.uint) :
  (k < 10)%N ->
  NilZero.string_of_uint (digit k l)
  = String (digit_char k) (NilEmpty.string_of_uint l).
Proof. intros Hk. each_digit k; reflexivity. Qed.

Lemma string_of_digit_inner (k : N) (l : Decimal.uint) :
  (k < 10)%N ->
  NilEmpty.string_of_uint (digit k l)
  = String (digit_char k) (NilEmpty.string_of_uint l).
Proof. intros Hk. each_digit k; reflexivity. Qed.

Lemma is_digit_char (k : N) : (k < 10)%N -> Js.is_digit (digit_char k) = true.
Proof. intros Hk. each_digit k; reflexivity. Qed.

Lemma digit_char_nonzero (k : N) :
  (0 < k < 10)%N -> Ascii.eqb (digit_char k) "0" = false.
Proof. intros Hk. each_digit k; try lia; reflexivity. Qed.

(** The decimal notation of an integer of [10000, 99999]: its five digits,
    the first of which is not 0. *)
Lemma Number_toString_five_digits (n : Z) :
  10000 <= n <= 99999 ->
  exists a b c d e,
    (0 < a < 10 /\ b < 10 /\ c < 10 /\ d < 10 /\ e < 10)%N
    /\ n = Z.of_N (10000 * a + 1000 * b + 100 * c + 10 * d + e)
    /\ Js.Number_toString n
       = String (digit_char a) (String (digit_char b) (String (digit_char c)
           (String (digit_char d) (String (digit_char e) EmptyString)))).
Proof.
  intros Hn. destruct n as [|p|p]; try lia.
  set (v := N.pos p).
  assert (Hv : (10000 <= v <= 99999)%N) by (unfold v; lia).
  exists (v / 10000)%N, (v / 1000 mod 10)%N, (v / 100 mod 10)%N,
    (v / 10 mod 10)%N, (v mod 10)%N.
  set (a := (v / 10000)%N). set (b := (v / 1000 mod 10)%N).
  set (c := (v / 100 mod 10)%N). set (d := (v / 10 mod 10)%N).
  set (e := (v mod 10)%N).
  assert (Hdigits : (0 < a < 10 /\ b < 10 /\ c < 10 /\ d < 10 /\ e < 10)%N)
    by (unfold a, b, c, d, e; zify; Z.to_euclidean_division_equations; lia).
  assert (Hvalue : v = (10000 * a + 1000 * b + 100 * c + 10 * d + e)%N)
    by (unfold a, b, c, d, e; zify; Z.to_euclidean_division_equations; lia).
  split; [exact Hdigits|]. split; [unfold v in Hvalue; lia|].
  destruct Hdigits as (Ha & Hb & Hc & Hd & He).
  set (digits := digit a (digit b (digit c (digit d (digit e Decimal.Nil))))).
  assert (Hof : Pos.of_uint digits = v).
  { rewrite DecimalPos.Unsigned.of_uint_alt. unfold digits, Decimal.rev.
    rewrite !revapp_digit by lia. simpl Decimal.revapp.
    rewrite !of_lu_digit by lia. simpl DecimalPos.Unsigned.of_lu. lia. }
  assert (Hto : Pos.to_uint p = digits).
  { pose proof (DecimalPos.Unsigned.to_of digits) as H. rewrite Hof in H.
    unfold digits in H. rewrite unorm_digit in H by lia. exact H. }
  unfold Js.Number_toString, Z.to_int, Pos.to_int, NilZero.string_of_int.
  rewrite Hto. unfold digits.
  rewrite string_of_digit by lia. rewrite !string_of_digit_inner by lia.
  reflexivity.
Qed.

End Binary64Facts.

(** ** The generator of codes *)

Module GeneratorFacts.

Import Store Server Ledger Binary64 Binary64Facts LedgerFacts Samples.

(** A five-digit number is a string of exactly five ASCII digits that does
    not start with 0. *)
Lemma five_digit_number_shape (s : string) :
  five_digit_number s ->
  String.length s = 5%nat /\ Js.all_digits s = true /\ leading_zero s = false.
Proof.
  intros (n & Hn & ->).
  destruct (Number_toString_five_digits n Hn)
    as (a & b & c & d & e & (Ha & Hb & Hc & Hd & He) & _ & ->).
  split; [reflexivity|]. split.
  - cbn [Js.all_digits]. rewrite !is_digit_char by lia. reflexivity.
  - cbn [leading_zero]. apply digit_char_nonzero. exact Ha.
Qed.

Lemma spin_code_of_number (random : float) :
  Js.unit_interval random -> five_digit_number (spin_code_of random).
Proof.
  intros Hunit. destruct (floor_of_draw random Hunit) as (n & Hfloor & Hn).
  exists n. split; [exact Hn|]. unfold spin_code_of. rewrite Hfloor. reflexivity.
Qed.

(** X1. For every value [Math.random()] can return, a double of [0, 1),
    [generateSpinCode] returns the decimal notation of an integer between
    10000 and 99999: a string of exactly five ASCII digits that does not
    start with 0, which the format test of the two spin routes accepts and
    which fits the [VARCHAR(5)] column. *)
Theorem generated_code_five_digits (g : Js.Rng) :
  Js.unit_interval (Js.draws g (Js.cursor g)) ->
  let code := fst (generateSpinCode g) in
  (exists n, 10000 <= n <= 99999 /\ code = Js.Number_toString n)
  /\ String.length code = 5%nat
  /\ Js.all_digits code = true
  /\ leading_zero code = false
  /\ invalid_format (Js.str code) = Some false
  /\ (5 <? String.length code)%nat = false.
Proof.
  intros Hunit. cbv zeta. unfold generateSpinCode, Js.Math_random. cbn [fst].
  pose proof (spin_code_of_number _ Hunit) as Hnumber.
  destruct (five_digit_number_shape _ Hnumber) as (Hlen & Hdigits & Hzero).
  split; [exact Hnumber|]. split; [exact Hlen|]. split; [exact Hdigits|].
  split; [exact Hzero|]. split.
  - apply invalid_format_well_formed. eexists. split; [reflexivity|]. split; assumption.
  - rewrite Hlen. reflexivity.
Qed.

(** The statement of X1 on the draw 0.5, which gives 55000. *)
Lemma generated_code_five_digits_witness :
  fst (generateSpinCode (Js.mkRng (fun _ => 0.5%float) 0)) = "55000"
  /\ invalid_format (Js.str (fst (generateSpinCode (Js.mkRng (fun _ => 0.5%float) 0))))
     = Some false.
Proof.
  split; [reflexivity|].
  apply (generated_code_five_digits (Js.mkRng (fun _ => 0.5%float) 0)).
  split; reflexivity.
Defined.

Lemma valid_sample_rng : Js.valid_rng sample_rng.
Proof.
  intros n. destruct n as [|[|[|n]]]; split; reflexivity.
Qed.

(** *** The codes in the table *)

Lemma codes_generated_preserved (g : Js.Rng) (w : World) :
  Js.valid_rng g ->
  reachable_from (mkWorld initializeDatabase g) w ->
  Js.draws (generator w) = Js.draws g /\ codes_generated (database w).
Proof.
  intros Hvalid Hreach.
  assert (Hissue : forall now db n,
             codes_generated db ->
             codes_generated
               (fst (insert_spin_code now (spin_code_of (Js.draws g n)) db))).
  { intros now db n HP.
    destruct (insert_spin_code_cases now (spin_code_of (Js.draws g n)) db)
      as [(_ & ->)|[(_ & _ & ->)|[(_ & _ & _ & ->)|(_ & _ & _ & ->)]]];
      cbn [fst]; try exact HP.
    intros c Hc. cbn [spin_codes] in Hc. apply in_app_iff in Hc.
    destruct Hc as [Hc|[<-|[]]]; [apply HP; exact Hc|].
    cbn [SpinCode.code]. apply spin_code_of_number. apply Hvalid. }
  assert (Hredeem : forall now t o db,
             codes_generated db -> In t (spin_codes db) ->
             SpinCode.status t = unused -> codes_generated (redeemed now t o db)).
  { intros now t o db HP _ _ c Hc. cbn [redeemed spin_codes] in Hc.
    apply in_map_iff in Hc. destruct Hc as (c0 & <- & Hc0).
    rewrite mark_used_code. apply HP. exact Hc0. }
  assert (Hcounter : forall db rseq,
             codes_generated db ->
             codes_generated
               (mkDatabase (spin_codes db) (spin_results db)
                  (spin_codes_id_seq db) rseq))
    by (intros db rseq HP; exact HP).
  apply (reachable_from_preserves codes_generated (Js.draws g)
           Hissue Hredeem Hcounter (mkWorld initializeDatabase g) w Hreach eq_refl).
  intros c [].
Qed.

(** X2. In every world reached from the empty tables by issue, verify and
    redeem operations, with a [Math.random] whose draws are doubles of
    [0, 1), every stored code is a string of exactly five ASCII digits
    that does not start with 0.  So on a five-digit value that starts
    with 0, [POST /spin/verify] answers not found (verification failed
    when its query is rejected), and [POST /spin/play] never succeeds and
    answers not found when the store rejects no call. *)
Theorem leading_zero_code_not_found (g : Js.Rng) (w : World) :
  Js.valid_rng g ->
  reachable_from (mkWorld initializeDatabase g) w ->
  (forall c, In c (spin_codes (database w)) ->
     String.length (SpinCode.code c) = 5%nat
     /\ Js.all_digits (SpinCode.code c) = true
     /\ leading_zero (SpinCode.code c) = false)
  /\ (forall s, well_formed (Js.str s) -> leading_zero s = true ->
        (forall faults,
            fst (fst (serve (spin_verify faults (Js.str s)) w))
            = if faults 0%nat then inr VerificationFailed else inr NotFound)
        /\ (forall now faults,
               is_success (fst (fst (serve (spin_play now faults (Js.str s)) w))) = false
               /\ ((forall n, faults n = false) ->
                   fst (fst (serve (spin_play now faults (Js.str s)) w))
                   = inr NotFound))).
Proof.
  intros Hvalid Hreach.
  destruct (codes_generated_preserved g w Hvalid Hreach) as [_ Hgen].
  assert (Hshape : forall c, In c (spin_codes (database w)) ->
             String.length (SpinCode.code c) = 5%nat
             /\ Js.all_digits (SpinCode.code c) = true
             /\ leading_zero (SpinCode.code c) = false)
    by (intros c Hc; apply five_digit_number_shape, Hgen, Hc).
  split; [exact Hshape|].
  intros s Hwf Hzero.
  assert (Hnone : codes_of (Js.text_of (Js.str s)) (database w) = []).
  { cbn [Js.text_of]. destruct (codes_of s (database w)) as [|c rest] eqn:Hrows;
      [reflexivity|].
    destruct (codes_of_head _ _ _ _ Hrows) as [Hc Hcode].
    destruct (Hshape c Hc) as (_ & _ & Hnz). rewrite Hcode in Hnz. congruence. }
  apply invalid_format_well_formed in Hwf.
  split.
  - intros faults. rewrite spin_verify_served, Hwf. cbn [fst]. rewrite Hnone.
    reflexivity.
  - intros now faults.
    pose proof (spin_play_served now faults (Js.str s) w) as Hserved.
    rewrite Hwf, Hnone in Hserved.
    destruct (serve (spin_play now faults (Js.str s)) w) as [[r w'] l] eqn:Hs.
    cbn [fst] in *.
    split; [|exact Hserved].
    destruct (spin_play_cases _ _ _ _ _ _ _ Hs) as [_ Hcases].
    destruct Hcases as [(t & rest & o & _ & Hrows & _)|(Hfail & _)];
      [congruence|exact Hfail].
Qed.

(** The statement of X2 on the three codes issued and the value 01234. *)
Lemma leading_zero_code_not_found_witness :
  fst (fst (serve (spin_verify no_faults (Js.str "01234")) issued_world))
  = inr NotFound.
Proof.
  destruct (leading_zero_code_not_found sample_rng issued_world valid_sample_rng)
    as [_ Hzero].
  - apply reach_step. apply reach_start.
  - destruct (Hzero "01234") as [Hverify _].
    + exists "01234". repeat split.
    + reflexivity.
    + exact (Hverify no_faults).
Defined.


(** *** The slots of a request *)







(** *** Issuing codes *)

Lemma is_unique_violation_codes :
  is_unique_violation unique_violation = true
  /\ is_unique_violation string_data_right_truncation = false
  /\ is_unique_violation sequence_generator_limit_exceeded = false.
Proof. repeat split. Qed.




(** *** The rows a request adds *)




Lemma candidates_length (g : Js.Rng) (n : nat) : List.length (candidates g n) = n.
Proof. unfold candidates. rewrite length_map, length_seq. reflexivity. Qed.







(** *** What issuing does to the tables *)

Lemma generate_loop_appends times faults fuel :
  forall count i codes s r s',
    txn s = None ->
    generate_loop times faults fuel count i codes s = (r, s') ->
    (List.length (log s) <= List.length (log s'))%nat
    /\ exists news,
      spin_codes (store s') = spin_codes (store s) ++ news
      /\ spin_results (store s') = spin_results (store s)
      /\ spin_results_id_seq (store s') = spin_results_id_seq (store s)
      /\ spin_codes_id_seq (store s) <= spin_codes_id_seq (store s')
      /\ Forall (issued_row times (spin_codes_id_seq (store s))
                   (List.length (log s)) (List.length (log s'))) news
      /\ (forall out, r = inr (Some out) -> out = codes ++ news).
Proof.
  destruct is_unique_violation_codes as (Hunique & Hlong & Hended).
  assert (Hlater : forall seq seq' first first' last row,
             seq <= seq' -> (first <= first')%nat ->
             issued_row times seq' first' last row -> issued_row times seq first last row).
  { intros seq seq' first first' last row Hseq Hfirst (H1 & H2 & (p & Hp & H3) & H4).
    split; [exact H1|]. split; [exact H2|]. split; [exists p; split; [lia|exact H3]|lia]. }
  induction fuel as [|fuel IH]; intros count i codes s r s' Htxn Hrun.
  - cbn in Hrun. unfold ret in Hrun. injection Hrun as <- <-. split; [lia|].
    exists []. rewrite app_nil_r. repeat split; try lia; [constructor|discriminate].
  - destruct (Js.of_integer i <? Js.Math_min count 100)%float eqn:Hlt.
    + rewrite generate_loop_step in Hrun by assumption.
      destruct (faults (List.length (log s))).
      { injection Hrun as <- <-. cbn [store log]. rewrite length_app. split; [lia|].
        exists []. rewrite app_nil_r. repeat split; try lia; [constructor|discriminate]. }
      destruct (insert_spin_code_cases (times (List.length (log s)))
                  (spin_code_of (Js.draws (rng s) (Js.cursor (rng s)))) (store s))
        as [(_ & Hins)|[(_ & _ & Hins)|[(_ & Hroom & _ & Hins)|(_ & Hroom & _ & Hins)]]];
        rewrite Hins in Hrun; rewrite ?Hunique, ?Hlong, ?Hended in Hrun.
      * injection Hrun as <- <-. cbn [store log]. rewrite length_app. split; [lia|].
        exists []. rewrite app_nil_r. repeat split; try lia; [constructor|discriminate].
      * injection Hrun as <- <-. cbn [store log]. rewrite length_app. split; [lia|].
        exists []. rewrite app_nil_r. repeat split; try lia; [constructor|discriminate].
      * apply IH in Hrun; [|reflexivity].
        cbn [store log spin_codes spin_results spin_codes_id_seq spin_results_id_seq]
          in Hrun.
        rewrite length_app in Hrun. cbn [List.length] in Hrun.
        destruct Hrun as (Hlog & news & Hcodes & Hresults & Hrseq & Hseq & Hrows & Hout).
        split; [lia|].
        exists news. repeat split; try assumption; try lia.
        eapply Forall_impl; [|exact Hrows].
        intros row. apply Hlater; lia.
      * apply IH in Hrun; [|reflexivity].
        cbn [store log spin_codes spin_results spin_codes_id_seq spin_results_id_seq]
          in Hrun.
        rewrite length_app in Hrun. cbn [List.length] in Hrun.
        destruct Hrun as (Hlog & news & Hcodes & Hresults & Hrseq & Hseq & Hrows & Hout).
        split; [lia|].
        eexists (_ :: news). rewrite <- app_assoc in Hcodes. cbn [app] in Hcodes.
        split; [exact Hcodes|]. split; [exact Hresults|]. split; [exact Hrseq|].
        split; [lia|]. split.
        -- constructor.
           ++ split; [reflexivity|]. split; [reflexivity|]. split.
              ** exists (List.length (log s)). split; [lia|reflexivity].
              ** cbn [SpinCode.id]. lia.
           ++ eapply Forall_impl; [|exact Hrows].
              intros row. apply Hlater; lia.
        -- intros out Hr. rewrite (Hout out Hr), <- app_assoc. reflexivity.
    + rewrite generate_loop_exit in Hrun by exact Hlt. injection Hrun as <- <-.
      split; [lia|].
      exists []. rewrite !app_nil_r. repeat split; try lia; [constructor|].
      intros out [= <-]. reflexivity.
Qed.

(** C10. With a [Math.random] whose draws are doubles of [0, 1),
    [generateSpinCode] returns the decimal notation of an integer from
    10000 to 99999, and so is every code that [POST /admin/generate]
    answers with and every code stored in a world reached from the empty
    tables: none starts with the digit 0.  So no row is stored for a
    five-digit value that starts with 0, such as 01234: on it
    [POST /spin/verify] answers not found, unless its query is rejected
    by the store, and [POST /spin/play] never succeeds and answers not
    found when the store rejects no call. *)
Theorem issued_codes_from_10000_to_99999 (g : Js.Rng) (w : World) :
  Js.valid_rng g ->
  reachable_from (mkWorld initializeDatabase g) w ->
  (exists n, 10000 <= n <= 99999
             /\ fst (generateSpinCode (generator w)) = Js.Number_toString n)
  /\ (forall c, In c (spin_codes (database w)) ->
        (exists n, 10000 <= n <= 99999 /\ SpinCode.code c = Js.Number_toString n)
        /\ leading_zero (SpinCode.code c) = false)
  /\ (forall times faults fuel count codes,
        fst (fst (serve (admin_generate times faults fuel count) w))
        = inr (Some (res_json (generate_body codes))) ->
        Forall (fun row =>
                  (exists n, 10000 <= n <= 99999
                             /\ SpinCode.code row = Js.Number_toString n)
                  /\ leading_zero (SpinCode.code row) = false)
          codes)
  /\ (forall s, well_formed (Js.str s) -> leading_zero s = true ->
        codes_of s (database w) = []
        /\ (forall faults,
              fst (fst (serve (spin_verify faults (Js.str s)) w)) = inr NotFound
              \/ (faults 0%nat = true
                  /\ fst (fst (serve (spin_verify faults (Js.str s)) w))
                     = inr VerificationFailed))
        /\ (forall now faults,
              is_success (fst (fst (serve (spin_play now faults (Js.str s)) w))) = false
              /\ ((forall n, faults n = false) ->
                  fst (fst (serve (spin_play now faults (Js.str s)) w))
                  = inr NotFound)))
  /\ well_formed (Js.str "01234") /\ leading_zero "01234" = true.
Proof.
  intros Hvalid Hreach.
  destruct (codes_generated_preserved g w Hvalid Hreach) as [Hdraws Hgen].
  assert (Hshape : forall code, five_digit_number code -> leading_zero code = false)
    by (intros code Hcode; apply (five_digit_number_shape code Hcode)).
  split; [|split; [|split; [|split]]].
  - unfold generateSpinCode, Js.Math_random. cbn [fst].
    apply spin_code_of_number. rewrite Hdraws. apply Hvalid.
  - intros c Hc. split; [apply Hgen, Hc|apply Hshape, Hgen, Hc].
  - intros times faults fuel count codes Hanswer.
    assert (Hreach' : reachable_from (mkWorld initializeDatabase g)
                        (after (issue times faults fuel count) w))
      by (apply reach_step; exact Hreach).
    destruct (codes_generated_preserved g _ Hvalid Hreach') as [_ Hgen'].
    cbn [after] in Hgen'. rewrite admin_generate_served in Hanswer, Hgen'.
    destruct (generate_loop times faults fuel _ 0 [] _) as [r s'] eqn:Hloop.
    apply generate_loop_appends in Hloop; [|reflexivity].
    cbn [store log fst snd database List.length] in *.
    destruct Hloop as (_ & news & Hcodes & _ & _ & _ & _ & Hout).
    destruct r as [e|[out|]]; try discriminate. injection Hanswer as ->.
    rewrite (Hout codes eq_refl) in *. cbn [app] in *.
    apply Forall_forall. intros row Hrow.
    assert (Hin : In row (spin_codes (store s')))
      by (rewrite Hcodes; apply in_or_app; right; exact Hrow).
    split; [apply Hgen', Hin|apply Hshape, Hgen', Hin].
  - intros s Hwf Hzero.
    assert (Hnone : codes_of s (database w) = []).
    { destruct (codes_of s (database w)) as [|c rest] eqn:Hrows; [reflexivity|].
      destruct (codes_of_head _ _ _ _ Hrows) as [Hc Hcode].
      pose proof (Hshape _ (Hgen c Hc)) as Hnz. rewrite Hcode in Hnz. congruence. }
    apply invalid_format_well_formed in Hwf.
    split; [exact Hnone|]. split.
    + intros faults. rewrite spin_verify_served, Hwf. cbn [fst Js.text_of].
      rewrite Hnone. destruct (faults 0%nat); [right; split; reflexivity|left; reflexivity].
    + intros now faults.
      pose proof (spin_play_served now faults (Js.str s) w) as Hserved.
      cbn [Js.text_of] in Hserved. rewrite Hwf, Hnone in Hserved.
      destruct (serve (spin_play now faults (Js.str s)) w) as [[r w'] l] eqn:Hs.
      cbn [fst] in *.
      split; [|exact Hserved].
      destruct (spin_play_cases _ _ _ _ _ _ _ Hs) as [_ Hcases].
      destruct Hcases as [(t & rest & o & _ & Hrows & _)|(Hfail & _)];
        [cbn [Js.text_of] in Hrows; congruence|exact Hfail].
  - split; [|reflexivity]. exists "01234". repeat split.
Qed.

(** The statement of C10 on the three codes issued and the value 01234. *)
Lemma issued_codes_from_10000_to_99999_witness :
  map SpinCode.code (spin_codes (database issued_world)) = ["10000"; "55000"; "99999"]
  /\ codes_of "01234" (database issued_world) = []
  /\ fst (fst (serve (spin_play 200 no_faults (Js.str "01234")) issued_world))
     = inr NotFound.
Proof.
  split; [vm_compute; reflexivity|].
  destruct (issued_codes_from_10000_to_99999 sample_rng issued_world valid_sample_rng)
    as (_ & _ & _ & Hzero & Hwf & Hlead).
  - apply reach_step. apply reach_start.
  - destruct (Hzero "01234" Hwf Hlead) as (Hnone & _ & Hplay).
    split; [exact Hnone|].
    destruct (Hplay 200 no_faults) as [_ Hfound]. apply Hfound. reflexivity.
Defined.

(** X3. Whatever the request, the times of its statements, the storage
    faults and the bound on the iterations, [POST /admin/generate] only
    appends rows to [spin_codes], each unused, without time of use, with a
    new key of the sequence, and created at the time of a statement of the
    request, and it leaves [spin_results] as it is; when it answers with a
    list of codes, the list holds exactly the rows appended.  The rows of
    one request are created at the times of their own INSERTs, which are
    transactions of their own, and the request is not atomic: when the
    third INSERT is rejected, the two codes inserted before stay in the
    table, with two times of creation, although the answer is a
    failure. *)
Theorem issue_only_appends_unused_codes :
  (forall (times : nat -> Timestamp) (faults : nat -> bool) (fuel : nat)
          (count : option float) (w : World),
      exists news,
        spin_codes (database (after (issue times faults fuel count) w))
        = spin_codes (database w) ++ news
        /\ spin_results (database (after (issue times faults fuel count) w))
           = spin_results (database w)
        /\ Forall (issued_row times (spin_codes_id_seq (database w)) 0
                     (List.length
                        (snd (serve (admin_generate times faults fuel count) w))))
             news
        /\ forall codes,
            fst (fst (serve (admin_generate times faults fuel count) w))
            = inr (Some (res_json (generate_body codes))) ->
            codes = news)
  /\ fst (fst (serve (admin_generate ticking (fault_at 2) 10 (Some 3%float)) empty_world))
     = inr (Some GenerationFailed)
  /\ spin_codes (database (after (issue ticking (fault_at 2) 10 (Some 3%float))
                             empty_world))
     = [ SpinCode.mk 1 "10000" unused 100 None;
         SpinCode.mk 2 "55000" unused 101 None ].
Proof.
  split; [|split; reflexivity].
  intros times faults fuel count w. cbn [after].
  rewrite admin_generate_served.
  destruct (generate_loop times faults fuel _ 0 [] _) as [r s] eqn:Hloop.
  apply generate_loop_appends in Hloop; [|reflexivity].
  cbn [store log List.length] in Hloop.
  destruct Hloop as (_ & news & Hcodes & Hresults & _ & _ & Hrows & Hout).
  exists news. cbn [fst snd database].
  split; [exact Hcodes|]. split; [exact Hresults|]. split; [exact Hrows|].
  intros codes Hr. destruct r as [e|[out|]]; try discriminate.
  injection Hr as <-. apply (Hout out eq_refl).
Qed.





(** *** Redeeming an issued code *)

Lemma select_spin_outcomes (random : float) :
  exists o, Selector.select Selector.SPIN_OUTCOMES random = Some o
            /\ In o Selector.SPIN_OUTCOMES.
Proof.
  destruct (SelectorFacts.select_from_table Selector.SPIN_OUTCOMES random)
    as (o & Hsel & Hin & _); [discriminate|].
  exists o. split; assumption.
Qed.

(** X5. In a world reached from the empty tables with draws of [0, 1),
    every stored code that is unused can be redeemed once: when the store
    rejects no call, [POST /spin/verify] answers that it is valid, and
    [POST /spin/play] answers with the tier [selectWeightedOutcome] draws,
    marks that row alone used at the time of the request and records one
    result for it, with the key the response reports. *)
Theorem unused_code_redeems (g : Js.Rng) (w : World) (c : SpinCode.t)
  (now : Timestamp) (faults : nat -> bool) :
  Js.valid_rng g ->
  reachable_from (mkWorld initializeDatabase g) w ->
  In c (spin_codes (database w)) ->
  SpinCode.status c = unused ->
  (forall n, faults n = false) ->
  fst (fst (serve (spin_verify faults (Js.str (SpinCode.code c))) w))
  = inr (res_json (verify_body (SpinCode.code c)))
  /\ exists o,
      Selector.select Selector.SPIN_OUTCOMES
        (Js.draws (generator w) (Js.cursor (generator w))) = Some o
      /\ In o Selector.SPIN_OUTCOMES
      /\ fst (fst (serve (spin_play now faults (Js.str (SpinCode.code c))) w))
         = inr (res_json (play_body (Selector.prize o) (Selector.cents o)
                            (Selector.weight o)
                            (spin_results_id_seq (database w)) now))
      /\ database (after (redeem now faults (Js.str (SpinCode.code c))) w)
         = redeemed now c o (database w).
Proof.
  intros Hvalid Hreach Hc Hunused Hnone.
  assert (Hcons : consistent (database w))
    by (apply reachable_consistent; exists g; exact Hreach).
  destruct (codes_generated_preserved g w Hvalid Hreach) as [_ Hgen].
  destruct (five_digit_number_shape _ (Hgen c Hc)) as (Hlen & Hdigits & _).
  assert (Hwf : invalid_format (Js.str (SpinCode.code c)) = Some false).
  { apply invalid_format_well_formed. eexists. split; [reflexivity|]. split; assumption. }
  pose proof (codes_of_unique (database w) c (codes_unique _ Hcons) Hc) as Hrows.
  split.
  - rewrite spin_verify_served, Hwf. cbn [fst Js.text_of]. rewrite Hnone, Hrows, Hunused.
    reflexivity.
  - destruct (select_spin_outcomes (Js.draws (generator w) (Js.cursor (generator w))))
      as (o & Hsel & Hin).
    exists o. split; [exact Hsel|]. split; [exact Hin|].
    pose proof (spin_play_served now faults (Js.str (SpinCode.code c)) w Hnone)
      as Hserved.
    cbn [Js.text_of] in Hserved. rewrite Hwf, Hrows, Hunused, Hsel in Hserved.
    cbn [is_used] in Hserved.
    split; [exact Hserved|]. cbn [after].
    destruct (serve (spin_play now faults (Js.str (SpinCode.code c))) w)
      as [[r w'] l] eqn:Hs.
    cbn [fst snd] in *.
    destruct (spin_play_cases _ _ _ _ _ _ _ Hs) as [_ Hcases].
    destruct Hcases as [(t & rest & o' & _ & Hrows' & _ & Hsel' & _ & Hdb)
                       |(Hfail & _)].
    + cbn [Js.text_of] in Hrows'. rewrite Hrows in Hrows'. injection Hrows' as <- <-.
      rewrite Hsel in Hsel'. injection Hsel' as <-. exact Hdb.
    + rewrite Hserved in Hfail. discriminate.
Qed.

(** The statement of X5 on the code 55000 of the three issued. *)
Lemma unused_code_redeems_witness :
  fst (fst (serve (spin_verify no_faults (Js.str "55000")) issued_world))
  = inr (res_json (verify_body "55000")).
Proof.
  apply (unused_code_redeems sample_rng issued_world
           (SpinCode.mk 2 "55000" unused 100 None) 200 no_faults).
  - exact valid_sample_rng.
  - apply reach_step. apply reach_start.
  - right. left. reflexivity.
  - reflexivity.
  - reflexivity.
Defined.

(** *** The results recorded *)

(** Redemption, with the tier it records taken from the table, and issuing
    preserve a property of the tables that does not depend on the
    counters. *)
Lemma reachable_from_preserves_drawn (P : Database -> Prop) (draws0 : nat -> float) :
  (forall now db n,
      P db -> P (fst (insert_spin_code now (spin_code_of (draws0 n)) db))) ->
  (forall now t o db,
      P db -> In t (spin_codes db) -> SpinCode.status t = unused ->
      In o Selector.SPIN_OUTCOMES -> P (redeemed now t o db)) ->
  (forall db rseq,
      P db ->
      P (mkDatabase (spin_codes db) (spin_results db) (spin_codes_id_seq db) rseq)) ->
  forall w0 w,
    reachable_from w0 w ->
    Js.draws (generator w0) = draws0 -> P (database w0) ->
    Js.draws (generator w) = draws0 /\ P (database w).
Proof.
  intros Hissue Hredeem Hcounter w0 w Hreach. induction Hreach as [|w op Hreach IH];
    intros Hdraws HP; [auto|].
  destruct (IH Hdraws HP) as [Hd HPw].
  destruct op as [times faults fuel count|faults code|now faults code]; cbn [after].
  - destruct (serve (admin_generate times faults fuel count) w) as [[r w'] l] eqn:Hs.
    cbn [fst snd].
    exact (admin_generate_preserves P draws0 Hissue times faults fuel count w r w' l
             Hs Hd HPw).
  - rewrite spin_verify_served. destruct (invalid_format code) as [[|]|]; cbn [fst snd]; auto.
  - destruct (serve (spin_play now faults code) w) as [[r w'] l] eqn:Hs.
    cbn [fst snd].
    destruct (spin_play_cases _ _ _ _ _ _ _ Hs) as [Hd' Hcases].
    split; [congruence|].
    destruct Hcases as [(t & rest & o & _ & Hcodes & Hunused & Hsel & _ & ->)
                       |(_ & rseq & _ & ->)].
    + apply Hredeem; auto.
      * apply (codes_of_head _ _ _ _ Hcodes).
      * destruct (select_spin_outcomes
                    (Js.draws (generator w) (Js.cursor (generator w))))
          as (o' & Hsel' & Hin).
        rewrite Hsel in Hsel'. injection Hsel' as <-. exact Hin.
    + apply Hcounter. exact HPw.
Qed.

Lemma tier_cents_bounds (o : Selector.Outcome) :
  In o Selector.SPIN_OUTCOMES -> 0 <= Selector.cents o <= 10000.
Proof.
  intros Hin. unfold Selector.SPIN_OUTCOMES, Selector.ServerJs.SPIN_OUTCOMES in Hin.
  cbn [In] in Hin.
  repeat (destruct Hin as [<-|Hin]; [cbn [Selector.cents]; lia|]).
  contradiction.
Qed.

Lemma total_prize_cents_bound (db : Database) :
  (forall r, In r (spin_results db) -> 0 <= SpinResult.prize_cents r <= 10000) ->
  0 <= total_prize_cents db <= 10000 * Z.of_nat (List.length (spin_results db)).
Proof.
  unfold total_prize_cents. induction (spin_results db) as [|r l IH]; intros H.
  - cbn. lia.
  - cbn [fold_right List.length]. rewrite Nat2Z.inj_succ.
    pose proof (H r (or_introl eq_refl)).
    assert (0 <= fold_right (fun r acc => SpinResult.prize_cents r + acc) 0 l
            <= 10000 * Z.of_nat (List.length l))
      by (apply IH; intros r' Hr'; apply H; right; exact Hr').
    lia.
Qed.

(** X6. In every world reached from the empty tables by issue, verify and
    redeem operations, under any storage faults, each row of
    [spin_results] records a tier of [SPIN_OUTCOMES], with its label, its
    payout and its weight, so a prize between 0 and 10000 cents; and the
    prizes recorded sum to at most 10000 cents for each result. *)
Theorem results_record_tiers (w : World) :
  reachable w ->
  (forall r, In r (spin_results (database w)) ->
     records_tier r /\ 0 <= SpinResult.prize_cents r <= 10000)
  /\ 0 <= total_prize_cents (database w)
     <= 10000 * Z.of_nat (List.length (spin_results (database w))).
Proof.
  intros [g Hreach].
  assert (Htiers : forall r, In r (spin_results (database w)) -> records_tier r).
  { apply (reachable_from_preserves_drawn
             (fun db => forall r, In r (spin_results db) -> records_tier r)
             (Js.draws g)) with (w0 := mkWorld initializeDatabase g) (w := w).
    - intros now db n HP.
      destruct (insert_spin_code_cases now (spin_code_of (Js.draws g n)) db)
        as [(_ & ->)|[(_ & _ & ->)|[(_ & _ & _ & ->)|(_ & _ & _ & ->)]]]; exact HP.
    - intros now t o db HP _ _ Hin r Hr. cbn [redeemed spin_results] in Hr.
      apply in_app_iff in Hr. destruct Hr as [Hr|[<-|[]]]; [apply HP; exact Hr|].
      exists o. repeat split. exact Hin.
    - intros db rseq HP. exact HP.
    - exact Hreach.
    - reflexivity.
    - intros r []. }
  assert (Hbounds : forall r, In r (spin_results (database w)) ->
                              0 <= SpinResult.prize_cents r <= 10000).
  { intros r Hr. destruct (Htiers r Hr) as (o & Hin & _ & -> & _).
    apply tier_cents_bounds. exact Hin. }
  split.
  - intros r Hr. split; [apply Htiers|apply Hbounds]; exact Hr.
  - apply total_prize_cents_bound. exact Hbounds.
Qed.

(** The statement of X6 on the world in which 10000 has been redeemed. *)
Lemma results_record_tiers_witness :
  0 <= total_prize_cents (database played_world)
  <= 10000 * Z.of_nat (List.length (spin_results (database played_world))).
Proof.
  apply (results_record_tiers played_world). exact reachable_played_world.
Defined.


(** *** The draw of a tier *)

Lemma unit_interval_below_one (random : float) :
  Js.unit_interval random -> (random <=? SelectorFacts.below_one)%float = true.
Proof.
  intros Hunit. rewrite leb_spec.
  change (Prim2SF SelectorFacts.below_one)
    with (S754_finite false 9007199254740991 (-53)).
  destruct (unit_interval_cases random Hunit)
    as [[s ->]|(m & e & -> & Hm & He)].
  - reflexivity.
  - unfold SFleb, SFcompare.
    destruct (Z.compare_spec e (-53)) as [Heq|Hlt|Hgt]; [|reflexivity|lia].
    rewrite Pos.compare_cont_spec.
    destruct (Pos.compare_spec m 9007199254740991) as [Hc|Hc|Hc];
      [reflexivity|reflexivity|].
    exfalso. apply Pos2Z.pos_lt_pos in Hc.
    change (2 ^ 53) with 9007199254740992 in Hm.
    clear - Hc Hm. lia.
Qed.

(** X7. For every draw of [0, 1), the loop of [selectWeightedOutcome]
    returns from inside on the table [SPIN_OUTCOMES]: the tier it returns
    is the first whose cumulative weight the draw does not exceed, and the
    return after the loop, of the last tier, is not reached.  It is reached
    for the value 1, which [Math.random()] does not return. *)
Theorem draw_returns_inside_loop (random : float) :
  Js.unit_interval random ->
  (exists i o,
      Selector.walk Selector.SPIN_OUTCOMES random 0%float = Some o
      /\ Selector.select Selector.SPIN_OUTCOMES random = Some o
      /\ nth_error Selector.SPIN_OUTCOMES i = Some o
      /\ SelectorFacts.reaches Selector.SPIN_OUTCOMES random i = true
      /\ forall j, (j < i)%nat ->
                   SelectorFacts.reaches Selector.SPIN_OUTCOMES random j = false)
  /\ Selector.walk Selector.SPIN_OUTCOMES 1%float 0%float = None
  /\ Selector.select Selector.SPIN_OUTCOMES 1%float
     = Selector.last_outcome Selector.SPIN_OUTCOMES.
Proof.
  intros Hunit. split; [|split; reflexivity].
  destruct (Selector.walk Selector.SPIN_OUTCOMES random 0%float) as [o|] eqn:Hwalk.
  - destruct (SelectorFacts.walk_some Selector.SPIN_OUTCOMES random
                Selector.SPIN_OUTCOMES [] o eq_refl Hwalk)
      as (i & Hnth & _ & Hreach & Hfirst).
    exists i, o. split; [reflexivity|].
    split; [unfold Selector.select; rewrite Hwalk; reflexivity|].
    split; [exact Hnth|]. split; [exact Hreach|].
    intros j Hj. apply Hfirst. cbn [List.length]. lia.
  - exfalso.
    pose proof (SelectorFacts.walk_none Selector.SPIN_OUTCOMES random
                  Selector.SPIN_OUTCOMES [] eq_refl Hwalk 6%nat) as Hlast.
    unfold SelectorFacts.reaches in Hlast.
    change (Selector.cumulative Selector.SPIN_OUTCOMES 6)
      with SelectorFacts.below_one in Hlast.
    rewrite (unit_interval_below_one random Hunit) in Hlast.
    discriminate Hlast. cbn. lia.
Qed.

(** The statement of X7 at the draw 0.5, which the fourth tier reaches. *)
Lemma draw_returns_inside_loop_witness :
  exists i o,
    Selector.walk Selector.SPIN_OUTCOMES 0.5%float 0%float = Some o
    /\ Selector.select Selector.SPIN_OUTCOMES 0.5%float = Some o
    /\ nth_error Selector.SPIN_OUTCOMES i = Some o
    /\ SelectorFacts.reaches Selector.SPIN_OUTCOMES 0.5%float i = true
    /\ forall j, (j < i)%nat ->
                 SelectorFacts.reaches Selector.SPIN_OUTCOMES 0.5%float j = false.
Proof.
  apply (draw_returns_inside_loop 0.5%float). split; reflexivity.
Defined.

End GeneratorFacts.

(** ** The admin sessions *)

Module AdminFacts.

Import Admin AdminSamples.

(** *** The map of sessions *)

Lemma Map_get_set_same (key : string) (value : Session) (m : SessionMap) :
  Map_get key (Map_set key value m) = Some value.
Proof.
  induction m as [|[k v] m IH]; cbn [Map_set Map_get].
  - rewrite String.eqb_refl. reflexivity.
  - destruct (String.eqb k key) eqn:Hk; cbn [Map_get]; rewrite Hk; auto.
Qed.

Lemma Map_get_set_other (key key' : string) (value : Session) (m : SessionMap) :
  key' <> key -> Map_get key' (Map_set key value m) = Map_get key' m.
Proof.
  intros Hne. induction m as [|[k v] m IH]; cbn [Map_set Map_get].
  - destruct (String.eqb_spec key key'); [congruence|reflexivity].
  - destruct (String.eqb_spec k key) as [->|Hk]; cbn [Map_get].
    + destruct (String.eqb_spec key key'); [congruence|reflexivity].
    + rewrite IH. reflexivity.
Qed.

Lemma Map_get_delete_same (key : string) (m : SessionMap) :
  Map_get key (Map_delete key m) = None.
Proof.
  induction m as [|[k v] m IH]; [reflexivity|].
  cbn [Map_delete filter fst]. fold (Map_delete key m).
  destruct (String.eqb k key) eqn:Hk; cbn [negb Map_get]; [exact IH|].
  rewrite Hk. exact IH.
Qed.

Lemma Map_get_delete_other (key key' : string) (m : SessionMap) :
  key' <> key -> Map_get key' (Map_delete key m) = Map_get key' m.
Proof.
  intros Hne. induction m as [|[k v] m IH]; [reflexivity|].
  cbn [Map_delete filter fst]. fold (Map_delete key m).
  destruct (String.eqb_spec k key) as [->|Hk]; cbn [negb Map_get].
  - destruct (String.eqb_spec key key'); [congruence|exact IH].
  - rewrite IH. reflexivity.
Qed.

(** *** The tokens *)

Lemma hex_digit_is_hex (n : N) : (n < 16)%N -> is_hex (hex_digit n) = true.
Proof.
  intros Hn.
  assert (H : forall k, (k < 16)%nat -> is_hex (hex_digit (N.of_nat k)) = true).
  { intros k Hk. do 16 (destruct k as [|k]; [reflexivity|]). lia. }
  rewrite <- (Nnat.N2Nat.id n). apply H. lia.
Qed.

Lemma hex_value_digit (n : N) : (n < 16)%N -> hex_value (hex_digit n) = n.
Proof.
  intros Hn.
  assert (H : forall k, (k < 16)%nat ->
                        hex_value (hex_digit (N.of_nat k)) = N.of_nat k).
  { intros k Hk. do 16 (destruct k as [|k]; [reflexivity|]). lia. }
  rewrite <- (Nnat.N2Nat.id n). apply H. lia.
Qed.

Lemma octet_of_digits (a b : Byte.byte) :
  hex_digit (Byte.to_N a / 16) = hex_digit (Byte.to_N b / 16) ->
  hex_digit (Byte.to_N a mod 16) = hex_digit (Byte.to_N b mod 16) ->
  a = b.
Proof.
  intros Hhigh Hlow.
  pose proof (Byte.to_N_bounded a) as Ha. pose proof (Byte.to_N_bounded b) as Hb.
  apply (f_equal hex_value) in Hhigh, Hlow.
  rewrite !hex_value_digit in Hhigh, Hlow
    by (zify; Z.to_euclidean_division_equations; lia).
  assert (Heq : Byte.to_N a = Byte.to_N b)
    by (zify; Z.to_euclidean_division_equations; lia).
  pose proof (Byte.of_to_N a) as Hoa. pose proof (Byte.of_to_N b) as Hob.
  rewrite Heq in Hoa. congruence.
Qed.

Lemma Buffer_toString_hex_injective (b1 b2 : list Byte.byte) :
  Buffer_toString_hex b1 = Buffer_toString_hex b2 -> b1 = b2.
Proof.
  revert b2. induction b1 as [|a b1 IH]; intros [|b b2] Heq;
    cbn [Buffer_toString_hex] in Heq; try discriminate; [reflexivity|].
  injection Heq as Hhigh Hlow Hrest.
  f_equal; [|apply IH; exact Hrest].
  apply octet_of_digits.
  - exact Hhigh.
  - exact Hlow.
Qed.


Lemma Buffer_toString_hex_length (buffer : list Byte.byte) :
  String.length (Buffer_toString_hex buffer) = (2 * List.length buffer)%nat.
Proof.
  induction buffer as [|octet rest IH]; [reflexivity|].
  cbn [Buffer_toString_hex String.length List.length]. rewrite IH. lia.
Qed.

Lemma Buffer_toString_hex_all_hex (buffer : list Byte.byte) :
  all_hex (Buffer_toString_hex buffer) = true.
Proof.
  induction buffer as [|octet rest IH]; [reflexivity|].
  cbn [Buffer_toString_hex all_hex].
  pose proof (Byte.to_N_bounded octet) as Hb.
  rewrite !hex_digit_is_hex, IH by (zify; Z.to_euclidean_division_equations; lia).
  reflexivity.
Qed.

Lemma generateSessionToken_token (e : Entropy) :
  session_token (fst (generateSessionToken e)).
Proof.
  unfold generateSessionToken, crypto_randomBytes. cbn [fst]. split.
  - rewrite Buffer_toString_hex_length, length_map, length_seq. reflexivity.
  - apply Buffer_toString_hex_all_hex.
Qed.

Lemma prefix_empty (s : string) : String.prefix EmptyString s = true.
Proof. destruct s; reflexivity. Qed.

Lemma drop_append (a b : string) : drop (String.length a) (a ++ b)%string = b.
Proof. induction a as [|c a IH]; [destruct b; reflexivity|exact IH]. Qed.

Lemma prefix_append (a b : string) : String.prefix a (a ++ b)%string = true.
Proof.
  induction a as [|c a IH]; [apply prefix_empty|].
  cbn [String.append String.prefix]. destruct (ascii_dec c c); [exact IH|congruence].
Qed.

Lemma String_replace_empty_eq (pattern s : string) :
  String_replace_empty pattern s
  = if String.prefix pattern s then drop (String.length pattern) s
    else match s with
         | EmptyString => EmptyString
         | String c s' => String c (String_replace_empty pattern s')
         end.
Proof. destruct s; reflexivity. Qed.

(** A digit of [0-9a-f] does not start [Bearer ]. *)
Lemma prefix_Bearer_hex (c : ascii) (s : string) :
  is_hex c = true -> String.prefix "Bearer " (String c s) = false.
Proof.
  intros Hc. cbn [String.prefix].
  destruct (ascii_dec "B" c) as [<-|]; [discriminate Hc|reflexivity].
Qed.

(** [replace('Bearer ', '')] removes the [Bearer ] that follows digits of
    [0-9a-f]. *)
Lemma replace_after_hex (a b : string) :
  all_hex a = true ->
  String_replace_empty "Bearer " (a ++ "Bearer " ++ b)%string = (a ++ b)%string.
Proof.
  induction a as [|c a IH]; intros Hhex.
  - change (EmptyString ++ "Bearer " ++ b)%string with ("Bearer " ++ b)%string.
    rewrite String_replace_empty_eq, prefix_append, drop_append. reflexivity.
  - cbn [all_hex] in Hhex. apply andb_true_iff in Hhex. destruct Hhex as [Hc Ha].
    change (String c a ++ "Bearer " ++ b)%string
      with (String c (a ++ "Bearer " ++ b))%string.
    rewrite String_replace_empty_eq.
    rewrite prefix_Bearer_hex by exact Hc. rewrite IH by exact Ha. reflexivity.
Qed.

(** It leaves a string of digits of [0-9a-f] as it is. *)
Lemma replace_hex (t : string) :
  all_hex t = true -> String_replace_empty "Bearer " t = t.
Proof.
  induction t as [|c t IH]; intros Hhex; [reflexivity|].
  cbn [all_hex] in Hhex. apply andb_true_iff in Hhex. destruct Hhex as [Hc Ht].
  rewrite String_replace_empty_eq.
  rewrite prefix_Bearer_hex by exact Hc. rewrite IH by exact Ht. reflexivity.
Qed.

Lemma all_hex_append (a b : string) :
  all_hex (a ++ b)%string = all_hex a && all_hex b.
Proof.
  induction a as [|c a IH]; [reflexivity|].
  cbn [String.append all_hex]. rewrite IH, andb_assoc. reflexivity.
Qed.

Lemma session_token_some (token : string) :
  session_token token -> no_token (Some token) = false.
Proof. intros [Hlen _]. cbn [no_token]. rewrite Hlen. reflexivity. Qed.

(** X8. [generateSessionToken] returns 64 digits of [0-9a-f], two for each
    of the 32 octets it takes from [crypto.randomBytes]: a string that is
    not empty, that [requireAuth] reads back from the header made of
    [Bearer ] and the token, and that determines the octets, so that two
    calls return the same token only when they are given the same
    octets. *)
Theorem session_token_64_hex_digits (e : Entropy) :
  let token := fst (generateSessionToken e) in
  String.length token = 64%nat
  /\ all_hex token = true
  /\ no_token (Some token) = false
  /\ bearer_token (Some ("Bearer " ++ token)%string) = Some token
  /\ (forall e', fst (generateSessionToken e') = token <->
                 fst (crypto_randomBytes 32 e') = fst (crypto_randomBytes 32 e))
  /\ snd (generateSessionToken e) = mkEntropy (octets e) (taken e + 32)%nat.
Proof.
  cbv zeta. destruct (generateSessionToken_token e) as [Hlen Hhex].
  split; [exact Hlen|]. split; [exact Hhex|].
  split; [apply session_token_some; split; assumption|].
  split; [|split; [|reflexivity]].
  - cbn [bearer_token].
    rewrite String_replace_empty_eq, prefix_append, drop_append. reflexivity.
  - intros e'. unfold generateSessionToken.
    destruct (crypto_randomBytes 32 e') as [b' e1'].
    destruct (crypto_randomBytes 32 e) as [b e1]. cbn [fst]. split.
    + apply Buffer_toString_hex_injective.
    + intros ->. reflexivity.
Qed.

(** *** Logging in *)

Lemma differs_false (v : Js.Value) (s : string) :
  differs v s = false <-> v = Js.str s.
Proof.
  destruct v as [| |b|n|t|elements|properties]; cbn [differs];
    try (split; [discriminate|discriminate]).
  destruct (String.eqb_spec t s) as [->|Hne]; cbn [negb]; split; congruence.
Qed.

Lemma falsy_str (s : string) : Js.falsy (Js.str s) = false <-> s <> "".
Proof.
  cbn [Js.falsy]. destruct s; cbn [String.length Nat.eqb]; split;
    congruence.
Qed.

(** X9. [POST /admin/login] opens a session exactly when the body holds,
    as strings, the username and the password of the environment and
    neither is the empty string; in particular nobody logs in when
    [ADMIN_PASSWORD] is set to the empty string.  A login that fails takes
    no octet, reads no clock and leaves the sessions as they are; it
    answers 400 when a field is missing or falsy and 401 otherwise. *)
Theorem login_needs_credentials (U P : option string) (username password : Js.Value)
  (p : Process) :
  let r := admin_login U P username password p in
  (status (fst r) = 200 <->
     credentials U P username password
     /\ ADMIN_USERNAME U <> "" /\ ADMIN_PASSWORD P <> "")
  /\ (status (fst r) <> 200 ->
      snd r = p
      /\ fst r = if Js.falsy username || Js.falsy password
                 then CredentialsRequired else InvalidCredentials)
  /\ (ADMIN_USERNAME U = "" \/ ADMIN_PASSWORD P = "" -> status (fst r) <> 200).
Proof.
  cbv zeta. unfold admin_login, credentials.
  destruct (Js.falsy username) eqn:Hfu; [|destruct (Js.falsy password) eqn:Hfp];
    cbn [orb fst snd status CredentialsRequired res_status].
  - split; [split; [discriminate|]|split; [auto|discriminate]].
    intros ((-> & _) & Hu & _). apply falsy_str in Hu; congruence.
  - split; [split; [discriminate|]|split; [auto|discriminate]].
    intros ((_ & ->) & _ & Hp). apply falsy_str in Hp; congruence.
  - destruct (differs username (ADMIN_USERNAME U)) eqn:Hdu;
      [|destruct (differs password (ADMIN_PASSWORD P)) eqn:Hdp];
      cbn [orb fst snd status InvalidCredentials res_status].
    + split; [split; [discriminate|]|split; [auto|discriminate]].
      intros ((Hu & _) & _). apply differs_false in Hu. congruence.
    + split; [split; [discriminate|]|split; [auto|discriminate]].
      intros ((_ & Hp) & _). apply differs_false in Hp. congruence.
    + apply differs_false in Hdu, Hdp. subst username password.
      apply falsy_str in Hfu, Hfp.
      destruct (generateSessionToken (entropy p)) as [token e].
      cbn [Date_now fst snd status res_json].
      split; [split; auto|split; [congruence|]].
      intros [H|H]; congruence.
Qed.


(** *** The middleware *)

Lemma requireAuth_token (token : string) (p : Process) :
  session_token token ->
  requireAuth (Some ("Bearer " ++ token)%string) p
  = match Map_get token (sessions p) with
    | Some session =>
        if expires session <? readings (clock p) (reads (clock p)) then
          (answered SessionExpired,
           mkProcess (Map_delete token (sessions p)) (entropy p)
             (mkClock (readings (clock p)) (S (reads (clock p)))))
        else
          (next session,
           mkProcess (sessions p) (entropy p)
             (mkClock (readings (clock p)) (S (reads (clock p)))))
    | None => (answered Unauthorized, p)
    end.
Proof.
  intros Htoken. unfold requireAuth. cbn [bearer_token].
  rewrite String_replace_empty_eq, prefix_append, drop_append.
  rewrite (session_token_some token Htoken). unfold Map_has. cbn [orb].
  destruct (Map_get token (sessions p)) as [session|]; reflexivity.
Qed.

Lemma requireAuth_absent (authorization : option string) (p : Process) :
  (forall token, bearer_token authorization = Some token ->
                 no_token (Some token) = true \/ Map_get token (sessions p) = None) ->
  requireAuth authorization p = (answered Unauthorized, p).
Proof.
  intros Habsent. unfold requireAuth.
  destruct (bearer_token authorization) as [token|]; [|reflexivity].
  destruct (Habsent token eq_refl) as [-> | Hnone]; [reflexivity|].
  unfold Map_has. rewrite Hnone. rewrite orb_true_r. reflexivity.
Qed.

(** X10. A session stored under a token of 64 digits of [0-9a-f] is
    accepted by [requireAuth], on the header made of [Bearer ] and the
    token, as long as [Date.now()] does not exceed its [expires]: the
    handler then runs with that session and the sessions stay as they
    are.  On the first request after that time the middleware answers 401
    [Session expired] and deletes the session, after which the token is
    answered 401 [Unauthorized] whatever the clock reads. *)
Theorem session_accepted_until_expiry (token : string) (session : Session)
  (p : Process) :
  session_token token ->
  Map_get token (sessions p) = Some session ->
  let header := Some ("Bearer " ++ token)%string in
  let time := readings (clock p) (reads (clock p)) in
  (time <= expires session ->
   fst (requireAuth header p) = next session
   /\ sessions (snd (requireAuth header p)) = sessions p)
  /\ (expires session < time ->
      fst (requireAuth header p) = answered SessionExpired
      /\ sessions (snd (requireAuth header p)) = Map_delete token (sessions p)
      /\ forall p', sessions p' = sessions (snd (requireAuth header p)) ->
                    requireAuth header p' = (answered Unauthorized, p')).
Proof.
  intros Htoken Hget. cbv zeta. rewrite (requireAuth_token token p Htoken), Hget.
  split; intros Htime.
  - destruct (Z.ltb_spec (expires session) (readings (clock p) (reads (clock p))));
      [lia|]. split; reflexivity.
  - destruct (Z.ltb_spec (expires session) (readings (clock p) (reads (clock p))));
      [|lia]. cbn [fst snd sessions]. split; [reflexivity|]. split; [reflexivity|].
    intros p' Hp'. rewrite (requireAuth_token token p' Htoken), Hp'.
    rewrite Map_get_delete_same. reflexivity.
Qed.

(** The statement of X10 on the session of the login with the default
    credentials, at the next reading of the clock. *)
Lemma session_accepted_until_expiry_witness :
  fst (requireAuth (Some ("Bearer " ++ sample_token)%string) logged_in)
  = next (mkSession "admin" 86400000 1000).
Proof.
  destruct (session_accepted_until_expiry sample_token
              (mkSession "admin" 86400000 1000) logged_in) as [Hok _].
  - split; reflexivity.
  - reflexivity.
  - apply Hok. vm_compute. discriminate.
Defined.

(** X11. After [POST /admin/login] with the credentials of the
    environment, neither empty, the response carries the token
    [generateSessionToken] returns, and the sessions hold under it a
    session of [ADMIN_USERNAME] that expires 24 hours (86400000 ms) after
    the first reading of the clock; the sessions under other tokens are
    as before.  A login that draws the token of a session that is stored
    replaces that session. *)
Theorem login_opens_session (U P : option string) (p : Process) :
  ADMIN_USERNAME U <> "" -> ADMIN_PASSWORD P <> "" ->
  let r := admin_login U P (Js.str (ADMIN_USERNAME U)) (Js.str (ADMIN_PASSWORD P)) p in
  let token := fst (generateSessionToken (entropy p)) in
  let time := readings (clock p) (reads (clock p)) in
  fst r = res_json (login_body token "24h")
  /\ session_token token
  /\ Map_get token (sessions (snd r))
     = Some (mkSession (ADMIN_USERNAME U) (time + 86400000)
               (readings (clock p) (S (reads (clock p)))))
  /\ (forall token', token' <> token ->
        Map_get token' (sessions (snd r)) = Map_get token' (sessions p))
  /\ entropy (snd r) = snd (generateSessionToken (entropy p))
  /\ clock (snd r) = mkClock (readings (clock p)) (S (S (reads (clock p)))).
Proof.
  intros HU HP. cbv zeta. unfold admin_login.
  rewrite (proj2 (falsy_str _) HU), (proj2 (falsy_str _) HP).
  rewrite (proj2 (differs_false _ _) eq_refl), (proj2 (differs_false _ _) eq_refl).
  cbn [orb]. pose proof (generateSessionToken_token (entropy p)) as Htoken.
  destruct (generateSessionToken (entropy p)) as [token e].
  cbn [Date_now fst snd sessions entropy clock readings reads] in *.
  split; [reflexivity|]. split; [exact Htoken|].
  split; [apply Map_get_set_same|]. split; [|split; reflexivity].
  intros token' Hne. apply Map_get_set_other. exact Hne.
Qed.

(** The statement of X11 on the default credentials and the server just
    started. *)
Lemma login_opens_session_witness :
  fst (admin_login None None (Js.str "admin") (Js.str "changeme") started)
  = res_json (login_body sample_token "24h").
Proof.
  destruct (login_opens_session None None started) as [Hresponse _].
  - discriminate.
  - discriminate.
  - exact Hresponse.
Defined.

Lemma admin_logout_sessions (authorization : option string) (p : Process) :
  let r := admin_logout authorization p in
  (fst r = res_json success_body \/ status (fst r) = 401)
  /\ (forall token, bearer_token authorization = Some token ->
        no_token (Some token) = true \/ Map_get token (sessions (snd r)) = None)
  /\ (forall token, bearer_token authorization <> Some token ->
                    Map_get token (sessions (snd r)) = Map_get token (sessions p)).
Proof.
  cbv zeta. unfold admin_logout, requireAuth.
  destruct (bearer_token authorization) as [token|] eqn:Hbearer;
    [|cbn [fst snd]; split; [right; reflexivity|split; [discriminate|reflexivity]]].
  destruct (no_token (Some token)) eqn:Hno; cbn [orb].
  { cbn [fst snd]. split; [right; reflexivity|]. split; [|reflexivity].
    intros t [= <-]. left. exact Hno. }
  unfold Map_has.
  destruct (Map_get token (sessions p)) as [session|] eqn:Hget; cbn [negb].
  - cbn [Date_now].
    destruct (expires session <? readings (clock p) (reads (clock p)));
      cbn [fst snd sessions].
    + split; [right; reflexivity|]. split.
      * intros t [= <-]. right. apply Map_get_delete_same.
      * intros t Ht. apply Map_get_delete_other. congruence.
    + cbn [sessions]. split; [left; reflexivity|]. split.
      * intros t [= <-]. right. apply Map_get_delete_same.
      * intros t Ht. apply Map_get_delete_other. congruence.
  - cbn [fst snd]. split; [right; reflexivity|]. split; [|reflexivity].
    intros t [= <-]. right. exact Hget.
Qed.

(** X13. [requireAuth] does not require the scheme: [replace] removes the
    first [Bearer ] wherever it is and leaves a header without it as it
    is, so that for a token of digits of [0-9a-f] the header made of the
    token alone, and the header with [Bearer ] inserted at any place of the
    token, are treated as the header made of [Bearer ] and the token. *)
Theorem bearer_scheme_not_required (a b : string) (p : Process) :
  all_hex (a ++ b)%string = true ->
  requireAuth (Some (a ++ b)%string) p
  = requireAuth (Some ("Bearer " ++ a ++ b)%string) p
  /\ requireAuth (Some (a ++ "Bearer " ++ b)%string) p
     = requireAuth (Some ("Bearer " ++ a ++ b)%string) p.
Proof.
  intros Hhex.
  assert (Ha : all_hex a = true)
    by (rewrite all_hex_append in Hhex; apply andb_true_iff in Hhex; tauto).
  unfold requireAuth. cbn [bearer_token].
  rewrite (replace_hex _ Hhex), (replace_after_hex a b Ha).
  rewrite (String_replace_empty_eq "Bearer " ("Bearer " ++ a ++ b)),
    prefix_append, drop_append.
  split; reflexivity.
Qed.


(** The statement of X13 on the token of the sample login, cut after its
    fourth digit. *)
Lemma bearer_scheme_not_required_witness :
  requireAuth (Some sample_token) logged_in
  = requireAuth (Some ("Bearer " ++ sample_token)%string) logged_in.
Proof.
  destruct (bearer_scheme_not_required "0001"
              "02030405060708090a0b0c0d0e0f101112131415161718191a1b1c1d1e1f"
              logged_in) as [Hbare _].
  - reflexivity.
  - exact Hbare.
Defined.

(** *** The sessions of a running server *)

Lemma Map_get_delete_some (key key' : string) (m : SessionMap) (session : Session) :
  Map_get key' (Map_delete key m) = Some session -> Map_get key' m = Some session.
Proof.
  destruct (String.eqb_spec key' key) as [->|Hne].
  - rewrite Map_get_delete_same. discriminate.
  - rewrite Map_get_delete_other by exact Hne. auto.
Qed.

(** The middleware changes the process in one of three ways. *)
Lemma requireAuth_process (authorization : option string) (p : Process) :
  snd (requireAuth authorization p) = p
  \/ (entropy (snd (requireAuth authorization p)) = entropy p
      /\ clock (snd (requireAuth authorization p))
         = mkClock (readings (clock p)) (S (reads (clock p)))
      /\ (sessions (snd (requireAuth authorization p)) = sessions p
          \/ exists token,
              sessions (snd (requireAuth authorization p))
              = Map_delete token (sessions p))).
Proof.
  unfold requireAuth. destruct (bearer_token authorization) as [token|]; [|auto].
  destruct (no_token (Some token) || negb (Map_has token (sessions p))); [auto|].
  destruct (Map_get token (sessions p)) as [session|]; [|auto].
  cbn [Date_now]. right.
  destruct (expires session <? readings (clock p) (reads (clock p)));
    cbn [snd entropy clock sessions]; split; try reflexivity; split;
    try reflexivity; [right; exists token|left]; reflexivity.
Qed.

Lemma requireAuth_next (authorization : option string) (p : Process)
  (session : Session) :
  fst (requireAuth authorization p) = next session ->
  exists token,
    bearer_token authorization = Some token
    /\ Map_get token (sessions p) = Some session
    /\ readings (clock p) (reads (clock p)) <= expires session.
Proof.
  unfold requireAuth. destruct (bearer_token authorization) as [token|];
    [|discriminate].
  destruct (no_token (Some token) || negb (Map_has token (sessions p)));
    [discriminate|].
  destruct (Map_get token (sessions p)) as [s|] eqn:Hget; [|discriminate].
  cbn [Date_now].
  destruct (Z.ltb_spec (expires s) (readings (clock p) (reads (clock p))))
    as [Hlt|Hle]; cbn [fst]; [discriminate|].
  intros [= <-]. exists token. split; [reflexivity|]. split; [exact Hget|exact Hle].
Qed.

Lemma opened_by_logins_later (U : option string) (c0 : Clock) (p p' : Process) :
  opened_by_logins U c0 p ->
  readings (clock p') = readings (clock p) ->
  (reads (clock p) <= reads (clock p'))%nat ->
  (forall token session,
      Map_get token (sessions p') = Some session ->
      Map_get token (sessions p) = Some session) ->
  opened_by_logins U c0 p'.
Proof.
  intros [Hclock Hall] Hreadings Hreads Hsub. split; [congruence|].
  intros token session Hget.
  destruct (Hall token session (Hsub token session Hget)) as (Ht & Hu & n & Hn & He).
  split; [exact Ht|]. split; [exact Hu|]. exists n. split; [lia|exact He].
Qed.

Lemma requireAuth_opened_by_logins (U : option string) (c0 : Clock)
  (authorization : option string) (p : Process) :
  opened_by_logins U c0 p ->
  opened_by_logins U c0 (snd (requireAuth authorization p)).
Proof.
  intros Hp.
  destruct (requireAuth_process authorization p)
    as [->|(_ & Hclock & [Hsessions|[token Hsessions]])]; [exact Hp| |];
    apply (opened_by_logins_later U c0 p); try exact Hp;
    rewrite ?Hclock, ?Hsessions; cbn [readings reads]; auto.
  intros t s. apply Map_get_delete_some.
Qed.

Lemma admin_logout_opened_by_logins (U : option string) (c0 : Clock)
  (authorization : option string) (p : Process) :
  opened_by_logins U c0 p ->
  opened_by_logins U c0 (snd (admin_logout authorization p)).
Proof.
  intros Hp. unfold admin_logout.
  pose proof (requireAuth_opened_by_logins U c0 authorization p Hp) as Hp'.
  destruct (requireAuth authorization p) as [[response|session] p']; cbn [snd] in *;
    [exact Hp'|].
  destruct (bearer_token authorization) as [token|]; [|exact Hp'].
  destruct (no_token (Some token)); [exact Hp'|].
  apply (opened_by_logins_later U c0 p'); auto.
  intros t s. apply Map_get_delete_some.
Qed.

Lemma admin_login_opened_by_logins (U P : option string) (c0 : Clock)
  (username password : Js.Value) (p : Process) :
  opened_by_logins U c0 p ->
  opened_by_logins U c0 (snd (admin_login U P username password p)).
Proof.
  intros Hp.
  destruct (login_needs_credentials U P username password p)
    as (Hok & Hfail & _). cbv zeta in Hok, Hfail.
  destruct (Z.eq_dec (status (fst (admin_login U P username password p))) 200)
    as [H200|Hne]; [|rewrite (proj1 (Hfail Hne)); exact Hp].
  apply Hok in H200. destruct H200 as ((-> & ->) & HU & HP).
  destruct (login_opens_session U P p HU HP)
    as (_ & Htoken & Hget & Hother & _ & Hclock).
  cbv zeta in Hget, Hother, Hclock.
  destruct Hp as [Hreadings Hall]. split; [rewrite Hclock; exact Hreadings|].
  intros token session Hsession. rewrite Hclock. cbn [reads].
  destruct (string_dec token (fst (generateSessionToken (entropy p)))) as [->|Hne].
  - rewrite Hget in Hsession. injection Hsession as <-.
    split; [exact Htoken|]. split; [reflexivity|].
    exists (reads (clock p)). split; [lia|]. cbn [expires]. rewrite Hreadings.
    reflexivity.
  - rewrite (Hother token Hne) in Hsession.
    destruct (Hall token session Hsession) as (Ht & Hu & n & Hn & He).
    split; [exact Ht|]. split; [exact Hu|]. exists n. split; [lia|exact He].
Qed.

Lemma handle_opened_by_logins (U P : option string) (c0 : Clock) (r : Request)
  (a : App) :
  opened_by_logins U c0 (process a) ->
  opened_by_logins U c0 (process (handle U P r a)).
Proof.
  intros Ha. destruct r as [username password|authorization
                           |now faults fuel authorization count]; cbn [handle process].
  - apply admin_login_opened_by_logins. exact Ha.
  - apply admin_logout_opened_by_logins. exact Ha.
  - unfold admin_generate, guarded.
    pose proof (requireAuth_opened_by_logins U c0 authorization (process a) Ha) as Hp.
    destruct (requireAuth authorization (process a)) as [[response|session] p];
      cbn [snd] in Hp.
    + exact Hp.
    + destruct (Server.serve _ (world a)) as [[r w] l]. exact Hp.
Qed.

Lemma serve_all_opened_by_logins (U P : option string) (c0 : Clock)
  (requests : list Request) (a : App) :
  opened_by_logins U c0 (process a) ->
  opened_by_logins U c0 (process (serve_all U P requests a)).
Proof.
  revert a. induction requests as [|r requests IH]; intros a Ha; [exact Ha|].
  cbn [serve_all fold_left]. apply IH. apply handle_opened_by_logins. exact Ha.
Qed.

(** Without a session, a request on the admin routes that is not a login
    with the credentials leaves the application as it is. *)
Lemma handle_without_session (U P : option string) (r : Request) (a : App) :
  sessions (process a) = [] ->
  (forall username password,
      r = login username password -> ~ credentials U P username password) ->
  handle U P r a = a.
Proof.
  intros Hnone Hcred.
  assert (Hauth : forall authorization,
             requireAuth authorization (process a) = (answered Unauthorized, process a)).
  { intros authorization. apply requireAuth_absent. intros token _. right.
    rewrite Hnone. reflexivity. }
  destruct a as [p w]. cbn [process] in *.
  destruct r as [username password|authorization
                |now faults fuel authorization count]; cbn [handle process world].
  - destruct (login_needs_credentials U P username password p) as (Hok & Hfail & _).
    cbv zeta in Hok, Hfail.
    assert (Hne : status (fst (admin_login U P username password p)) <> 200).
    { intros H200. apply Hok in H200. destruct H200 as [Hc _].
      exact (Hcred username password eq_refl Hc). }
    rewrite (proj1 (Hfail Hne)). reflexivity.
  - unfold admin_logout. rewrite Hauth. reflexivity.
  - unfold admin_generate, guarded. cbn [process world]. rewrite Hauth. reflexivity.
Qed.

Lemma serve_all_without_session (U P : option string) (requests : list Request)
  (a : App) :
  sessions (process a) = [] ->
  (forall username password,
      In (login username password) requests ->
      ~ credentials U P username password) ->
  serve_all U P requests a = a.
Proof.
  intros Hnone. induction requests as [|r requests IH]; intros Hcred; [reflexivity|].
  cbn [serve_all fold_left].
  assert (Hr : handle U P r a = a).
  { apply handle_without_session; [exact Hnone|].
    intros username password ->. apply Hcred. left. reflexivity. }
  rewrite Hr. apply IH.
  intros username password Hin. apply Hcred. right. exact Hin.
Qed.

Lemma Map_get_delete_none (key key' : string) (m : SessionMap) :
  Map_get key' m = None -> Map_get key' (Map_delete key m) = None.
Proof.
  intros Hnone. destruct (String.eqb_spec key' key) as [->|Hne].
  - apply Map_get_delete_same.
  - rewrite Map_get_delete_other by exact Hne. exact Hnone.
Qed.

Lemma later_token_first (e : Entropy) :
  later_token e 0 = fst (generateSessionToken e).
Proof.
  unfold later_token, generateSessionToken, crypto_randomBytes.
  cbn [octets taken fst]. rewrite Nat.mul_0_r, Nat.add_0_r. reflexivity.
Qed.

Lemma later_token_next (e : Entropy) (k : nat) :
  later_token (snd (generateSessionToken e)) k = later_token e (S k).
Proof.
  unfold later_token, generateSessionToken, crypto_randomBytes.
  cbn [octets taken fst snd].
  replace (taken e + 32 + 32 * k)%nat with (taken e + 32 * S k)%nat by lia.
  reflexivity.
Qed.

Lemma requireAuth_absent_later (authorization : option string) (token : string)
  (p : Process) :
  Map_get token (sessions p) = None ->
  Map_get token (sessions (snd (requireAuth authorization p))) = None
  /\ entropy (snd (requireAuth authorization p)) = entropy p.
Proof.
  intros Hnone.
  destruct (requireAuth_process authorization p)
    as [->|(Hentropy & _ & [->|[deleted ->]])]; auto.
  split; [apply Map_get_delete_none; exact Hnone|exact Hentropy].
Qed.

Lemma admin_logout_entropy (authorization : option string) (p : Process) :
  entropy (snd (admin_logout authorization p)) = entropy p.
Proof.
  unfold admin_logout.
  pose proof (requireAuth_process authorization p) as Hp.
  destruct (requireAuth authorization p) as [[response|session] p']; cbn [snd] in *.
  - destruct Hp as [->|[-> _]]; reflexivity.
  - assert (Hsame : entropy p' = entropy p) by (destruct Hp as [->|[-> _]]; reflexivity).
    destruct (bearer_token authorization) as [token|]; [|exact Hsame].
    destruct (no_token (Some token)); exact Hsame.
Qed.

(** A token that is not stored and that no later login draws stays out of
    the sessions, whatever request is served. *)
Lemma handle_absent (U P : option string) (token : string) (r : Request) (a : App) :
  (forall k, later_token (entropy (process a)) k <> token) ->
  Map_get token (sessions (process a)) = None ->
  (forall k, later_token (entropy (process (handle U P r a))) k <> token)
  /\ Map_get token (sessions (process (handle U P r a))) = None.
Proof.
  intros Hfresh Hnone.
  destruct r as [username password|authorization
                |times faults fuel authorization count]; cbn [handle process].
  - destruct (login_needs_credentials U P username password (process a))
      as (Hok & Hfail & _). cbv zeta in Hok, Hfail.
    destruct (Z.eq_dec (status (fst (admin_login U P username password (process a)))) 200)
      as [H200|Hne]; [|rewrite (proj1 (Hfail Hne)); auto].
    apply Hok in H200. destruct H200 as ((-> & ->) & HU & HP).
    destruct (login_opens_session U P (process a) HU HP)
      as (_ & _ & _ & Hother & Hentropy & _).
    cbv zeta in Hother, Hentropy. split.
    + intros k. rewrite Hentropy, later_token_next. apply Hfresh.
    + rewrite Hother; [exact Hnone|].
      rewrite <- later_token_first. intros Heq. apply (Hfresh 0%nat). congruence.
  - rewrite admin_logout_entropy. split; [exact Hfresh|].
    destruct (admin_logout_sessions authorization (process a)) as (_ & Hgone & Hkept).
    cbv zeta in Hgone, Hkept.
    assert (Hdec : bearer_token authorization = Some token
                   \/ bearer_token authorization <> Some token).
    { destruct (bearer_token authorization) as [token'|]; [|right; discriminate].
      destruct (string_dec token' token) as [->|Hne]; [left; reflexivity|].
      right. intros Heq. apply Hne. congruence. }
    destruct Hdec as [Hbearer|Hother].
    + destruct (Map_get token (sessions (snd (admin_logout authorization (process a)))))
        as [session|] eqn:Hget; [|reflexivity].
      exfalso. revert Hget. unfold admin_logout.
      destruct (requireAuth_absent_later authorization token (process a) Hnone)
        as [Hafter _].
      destruct (requireAuth authorization (process a)) as [[response|session'] p'];
        cbn [snd] in *; [congruence|].
      rewrite Hbearer. destruct (no_token (Some token)); [congruence|].
      cbn [sessions]. rewrite Map_get_delete_same. discriminate.
    + rewrite (Hkept token Hother). exact Hnone.
  - unfold admin_generate, guarded.
    destruct (requireAuth_absent_later authorization token (process a) Hnone)
      as [Hafter Hentropy].
    destruct (requireAuth authorization (process a)) as [[response|session] p];
      cbn [snd] in Hafter, Hentropy.
    + cbn [fst snd process]. rewrite Hentropy. auto.
    + destruct (Server.serve _ (world a)) as [[r w] l]. cbn [fst snd process].
      rewrite Hentropy. auto.
Qed.

Lemma serve_all_absent (U P : option string) (token : string)
  (requests : list Request) (a : App) :
  (forall k, later_token (entropy (process a)) k <> token) ->
  Map_get token (sessions (process a)) = None ->
  Map_get token (sessions (process (serve_all U P requests a))) = None.
Proof.
  revert a. induction requests as [|r requests IH]; intros a Hfresh Hnone;
    [exact Hnone|].
  cbn [serve_all fold_left].
  destruct (handle_absent U P token r a Hfresh Hnone) as [Hfresh' Hnone'].
  apply IH; assumption.
Qed.

(** X12. After [POST /admin/logout], whatever the header and whether the
    middleware let the request through or not, the header of the request
    is answered 401 [Unauthorized] from then on: after any requests on the
    admin routes served since, whatever their order, their storage faults
    and the readings of the clock, as long as no later login draws the same
    token again, the 32 octets of [crypto.randomBytes] that made it.  The
    sessions stored under other tokens than the one of the header are as
    before the logout. *)
Theorem logout_revokes (U P : option string) (authorization : option string)
  (a : App) (requests : list Request) :
  let left := handle U P (logout authorization) a in
  (forall token k,
      bearer_token authorization = Some token ->
      later_token (entropy (process a)) k <> token) ->
  requireAuth authorization (process (serve_all U P requests left))
  = (answered Unauthorized, process (serve_all U P requests left))
  /\ (forall token, bearer_token authorization <> Some token ->
        Map_get token (sessions (process left)) = Map_get token (sessions (process a)))
  /\ (fst (admin_logout authorization (process a)) = res_json success_body
      \/ status (fst (admin_logout authorization (process a))) = 401).
Proof.
  cbv zeta. intros Hfresh. cbn [handle process].
  destruct (admin_logout_sessions authorization (process a)) as (Hanswer & Hgone & Hkept).
  cbv zeta in Hanswer, Hgone, Hkept.
  split; [|split; [exact Hkept|exact Hanswer]].
  apply requireAuth_absent. intros token Hbearer.
  destruct (Hgone token Hbearer) as [Hempty|Hnone]; [left; exact Hempty|right].
  apply serve_all_absent; cbn [process].
  - intros k. rewrite admin_logout_entropy. apply (Hfresh token k Hbearer).
  - exact Hnone.
Qed.

Lemma later_token_once (k : nat) :
  later_token (entropy logged_once) k
  = "ffffffffffffffffffffffffffffffffffffffffffffffffffffffffffffffff".
Proof.
  unfold later_token, generateSessionToken, crypto_randomBytes.
  cbn [fst]. change (taken (entropy logged_once)) with 32%nat.
  change (octets (entropy logged_once)) with (octets once_entropy).
  rewrite (map_ext _ (fun _ => Byte.xff)); [reflexivity|].
  intros j. unfold once_entropy. cbn [octets].
  destruct (Nat.ltb_spec (32 + 32 * k + j) 32); [lia|reflexivity].
Qed.

(** The statement of X12 on the session of a login, after a logout and a
    second login, which draws another token. *)
Lemma logout_revokes_witness :
  fst (requireAuth (Some ("Bearer " ++ sample_token)%string)
         (process
            (serve_all None None [login (Js.str "admin") (Js.str "changeme")]
               (handle None None (logout (Some ("Bearer " ++ sample_token)%string))
                  (mkApp logged_once Samples.empty_world)))))
  = answered Unauthorized.
Proof.
  destruct (logout_revokes None None (Some ("Bearer " ++ sample_token)%string)
              (mkApp logged_once Samples.empty_world)
              [login (Js.str "admin") (Js.str "changeme")]) as [Hrevoked _].
  - intros token k Hbearer. cbn [process]. rewrite later_token_once.
    injection Hbearer as <-. vm_compute. discriminate.
  - cbv zeta in Hrevoked. rewrite Hrevoked. reflexivity.
Defined.

(** X14. Whatever requests the admin routes of the variant have served
    since the server started, every session stored is stored under a token
    of 64 digits of [0-9a-f], belongs to [ADMIN_USERNAME] and expires 24
    hours after a reading the clock has given; a request that
    [requireAuth] lets through comes at most 24 hours, by the clock, after
    such a reading; and when no request was a login with the credentials
    of the environment, there is no session and the store and
    [Math.random] are as at the start: every [POST /admin/generate] was
    answered without running. *)
Theorem sessions_come_from_logins (U P : option string) (requests : list Request)
  (e : Entropy) (c : Clock) (w : Server.World) :
  let a := serve_all U P requests (mkApp (start e c) w) in
  (forall token session,
      Map_get token (sessions (process a)) = Some session ->
      session_token token /\ username session = ADMIN_USERNAME U
      /\ exists n, (n < reads (clock (process a)))%nat
                   /\ expires session = readings c n + 86400000)
  /\ (forall authorization session,
         fst (requireAuth authorization (process a)) = next session ->
         exists n, (n < reads (clock (process a)))%nat
                   /\ readings c (reads (clock (process a)))
                      <= readings c n + 86400000)
  /\ ((forall username password,
          In (login username password) requests ->
          ~ credentials U P username password) ->
      sessions (process a) = [] /\ world a = w).
Proof.
  cbv zeta.
  assert (Hstart : opened_by_logins U c (process (mkApp (start e c) w)))
    by (split; [reflexivity|intros token session; discriminate]).
  pose proof (serve_all_opened_by_logins U P c requests _ Hstart) as [Hclock Hall].
  split; [exact Hall|]. split.
  - intros authorization session Hnext.
    destruct (requireAuth_next _ _ _ Hnext) as (token & _ & Hget & Htime).
    destruct (Hall token session Hget) as (_ & _ & n & Hn & He).
    exists n. split; [exact Hn|]. rewrite Hclock, He in Htime. exact Htime.
  - intros Hcred.
    rewrite (serve_all_without_session U P requests (mkApp (start e c) w)
               eq_refl Hcred).
    split; reflexivity.
Qed.

End AdminFacts.

(** ** The listings *)

Module ListingFacts.

Import Store Server Ledger Listing LedgerFacts Samples.

(** *** Counting the results *)

Lemma list_sum_cons (n : nat) (l : list nat) :
  list_sum (n :: l) = (n + list_sum l)%nat.
Proof. reflexivity. Qed.

Lemma list_sum_map_add {A} (f g : A -> nat) (l : list A) :
  list_sum (map (fun a => (f a + g a)%nat) l)
  = (list_sum (map f l) + list_sum (map g l))%nat.
Proof.
  induction l as [|a l IH]; [reflexivity|]. cbn [map]; rewrite ?list_sum_cons. rewrite IH. lia.
Qed.

Lemma list_sum_map_ext {A} (f g : A -> nat) (l : list A) :
  (forall a, In a l -> f a = g a) ->
  list_sum (map f l) = list_sum (map g l).
Proof.
  intros H. induction l as [|a l IH]; [reflexivity|]. cbn [map]; rewrite ?list_sum_cons.
  rewrite (H a (or_introl eq_refl)), IH; [reflexivity|].
  intros b Hb. apply H. right. exact Hb.
Qed.

Lemma list_sum_indicator (codes : list SpinCode.t) (i : Z) :
  NoDup (map SpinCode.id codes) ->
  In i (map SpinCode.id codes) ->
  list_sum (map (fun c => if i =? SpinCode.id c then 1%nat else 0%nat) codes) = 1%nat.
Proof.
  induction codes as [|c codes IH]; intros Hnodup Hin; [contradiction|].
  cbn [map] in Hnodup, Hin. inversion Hnodup as [|x l Hnotin Hrest]; subst.
  cbn [map]; rewrite ?list_sum_cons. destruct (Z.eqb_spec i (SpinCode.id c)) as [->|Hne].
  - assert (Hzero : list_sum (map (fun c0 => if SpinCode.id c =? SpinCode.id c0
                                             then 1%nat else 0%nat) codes) = 0%nat).
    { clear - Hnotin. induction codes as [|c0 codes IH]; [reflexivity|].
      cbn [map]; rewrite ?list_sum_cons. cbn [map In] in Hnotin.
      destruct (Z.eqb_spec (SpinCode.id c) (SpinCode.id c0)) as [Heq|_];
        [exfalso; apply Hnotin; left; congruence|].
      apply IH. intros H. apply Hnotin. right. exact H. }
    rewrite Hzero. reflexivity.
  - destruct Hin as [Heq|Hin]; [congruence|]. rewrite (IH Hrest Hin). reflexivity.
Qed.

(** Results that refer to codes of distinct keys are as many as the
    results of each code together. *)
Lemma results_by_code (codes : list SpinCode.t) (rs : list SpinResult.t) :
  NoDup (map SpinCode.id codes) ->
  (forall r, In r rs -> In (SpinResult.code_id r) (map SpinCode.id codes)) ->
  List.length rs
  = list_sum (map (fun c => List.length
                              (filter (fun r => SpinResult.code_id r =? SpinCode.id c) rs))
                codes).
Proof.
  intros Hnodup. induction rs as [|r rs IH]; intros Hrefer.
  - cbn [filter List.length]. clear. induction codes as [|c codes IHc]; [reflexivity|].
    cbn [map]. rewrite list_sum_cons, <- IHc. reflexivity.
  - cbn [List.length].
    rewrite (list_sum_map_ext _
               (fun c => ((if (SpinResult.code_id r =? SpinCode.id c)%Z then 1 else 0)
                          + List.length
                              (filter (fun r => (SpinResult.code_id r =? SpinCode.id c)%Z)
                                 rs))%nat)).
    + rewrite list_sum_map_add, list_sum_indicator, <- IH; auto.
      * intros r' Hr'. apply Hrefer. right. exact Hr'.
      * apply Hrefer. left. reflexivity.
    + intros c _. cbn [filter].
      destruct (SpinResult.code_id r =? SpinCode.id c); reflexivity.
Qed.

Lemma length_filter_sum {A} (f : A -> bool) (l : list A) :
  List.length (filter f l) = list_sum (map (fun a => if f a then 1%nat else 0%nat) l).
Proof.
  induction l as [|a l IH]; [reflexivity|]. cbn [filter map]; rewrite ?list_sum_cons.
  destruct (f a); cbn [List.length]; rewrite IH; reflexivity.
Qed.

Lemma consistent_results_count (db : Database) :
  consistent db -> List.length (spin_results db) = List.length (used_codes db).
Proof.
  intros Hcons. unfold used_codes. rewrite length_filter_sum.
  rewrite (results_by_code (spin_codes db) (spin_results db)).
  - apply list_sum_map_ext. intros c Hc.
    exact (one_result_iff_used db Hcons c Hc).
  - exact (ids_unique db Hcons).
  - intros r Hr. destruct (results_refer db Hcons r Hr) as (c & Hc & <-).
    apply in_map. exact Hc.
Qed.

(** X15. In every world reached from the empty tables by issue, verify and
    redeem operations, under any storage faults, [spin_results] has as
    many rows as [spin_codes] has rows of status [used]: the [total] that
    [GET /admin/results] counts is the number of the codes redeemed. *)
Theorem results_count_used_codes (w : World) :
  reachable w ->
  List.length (spin_results (database w)) = List.length (used_codes (database w)).
Proof.
  intros Hreach. apply consistent_results_count, reachable_consistent, Hreach.
Qed.

(** The statement of X15 on the world in which 10000 has been redeemed. *)
Lemma results_count_used_codes_witness :
  List.length (spin_results (database played_world))
  = List.length (used_codes (database played_world)).
Proof.
  apply (results_count_used_codes played_world). exact reachable_played_world.
Defined.


(** *** The rows listed *)

Lemma flat_map_single {A B} (f : A -> list B) (g : A -> B) (l : list A) :
  (forall a, In a l -> f a = [g a]) -> flat_map f l = map g l.
Proof.
  induction l as [|a l IH]; intros H; [reflexivity|].
  change (flat_map f (a :: l)) with (f a ++ flat_map f l).
  rewrite (H a (or_introl eq_refl)), IH by (intros b Hb; apply H; right; exact Hb).
  reflexivity.
Qed.

Lemma left_join_one_row (db : Database) :
  consistent db ->
  left_join db = map (fun sc => code_row sc (result_of sc db)) (spin_codes db).
Proof.
  intros Hcons. unfold left_join. apply flat_map_single. intros sc Hsc.
  pose proof (one_result_iff_used db Hcons sc Hsc) as Hone. unfold result_of.
  destruct (results_of (SpinCode.id sc) db) as [|sr [|sr' rest]]; cbn [hd_error map].
  - reflexivity.
  - reflexivity.
  - cbn [List.length] in Hone. destruct (is_used (SpinCode.status sc)); discriminate.
Qed.

Lemma result_of_used (db : Database) (sc : SpinCode.t) :
  consistent db -> In sc (spin_codes db) ->
  (SpinCode.status sc = used -> exists sr, result_of sc db = Some sr
                                           /\ In sr (spin_results db)
                                           /\ SpinResult.code_id sr = SpinCode.id sc)
  /\ (SpinCode.status sc = unused -> result_of sc db = None).
Proof.
  intros Hcons Hsc. pose proof (one_result_iff_used db Hcons sc Hsc) as Hone.
  unfold result_of.
  destruct (results_of (SpinCode.id sc) db) as [|sr rest] eqn:Hrows; cbn [hd_error].
  - split; [|reflexivity]. intros Hused. rewrite Hused in Hone. discriminate.
  - split.
    + intros _. exists sr. split; [reflexivity|].
      assert (Hin : In sr (results_of (SpinCode.id sc) db))
        by (rewrite Hrows; left; reflexivity).
      apply filter_In in Hin. destruct Hin as [Hin Heq].
      split; [exact Hin|]. apply Z.eqb_eq. exact Heq.
    + intros Hunused. rewrite Hunused in Hone. discriminate.
Qed.

Lemma insert_by_created_at_perm (row : CodeRow) (ordered : list CodeRow) :
  Permutation.Permutation (row :: ordered) (insert_by_created_at row ordered).
Proof.
  induction ordered as [|first rest IH]; cbn [insert_by_created_at].
  - apply Permutation.Permutation_refl.
  - destruct (created_at first <=? created_at row).
    + apply Permutation.Permutation_refl.
    + eapply Permutation.perm_trans; [apply Permutation.perm_swap|].
      apply Permutation.perm_skip. exact IH.
Qed.

Lemma insert_by_created_at_sorted (row : CodeRow) (ordered : list CodeRow) :
  newest_first ordered -> newest_first (insert_by_created_at row ordered).
Proof.
  unfold newest_first. induction ordered as [|first rest IH]; intros Hsorted;
    cbn [insert_by_created_at].
  - constructor; constructor.
  - inversion Hsorted as [|x l Hrest Hall]; subst.
    destruct (Z.leb_spec (created_at first) (created_at row)) as [Hle|Hgt].
    + constructor; [exact Hsorted|]. constructor; [exact Hle|].
      eapply Forall_impl; [|exact Hall]. cbn. intros a Ha. lia.
    + constructor; [apply IH; exact Hrest|].
      eapply Permutation.Permutation_Forall; [apply insert_by_created_at_perm|].
      constructor; [lia|exact Hall].
Qed.

Lemma order_by_created_at_desc_ordered (rows : list CodeRow) :
  ordered_by_created_at_desc rows (order_by_created_at_desc rows).
Proof.
  unfold ordered_by_created_at_desc, order_by_created_at_desc.
  induction rows as [|row rows [IHperm IHsorted]]; cbn [fold_right].
  - split; [apply Permutation.perm_nil|constructor].
  - split.
    + eapply Permutation.perm_trans; [|apply insert_by_created_at_perm].
      apply Permutation.perm_skip. exact IHperm.
    + apply insert_by_created_at_sorted. exact IHsorted.
Qed.

Lemma NoDup_firstn {A} (n : nat) (l : list A) : NoDup l -> NoDup (firstn n l).
Proof.
  intros Hnodup. rewrite <- (firstn_skipn n l) in Hnodup.
  apply NoDup_app_remove_r in Hnodup. exact Hnodup.
Qed.

Lemma In_firstn {A} (n : nat) (l : list A) (a : A) : In a (firstn n l) -> In a l.
Proof.
  intros Hin. rewrite <- (firstn_skipn n l). apply in_or_app. left. exact Hin.
Qed.

Lemma newest_first_firstn (n : nat) (rows : list CodeRow) :
  newest_first rows -> newest_first (firstn n rows).
Proof.
  unfold newest_first. revert n. induction rows as [|row rows IH]; intros [|n] Hsorted;
    cbn [firstn]; try constructor.
  - apply IH. inversion Hsorted; assumption.
  - inversion Hsorted as [|x l Hrest Hall]; subst.
    apply Forall_forall. intros a Ha. apply In_firstn in Ha.
    rewrite Forall_forall in Hall. apply Hall. exact Ha.
Qed.

(** X16. In every world reached from the empty tables by issue, verify and
    redeem operations, [GET /admin/codes] answers when its query is not
    rejected, and whatever order the store gives to rows of one time, the
    list it answers with has the 100 newest codes, or all of them when
    there are fewer: no row is followed by a newer one, no code is listed
    twice although the query is a join, and each row is a stored code
    with the outcome, prize and odds of the result that refers to it when
    its status is [used] and with [NULL] in these columns when it is
    [unused]. *)
Theorem codes_listed_once_newest_first (w : World) (faults : nat -> bool) :
  reachable w ->
  faults 0%nat = false ->
  admin_codes faults (database w)
    (listed (firstn 100 (order_by_created_at_desc (left_join (database w)))))
  /\ forall answer,
      admin_codes faults (database w) answer ->
      exists rows,
        answer = listed rows
        /\ List.length rows
           = Nat.min 100 (List.length (spin_codes (database w)))
        /\ NoDup (map id rows)
        /\ newest_first rows
        /\ forall row, In row rows ->
             exists sc,
               In sc (spin_codes (database w))
               /\ id row = SpinCode.id sc /\ code row = SpinCode.code sc
               /\ status row = SpinCode.status sc
               /\ created_at row = SpinCode.created_at sc
               /\ used_at row = SpinCode.used_at sc
               /\ (status row = unused ->
                   outcome row = None /\ prize_cents row = None /\ odds row = None)
               /\ (status row = used ->
                   exists sr,
                     In sr (spin_results (database w))
                     /\ SpinResult.code_id sr = id row
                     /\ outcome row = Some (SpinResult.outcome sr)
                     /\ prize_cents row = Some (SpinResult.prize_cents sr)
                     /\ odds row = Some (SpinResult.odds sr)).
Proof.
  intros Hreach Hfault.
  assert (Hcons : consistent (database w)) by (apply reachable_consistent, Hreach).
  unfold admin_codes. rewrite Hfault. split.
  - eexists. split; [apply order_by_created_at_desc_ordered|reflexivity].
  - intros answer (ordered & [Hperm Hsorted] & ->).
    exists (firstn 100 ordered). split; [reflexivity|].
    pose proof (left_join_one_row (database w) Hcons) as Hjoin.
    assert (Hids : map id (left_join (database w))
                   = map SpinCode.id (spin_codes (database w))).
    { rewrite Hjoin, map_map. reflexivity. }
    split; [|split; [|split]].
    + rewrite length_firstn, <- (Permutation.Permutation_length Hperm), Hjoin,
        length_map. reflexivity.
    + rewrite <- firstn_map. apply NoDup_firstn.
      apply (Permutation.Permutation_NoDup (Permutation.Permutation_map id Hperm)).
      rewrite Hids. exact (ids_unique _ Hcons).
    + apply newest_first_firstn. exact Hsorted.
    + intros row Hrow. apply In_firstn in Hrow.
      apply (Permutation.Permutation_in _ (Permutation.Permutation_sym Hperm)) in Hrow.
      rewrite Hjoin in Hrow. apply in_map_iff in Hrow.
      destruct Hrow as (sc & <- & Hsc). exists sc.
      destruct (result_of_used (database w) sc Hcons Hsc) as [Hused Hunused].
      cbn [code_row id code status created_at used_at outcome prize_cents odds].
      repeat (split; [auto; fail|]). split.
      * intros Hs. rewrite (Hunused Hs). repeat split.
      * intros Hs. destruct (Hused Hs) as (sr & -> & Hin & Hid).
        exists sr. repeat split; assumption.
Qed.

(** The statement of X16 on the world in which 10000 has been redeemed. *)
Lemma codes_listed_once_newest_first_witness :
  admin_codes no_faults (database played_world)
    (listed (firstn 100 (order_by_created_at_desc (left_join (database played_world))))).
Proof.
  apply (codes_listed_once_newest_first played_world no_faults).
  - exact reachable_played_world.
  - reflexivity.
Defined.

End ListingFacts.

(** ** Concurrent redemptions: exactly once *)

Module ConcurrentFacts.

Import Store Server Ledger Concurrent LedgerFacts Samples ConcurrentSamples.

(** *** Lists of handlers *)

Lemma nth_error_middle {A} (l : list A) (k : nat) (a : A) :
  nth_error l k = Some a -> l = firstn k l ++ a :: skipn (S k) l.
Proof.
  revert l. induction k as [|k IH]; intros [|x l] H; try discriminate.
  - injection H as ->. reflexivity.
  - cbn [firstn skipn app]. f_equal. apply IH. exact H.
Qed.

Lemma held_by_app (pre post : list Handler) :
  held_by (pre ++ post) = held_by pre ++ held_by post.
Proof. apply flat_map_app. Qed.

Lemma held_by_middle (pre post : list Handler) (h : Handler) :
  Permutation.Permutation (held_by (pre ++ h :: post))
    (locked h ++ held_by (pre ++ post)).
Proof.
  rewrite !held_by_app. change (held_by (h :: post)) with (locked h ++ held_by post).
  apply Permutation.Permutation_app_swap_app.
Qed.

Lemma In_held_by (i : Z) (hs : list Handler) :
  In i (held_by hs) <-> exists h, In h hs /\ In i (locked h).
Proof. apply in_flat_map. Qed.

Lemma successes_app (c : string) (pre post : list Handler) :
  successes c (pre ++ post) = (successes c pre + successes c post)%nat.
Proof. unfold successes. rewrite filter_app, length_app. reflexivity. Qed.

Lemma successes_cons (c : string) (h : Handler) (hs : list Handler) :
  successes c (h :: hs)
  = ((if succeeded h && asks c h then 1 else 0) + successes c hs)%nat.
Proof.
  unfold successes. cbn [filter]. destruct (succeeded h && asks c h); reflexivity.
Qed.

Lemma successes_middle (c : string) (pre post : list Handler) (h : Handler) :
  successes c (pre ++ h :: post)
  = ((if succeeded h && asks c h then 1 else 0) + successes c (pre ++ post))%nat.
Proof. rewrite !successes_app, successes_cons. lia. Qed.

(** *** The rows of a code *)

Lemma mark_used_used now i row :
  SpinCode.status row = used -> SpinCode.status (mark_used now i row) = used.
Proof.
  intros Hused. unfold mark_used. destruct (SpinCode.id row =? i); [reflexivity|exact Hused].
Qed.

Lemma codes_of_marked c now i codes results cseq rseq results' cseq' rseq' :
  codes_of c (mkDatabase (map (mark_used now i) codes) results cseq rseq)
  = map (mark_used now i) (codes_of c (mkDatabase codes results' cseq' rseq')).
Proof.
  unfold codes_of. cbn [spin_codes]. induction codes as [|row codes IH]; [reflexivity|].
  cbn [map filter]. rewrite mark_used_code, IH.
  destruct (String.eqb (SpinCode.code row) c); reflexivity.
Qed.

Lemma map_mark_used_absent now i codes :
  ~ In i (map SpinCode.id codes) -> map (mark_used now i) codes = codes.
Proof.
  induction codes as [|row codes IH]; intros Hnotin; [reflexivity|].
  cbn [map] in *. rewrite mark_used_other, IH; [reflexivity| |]; intros H; apply Hnotin;
    [right; exact H|left; exact H].
Qed.

Lemma used_rows_same_codes c db db' :
  spin_codes db' = spin_codes db -> used_rows c db' = used_rows c db.
Proof. intros H. unfold used_rows, codes_of. rewrite H. reflexivity. Qed.

Lemma used_rows_committed c now cd db results cseq rseq :
  NoDup (map SpinCode.id (spin_codes db)) ->
  In cd (spin_codes db) -> SpinCode.status cd = unused ->
  used_rows c (mkDatabase (map (mark_used now (SpinCode.id cd)) (spin_codes db))
                 results cseq rseq)
  = (used_rows c db + if String.eqb (SpinCode.code cd) c then 1 else 0)%nat.
Proof.
  unfold used_rows, codes_of. cbn [spin_codes].
  induction (spin_codes db) as [|row codes IH]; intros Hnodup Hin Hunused;
    [contradiction|].
  cbn [map] in Hnodup. inversion Hnodup as [|x l Hnotin Hrest]; subst.
  destruct Hin as [->|Hin].
  - cbn [map]. rewrite (map_mark_used_absent now _ codes Hnotin), mark_used_same.
    cbn [filter SpinCode.code].
    destruct (String.eqb (SpinCode.code cd) c); cbn [filter SpinCode.status is_used];
      rewrite ?Hunused; cbn [is_used List.length]; lia.
  - assert (Hne : SpinCode.id row <> SpinCode.id cd).
    { intros Heq. apply Hnotin. rewrite Heq. apply in_map. exact Hin. }
    cbn [map]. rewrite (mark_used_other now _ row Hne). cbn [filter].
    destruct (String.eqb (SpinCode.code row) c); cbn [filter];
      [destruct (is_used (SpinCode.status row)); cbn [List.length]|];
      rewrite (IH Hrest Hin Hunused); lia.
Qed.

(** The commit of a redemption keeps the tables consistent. *)
Lemma consistent_committed now t sr db rseq :
  consistent db -> In t (spin_codes db) -> SpinCode.status t = unused ->
  SpinResult.code_id sr = SpinCode.id t ->
  consistent (mkDatabase (map (mark_used now (SpinCode.id t)) (spin_codes db))
                (spin_results db ++ [sr]) (spin_codes_id_seq db) rseq).
Proof.
  intros [Hseq Hids Hcodes Hrefer Hone Hat] Hin Hunused Hsr.
  constructor; simpl.
  - intros c Hc. apply in_map_iff in Hc. destruct Hc as (c0 & <- & Hc0).
    rewrite mark_used_id. apply Hseq. exact Hc0.
  - rewrite map_id_mark_used. exact Hids.
  - rewrite map_code_mark_used. exact Hcodes.
  - intros r Hr. apply in_app_iff in Hr. destruct Hr as [Hr|[<-|[]]].
    + destruct (Hrefer r Hr) as (c & Hc & Hid).
      exists (mark_used now (SpinCode.id t) c). split; [apply in_map; exact Hc|].
      rewrite mark_used_id. exact Hid.
    + exists (mark_used now (SpinCode.id t) t). split; [apply in_map; exact Hin|].
      rewrite mark_used_id. symmetry. exact Hsr.
  - intros c Hc. apply in_map_iff in Hc. destruct Hc as (c0 & <- & Hc0).
    rewrite mark_used_id, results_of_app. simpl. rewrite length_app.
    change (results_of (SpinCode.id c0) _) with (results_of (SpinCode.id c0) db).
    rewrite (Hone c0 Hc0), Hsr.
    destruct (Z.eqb_spec (SpinCode.id t) (SpinCode.id c0)) as [Heq|Hne].
    + assert (c0 = t) as ->
        by (apply (NoDup_map_injective SpinCode.id (spin_codes db)); auto).
      rewrite mark_used_same, Hunused. reflexivity.
    + rewrite mark_used_other by congruence. simpl. lia.
  - intros c Hc. apply in_map_iff in Hc. destruct Hc as (c0 & <- & Hc0).
    destruct (Z.eq_dec (SpinCode.id c0) (SpinCode.id t)) as [Heq|Hne].
    + rewrite <- Heq, mark_used_same. simpl. split; [reflexivity|discriminate].
    + rewrite mark_used_other by assumption. apply Hat. exact Hc0.
Qed.

Lemma codes_kept_committed d0 now t db results cseq rseq :
  consistent db -> In t (spin_codes db) -> SpinCode.status t = unused ->
  codes_kept d0 db ->
  codes_kept d0 (mkDatabase (map (mark_used now (SpinCode.id t)) (spin_codes db))
                   results cseq rseq).
Proof.
  intros Hcons Hin Hunused Hkept c Hc.
  destruct (Hkept c Hc) as (c' & Hc' & Hid & Hcode & Hused).
  exists (mark_used now (SpinCode.id t) c'). cbn [spin_codes].
  split; [apply in_map; exact Hc'|]. rewrite mark_used_id, mark_used_code.
  split; [exact Hid|]. split; [exact Hcode|].
  intros Hu. specialize (Hused Hu). subst c'. apply mark_used_other. intros Heq.
  assert (c = t)
    by (apply (NoDup_map_injective SpinCode.id (spin_codes db)); auto;
        apply (ids_unique db Hcons)).
  congruence.
Qed.


(** *** The stages *)

Lemma stage_ok_same_codes db db' h :
  spin_codes db' = spin_codes db -> stage_ok db h -> stage_ok db' h.
Proof.
  intros H. unfold stage_ok, holds_row, justified, codes_of. rewrite H. auto.
Qed.

Lemma holds_row_committed db h cd now i results cseq rseq :
  ~ In i (locked h) -> holds_row db h cd ->
  holds_row (mkDatabase (map (mark_used now i) (spin_codes db)) results cseq rseq)
    h cd.
Proof.
  intros Hfree (Hvalid & Hin & Hunused & Hcode & Hlock).
  split; [exact Hvalid|]. split; [|auto]. cbn [spin_codes].
  rewrite <- (mark_used_other now i cd) by (intros Heq; apply Hfree; congruence).
  apply in_map. exact Hin.
Qed.

Lemma justified_committed db h response now i results cseq rseq :
  justified db h response ->
  justified (mkDatabase (map (mark_used now i) (spin_codes db)) results cseq rseq)
    h response.
Proof.
  intros [Hinvalid|[Hthrows|[(Hr & Hvalid & Hnone)
                                  |(Hr & Hvalid & row & Hin & Hcode & Hused)]]].
  - left. exact Hinvalid.
  - right. left. exact Hthrows.
  - right. right. left. split; [exact Hr|]. split; [exact Hvalid|].
    rewrite (codes_of_marked _ now i (spin_codes db) results cseq rseq
               (spin_results db) (spin_codes_id_seq db) (spin_results_id_seq db)).
    destruct db. cbn [spin_codes spin_results spin_codes_id_seq spin_results_id_seq] in *.
    rewrite Hnone. reflexivity.
  - right. right. right. split; [exact Hr|]. split; [exact Hvalid|].
    exists (mark_used now i row). cbn [spin_codes].
    split; [apply in_map; exact Hin|]. rewrite mark_used_code.
    split; [exact Hcode|apply mark_used_used; exact Hused].
Qed.

Lemma stage_ok_committed db h now i results cseq rseq :
  ~ In i (locked h) -> stage_ok db h ->
  stage_ok (mkDatabase (map (mark_used now i) (spin_codes db)) results cseq rseq) h.
Proof.
  intros Hfree [Hown Hstage]. split.
  - eapply Forall_impl; [|exact Hown]. cbn. intros j (row & Hin & Hid & Hcode).
    exists (mark_used now i row). cbn [spin_codes].
    split; [apply in_map; exact Hin|]. rewrite mark_used_id, mark_used_code. auto.
  - destruct (stage h) as [| | |cd o|cd o|cd sr|r|r]; try exact Hstage.
    + destruct Hstage as [Hrow Ho]. split; [|exact Ho].
      apply holds_row_committed; assumption.
    + apply holds_row_committed; assumption.
    + destruct Hstage as [Hrow Hsr]. split; [|exact Hsr].
      apply holds_row_committed; assumption.
    + apply justified_committed. exact Hstage.
    + destruct Hstage as [Hnil [Hj|Hs]]; (split; [exact Hnil|]);
        [left; apply justified_committed; exact Hj|right; exact Hs].
Qed.

Lemma justified_not_success db h response :
  justified db h response -> is_success (inr response) = false.
Proof.
  intros [[-> _]|[[-> _]|[(-> & _)|(-> & _)]]]; reflexivity.
Qed.

(** *** The invariant *)

Lemma invariant_parts d0 requests db g pre h post :
  invariant d0 requests (mkState db g (pre ++ h :: post)) ->
  consistent db /\ codes_kept d0 db
  /\ NoDup (locked h ++ held_by (pre ++ post))
  /\ Forall (stage_ok db) (pre ++ post) /\ stage_ok db h
  /\ forall c, ((if succeeded h && asks c h then 1 else 0)
                + successes c (pre ++ post) + used_rows c d0)%nat
               = used_rows c db.
Proof.
  intros [Hcons Hkept Hreq Hlocks Hstages Hcount].
  cbn [committed handlers] in *.
  split; [exact Hcons|]. split; [exact Hkept|]. split.
  { apply (Permutation.Permutation_NoDup (held_by_middle pre post h)). exact Hlocks. }
  apply Forall_app in Hstages. destruct Hstages as [Hpre Hpost].
  inversion Hpost as [|x l Hh Hpost']; subst.
  split; [apply Forall_app; split; assumption|]. split; [exact Hh|].
  intros c. rewrite <- Hcount, successes_middle. reflexivity.
Qed.

Lemma invariant_rebuild d0 requests db g pre h post db' g' h' :
  invariant d0 requests (mkState db g (pre ++ h :: post)) ->
  consistent db' -> codes_kept d0 db' ->
  code h' = code h -> now h' = now h ->
  NoDup (locked h' ++ held_by (pre ++ post)) ->
  Forall (stage_ok db') (pre ++ post) -> stage_ok db' h' ->
  (forall c, ((if succeeded h' && asks c h' then 1 else 0)
              + successes c (pre ++ post) + used_rows c d0)%nat
             = used_rows c db') ->
  invariant d0 requests (mkState db' g' (pre ++ h' :: post)).
Proof.
  intros [_ _ Hreq _ _ _] Hcons Hkept Hcode Hnow Hlocks Hstages Hh Hcount.
  cbn [committed handlers] in *. constructor; cbn [committed handlers].
  - exact Hcons.
  - exact Hkept.
  - rewrite <- Hreq, !map_app. cbn [map]. rewrite Hcode, Hnow. reflexivity.
  - apply (Permutation.Permutation_NoDup
             (Permutation.Permutation_sym (held_by_middle pre post h'))).
    exact Hlocks.
  - apply Forall_app in Hstages. destruct Hstages as [Hpre Hpost].
    apply Forall_app. split; [exact Hpre|]. constructor; assumption.
  - intros c. rewrite <- Hcount, successes_middle. reflexivity.
Qed.


Lemma NoDup_ids_codes_of c db :
  NoDup (map SpinCode.id (spin_codes db)) -> NoDup (map SpinCode.id (codes_of c db)).
Proof.
  unfold codes_of. induction (spin_codes db) as [|row codes IH]; intros Hnodup;
    [constructor|].
  cbn [map] in Hnodup. inversion Hnodup as [|x l Hnotin Hrest]; subst.
  cbn [filter]. destruct (String.eqb (SpinCode.code row) c); [|apply IH; exact Hrest].
  cbn [map]. constructor; [|apply IH; exact Hrest].
  intros Hin. apply Hnotin. apply in_map_iff in Hin.
  destruct Hin as (r & Hid & Hr). apply filter_In in Hr. destruct Hr as [Hr _].
  rewrite <- Hid. apply in_map. exact Hr.
Qed.

Lemma not_locked_by_others (rows : list SpinCode.t) (held : list Z) :
  existsb (fun row => existsb (Z.eqb (SpinCode.id row)) held) rows = false ->
  forall i, In i (map SpinCode.id rows) -> ~ In i held.
Proof.
  intros Hfree i Hi Hheld. apply in_map_iff in Hi. destruct Hi as (row & <- & Hrow).
  assert (Htrue : existsb (fun row => existsb (Z.eqb (SpinCode.id row)) held) rows = true).
  { apply existsb_exists. exists row. split; [exact Hrow|].
    apply existsb_exists. exists (SpinCode.id row). split; [exact Hheld|apply Z.eqb_refl]. }
  congruence.
Qed.

Lemma locks_own_rows db (h : Handler) c :
  Forall (fun i => exists row, In row (spin_codes db) /\ SpinCode.id row = i
                               /\ SpinCode.code row = c)
    (map SpinCode.id (codes_of c db)).
Proof.
  apply Forall_forall. intros i Hi. apply in_map_iff in Hi.
  destruct Hi as (row & <- & Hrow). apply codes_of_In in Hrow. destruct Hrow as [Hin Hcode].
  exists row. auto.
Qed.

Lemma selectWeightedOutcome_some (g : Js.Rng) :
  fst (Selector.selectWeightedOutcome g) <> None.
Proof.
  destruct (GeneratorFacts.select_spin_outcomes (Js.draws g (Js.cursor g)))
    as (o & Ho & _).
  unfold Selector.selectWeightedOutcome, Selector.selectWeightedOutcomeOf.
  cbn [Js.Math_random fst]. congruence.
Qed.


Lemma NoDup_app_In {A} (l l' : list A) (a : A) :
  NoDup (l ++ l') -> In a l -> ~ In a l'.
Proof.
  induction l as [|x l IH]; intros Hnodup Hin Hin'; [contradiction|].
  cbn [app] in Hnodup. inversion Hnodup as [|y m Hnotin Hrest]; subst.
  destruct Hin as [->|Hin].
  - apply Hnotin. apply in_or_app. right. exact Hin'.
  - exact (IH Hrest Hin Hin').
Qed.

(** A step keeps the invariant. *)
Lemma step_invariant d0 requests db g pre h post db' g' h' :
  invariant d0 requests (mkState db g (pre ++ h :: post)) ->
  step db g (held_by (pre ++ post)) (checked_out (pre ++ post)) h
  = Some (db', g', h') ->
  invariant d0 requests (mkState db' g' (pre ++ h' :: post)).
Proof.
  intros Hinv Hstep.
  destruct (invariant_parts _ _ _ _ _ _ _ Hinv)
    as (Hcons & Hkept & Hlocks & Hothers & [Hown Hh] & Hcount).
  assert (Hfree : NoDup (held_by (pre ++ post)))
    by (apply NoDup_app_remove_l in Hlocks; exact Hlocks).
  assert (Hquiet : forall c, succeeded h = false ->
             (0 + successes c (pre ++ post) + used_rows c d0)%nat = used_rows c db).
  { intros c Hs. rewrite <- Hcount, Hs. reflexivity. }
  unfold step in Hstep. unfold succeeded in Hquiet.
  destruct (stage h) as [| | |cd o|cd o|cd sr|r|r] eqn:Hstage.
  - (* Connecting *)
    destruct (max_clients <=? checked_out (pre ++ post))%nat; [discriminate|].
    injection Hstep as <- <- <-.
    apply (invariant_rebuild _ _ _ _ _ _ _ _ g _ Hinv);
      [exact Hcons|exact Hkept|reflexivity|reflexivity|exact Hfree|exact Hothers| |].
    + split; [constructor|reflexivity].
    + intros c. apply Hquiet. reflexivity.
  - (* Beginning *)
    destruct (invalid_format (code h)) as [[|]|] eqn:Hformat;
      injection Hstep as <- <- <-;
      (apply (invariant_rebuild _ _ _ _ _ _ _ _ g _ Hinv);
       [exact Hcons|exact Hkept|reflexivity|reflexivity|exact Hfree|exact Hothers| |]).
    + split; [constructor|]. left. split; [reflexivity|exact Hformat].
    + intros c. apply Hquiet. reflexivity.
    + split; [constructor|]. split; [reflexivity|exact Hformat].
    + intros c. apply Hquiet. reflexivity.
    + split; [constructor|]. right. left. split; [reflexivity|exact Hformat].
    + intros c. apply Hquiet. reflexivity.
  - (* Selecting *)
    destruct Hh as [Hnil Hformat].
    destruct (existsb _ (codes_of (Js.text_of (code h)) db)) eqn:Hblocked;
      [discriminate|].
    pose proof (not_locked_by_others _ _ Hblocked) as Hmine.
    assert (Hnew : NoDup (map SpinCode.id (codes_of (Js.text_of (code h)) db)
                          ++ held_by (pre ++ post))).
    { apply NoDup_app; [apply NoDup_ids_codes_of, (ids_unique _ Hcons)|exact Hfree|].
      exact Hmine. }
    pose proof (locks_own_rows db h (Js.text_of (code h))) as Hrows_own.
    destruct (codes_of (Js.text_of (code h)) db) as [|cd rest] eqn:Hrows.
    + injection Hstep as <- <- <-.
      apply (invariant_rebuild _ _ _ _ _ _ _ _ g _ Hinv);
        [exact Hcons|exact Hkept|reflexivity|reflexivity|exact Hfree|exact Hothers| |].
      * split; [constructor|]. right. right. left. cbn [code]. rewrite Hrows. auto.
      * intros c. apply Hquiet. reflexivity.
    + destruct (codes_of_head _ _ _ _ Hrows) as [Hin Hcode].
      destruct (is_used (SpinCode.status cd)) eqn:Hused.
      * injection Hstep as <- <- <-.
        apply (invariant_rebuild _ _ _ _ _ _ _ _ g _ Hinv);
          [exact Hcons|exact Hkept|reflexivity|reflexivity|exact Hnew|exact Hothers| |].
        -- split; [exact Hrows_own|]. right. right. right. split; [reflexivity|].
           split; [exact Hformat|]. exists cd. split; [exact Hin|].
           split; [exact Hcode|]. destruct (SpinCode.status cd); [discriminate|reflexivity].
        -- intros c. apply Hquiet. reflexivity.
      * pose proof (selectWeightedOutcome_some g) as Hsome.
        destruct (Selector.selectWeightedOutcome g) as [outcome g1].
        injection Hstep as <- <- <-.
        apply (invariant_rebuild _ _ _ _ _ _ _ _ g1 _ Hinv);
          [exact Hcons|exact Hkept|reflexivity|reflexivity|exact Hnew|exact Hothers| |].
        -- split; [exact Hrows_own|]. split; [|exact Hsome].
           split; [exact Hformat|]. split; [exact Hin|].
           split; [destruct (SpinCode.status cd); [reflexivity|discriminate]|].
           split; [exact Hcode|]. left. reflexivity.
        -- intros c. apply Hquiet. reflexivity.
  - (* Updating *)
    destruct Hh as [Hrow Ho]. destruct o as [o|]; [|congruence].
    injection Hstep as <- <- <-.
    apply (invariant_rebuild _ _ _ _ _ _ _ _ g _ Hinv);
      [exact Hcons|exact Hkept|reflexivity|reflexivity|exact Hlocks|exact Hothers| |].
    + split; [exact Hown|exact Hrow].
    + intros c. apply Hquiet. reflexivity.
  - (* Inserting *)
    injection Hstep as <- <- <-.
    apply (invariant_rebuild _ _ _ _ _ _ _ _ g _ Hinv);
      [apply consistent_counter; exact Hcons|exact Hkept|reflexivity|reflexivity
      |exact Hlocks|exact Hothers| |].
    + split; [exact Hown|]. split; [exact Hh|reflexivity].
    + intros c. apply Hquiet. reflexivity.
  - (* Committing *)
    destruct Hh as [(Hformat & Hin & Hunused & Hcode & Hlock) Hsr].
    injection Hstep as <- <- <-.
    assert (Hnotheld : ~ In (SpinCode.id cd) (held_by (pre ++ post)))
      by (apply (NoDup_app_In _ _ _ Hlocks Hlock)).
    apply (invariant_rebuild _ _ _ _ _ _ _ _ g _ Hinv);
      [apply consistent_committed; assumption
      |apply codes_kept_committed; assumption
      |reflexivity|reflexivity|exact Hfree| | |].
    + apply Forall_forall. intros a Ha. apply stage_ok_committed.
      * intros Hheld. apply Hnotheld. apply In_held_by. exists a. auto.
      * rewrite Forall_forall in Hothers. apply Hothers. exact Ha.
    + split; [constructor|]. split; [reflexivity|]. right.
      split; [reflexivity|exact Hformat].
    + intros c.
      rewrite used_rows_committed by (try apply (ids_unique _ Hcons); assumption).
      rewrite <- (Hquiet c eq_refl). unfold succeeded, asks. cbn [stage code].
      rewrite Hformat, Hcode.
      change (is_success _) with true. cbn [andb].
      destruct (String.eqb (Js.text_of (code h)) c); lia.
  - (* RollingBack *)
    injection Hstep as <- <- <-.
    apply (invariant_rebuild _ _ _ _ _ _ _ _ g _ Hinv);
      [exact Hcons|exact Hkept|reflexivity|reflexivity|exact Hfree|exact Hothers| |].
    + split; [constructor|]. split; [reflexivity|]. left. exact Hh.
    + intros c. unfold succeeded. cbn [stage].
      rewrite (justified_not_success _ _ _ Hh). apply Hquiet. reflexivity.
  - discriminate.
Qed.


Lemma advance_cases k st st' :
  advance k st = Some st' ->
  exists h db g h',
    nth_error (handlers st) k = Some h
    /\ handlers st = firstn k (handlers st) ++ h :: skipn (S k) (handlers st)
    /\ step (committed st) (generator st)
         (held_by (firstn k (handlers st) ++ skipn (S k) (handlers st)))
         (checked_out (firstn k (handlers st) ++ skipn (S k) (handlers st))) h
       = Some (db, g, h')
    /\ st' = mkState db g (firstn k (handlers st) ++ h' :: skipn (S k) (handlers st)).
Proof.
  unfold advance. destruct (nth_error (handlers st) k) as [h|] eqn:Hnth; [|discriminate].
  destruct (step _ _ _ _ h) as [[[db g] h']|] eqn:Hstep; [|discriminate].
  intros [= <-]. exists h, db, g, h'. split; [reflexivity|].
  split; [apply nth_error_middle; exact Hnth|]. split; [exact Hstep|reflexivity].
Qed.

Lemma advance_invariant d0 requests k st st' :
  invariant d0 requests st -> advance k st = Some st' -> invariant d0 requests st'.
Proof.
  intros Hinv Hadv.
  destruct (advance_cases k st st' Hadv) as (h & db & g & h' & _ & Hsplit & Hstep & ->).
  apply (step_invariant d0 requests (committed st) (generator st) _ h _ db g h');
    [|exact Hstep].
  rewrite <- Hsplit. destruct st. exact Hinv.
Qed.

Lemma run_invariant d0 requests schedule st st' :
  invariant d0 requests st -> run schedule st = Some st' -> invariant d0 requests st'.
Proof.
  revert st. induction schedule as [|k schedule IH]; intros st Hinv Hrun.
  - injection Hrun as <-. exact Hinv.
  - cbn [run] in Hrun. destruct (advance k st) as [st1|] eqn:Hadv; [|discriminate].
    apply (IH st1); [|exact Hrun]. apply (advance_invariant _ _ k st); assumption.
Qed.

Lemma codes_kept_same db : codes_kept db db.
Proof. intros c Hc. exists c. auto. Qed.

Lemma arrive_invariant w requests :
  consistent (database w) -> invariant (database w) requests (arrive w requests).
Proof.
  intros Hcons. unfold arrive. constructor; cbn [committed handlers].
  - exact Hcons.
  - apply codes_kept_same.
  - rewrite map_map. cbn [code now]. rewrite <- (map_id requests) at 2.
    apply map_ext. intros [c t]. reflexivity.
  - induction requests as [|r requests IH]; [constructor|exact IH].
  - apply Forall_forall. intros h Hh. apply in_map_iff in Hh.
    destruct Hh as (r & <- & _). split; [constructor|reflexivity].
  - intros c. assert (Hzero : successes c
                        (map (fun request => mkHandler (fst request) (snd request)
                                               Connecting []) requests) = 0%nat).
    { unfold successes. induction requests as [|r requests IH]; [reflexivity|exact IH]. }
    rewrite Hzero. reflexivity.
Qed.

(** When all the handlers have responded, a stored code that was unused
    and that some handler was asked for has been redeemed by exactly one
    of them. *)
Lemma invariant_redeems_once (d0 : Database)
  (requests : list (Js.Value * Timestamp)) (st : State) :
  consistent d0 ->
  invariant d0 requests st ->
  forallb responded (handlers st) = true ->
  forall c0,
    In c0 (spin_codes d0) -> SpinCode.status c0 = unused ->
    (exists h, In h (handlers st) /\ asks (SpinCode.code c0) h = true) ->
    successes (SpinCode.code c0) (handlers st) = 1%nat
    /\ (forall h,
           In h (handlers st) -> asks (SpinCode.code c0) h = true ->
           succeeded h = true \/ stage h = Responded AlreadyUsed)
    /\ exists row,
        In row (spin_codes (committed st))
        /\ SpinCode.id row = SpinCode.id c0
        /\ SpinCode.code row = SpinCode.code c0
        /\ SpinCode.status row = used
        /\ List.length (results_of (SpinCode.id c0) (committed st)) = 1%nat
        /\ results_of (SpinCode.id c0) d0 = [].
Proof.
  intros Hcons0 [Hcons Hkept Hreq Hlocks Hstages Hcount].
  intros Hdone c0 Hc0 Hunused0 (h0 & Hh0 & Hasks0).
  destruct (Hkept c0 Hc0) as (row & Hrow & Hid & Hcode & _).
  pose proof (codes_of_unique _ row (codes_unique _ Hcons) Hrow) as Hrows.
  rewrite Hcode in Hrows.
  pose proof (codes_of_unique _ c0 (codes_unique _ Hcons0) Hc0) as Hrows0.
  assert (Hanswer : forall h,
             In h (handlers st) -> asks (SpinCode.code c0) h = true ->
             (succeeded h = true \/ stage h = Responded AlreadyUsed)
             /\ (succeeded h = true \/ SpinCode.status row = used)).
  { intros h Hh Hasks. unfold asks in Hasks.
    destruct (invalid_format (code h)) as [[|]|] eqn:Hformat; try discriminate.
    rename Hasks into Htext. apply String.eqb_eq in Htext.
    rewrite forallb_forall in Hdone. specialize (Hdone h Hh).
    rewrite Forall_forall in Hstages. destruct (Hstages h Hh) as [_ Hstage].
    unfold responded in Hdone. unfold succeeded.
    destruct (stage h) as [| | |cd o|cd o|cd sr|r|r]; try discriminate.
    destruct Hstage as [_ [[[-> Hinvalid]
                           |[[-> Hthrows]
                            |[(-> & _ & Hnone)|(-> & _ & r0 & Hr0 & Hcode0 & Hused0)]]]
                          |[Hsuccess _]]].
    - congruence.
    - congruence.
    - rewrite Htext, Hrows in Hnone. discriminate.
    - split; [right; reflexivity|right].
      rewrite Htext in Hcode0.
      assert (Hin0 : In r0 (codes_of (SpinCode.code c0) (committed st)))
        by (apply codes_of_In; split; assumption).
      rewrite Hrows in Hin0. destruct Hin0 as [<-|[]]. exact Hused0.
    - split; left; exact Hsuccess. }
  assert (Hnone0 : used_rows (SpinCode.code c0) d0 = 0%nat).
  { unfold used_rows. rewrite Hrows0. cbn [filter]. rewrite Hunused0. reflexivity. }
  specialize (Hcount (SpinCode.code c0)). rewrite Hnone0 in Hcount.
  unfold used_rows in Hcount. rewrite Hrows in Hcount. cbn [filter] in Hcount.
  assert (Hused : SpinCode.status row = used).
  { destruct (Hanswer h0 Hh0 Hasks0) as [_ [Hs|Hu]]; [|exact Hu].
    destruct (SpinCode.status row); [|reflexivity].
    cbn [is_used List.length] in Hcount.
    assert (Hpos : (0 < successes (SpinCode.code c0) (handlers st))%nat).
    { unfold successes.
      assert (Hin : In h0 (filter (fun h => succeeded h && asks (SpinCode.code c0) h)
                             (handlers st)))
        by (apply filter_In; split; [exact Hh0|rewrite Hs, Hasks0; reflexivity]).
      destruct (filter _ (handlers st)); [contradiction|cbn [List.length]; lia]. }
    lia. }
  rewrite Hused in Hcount. cbn [is_used List.length] in Hcount.
  split; [lia|]. split; [intros h Hh Hasks; apply (Hanswer h Hh Hasks)|].
  exists row. split; [exact Hrow|]. split; [exact Hid|]. split; [exact Hcode|].
  split; [exact Hused|]. split.
  - rewrite <- Hid, (one_result_iff_used _ Hcons row Hrow), Hused. reflexivity.
  - pose proof (one_result_iff_used _ Hcons0 c0 Hc0) as Hone. rewrite Hunused0 in Hone.
    cbn [is_used] in Hone. destruct (results_of _ d0); [reflexivity|discriminate].
Qed.


(** X17. Requests of [POST /spin/play] served concurrently, their
    statements executed in any order in which a [SELECT ... FOR UPDATE]
    waits for the lock of its row, redeem each code once: the tables stay
    consistent at every step, and when all have answered, of the requests
    for a stored code that was unused exactly one has answered with a
    prize and each of the others with [Code already used], and one result
    refers to the code, which is used. *)
Theorem concurrent_redeems_exactly_once (w : World)
  (requests : list (Js.Value * Timestamp)) (schedule : list nat) (st : State) :
  reachable w ->
  run schedule (arrive w requests) = Some st ->
  consistent (committed st)
  /\ map (fun h => (code h, now h)) (handlers st) = requests
  /\ (forallb responded (handlers st) = true ->
      forall c0,
        In c0 (spin_codes (database w)) -> SpinCode.status c0 = unused ->
        (exists h, In h (handlers st) /\ asks (SpinCode.code c0) h = true) ->
        successes (SpinCode.code c0) (handlers st) = 1%nat
        /\ (forall h,
               In h (handlers st) -> asks (SpinCode.code c0) h = true ->
               succeeded h = true \/ stage h = Responded AlreadyUsed)
        /\ exists row,
            In row (spin_codes (committed st))
            /\ SpinCode.id row = SpinCode.id c0
            /\ SpinCode.code row = SpinCode.code c0
            /\ SpinCode.status row = used
            /\ List.length (results_of (SpinCode.id c0) (committed st)) = 1%nat
            /\ results_of (SpinCode.id c0) (database w) = []).
Proof.
  intros Hreach Hrun.
  assert (Hcons0 : consistent (database w)) by (apply reachable_consistent, Hreach).
  pose proof (run_invariant _ _ _ _ _ (arrive_invariant w requests Hcons0) Hrun)
    as Hinv.
  split; [exact (inv_consistent _ _ _ Hinv)|].
  split; [exact (inv_requests _ _ _ Hinv)|].
  exact (invariant_redeems_once (database w) requests st Hcons0 Hinv).
Qed.


(** The statement of X17 on two requests for the code 55000, the second
    of which waits for the first. *)
Lemma concurrent_redeems_exactly_once_witness :
  run interleaved (arrive issued_world two_requests) = Some raced
  /\ successes "55000" (handlers raced) = 1%nat.
Proof.
  assert (Hrun : run interleaved (arrive issued_world two_requests) = Some raced)
    by (vm_compute; reflexivity).
  assert (Hall : forallb responded (handlers raced) = true)
    by (vm_compute; reflexivity).
  assert (Hasks : existsb (asks "55000") (handlers raced) = true)
    by (vm_compute; reflexivity).
  split; [exact Hrun|].
  destruct (concurrent_redeems_exactly_once issued_world two_requests interleaved
              raced reachable_issued_world Hrun) as (_ & _ & Hdone).
  apply (Hdone Hall (SpinCode.mk 2 "55000" unused 100 None)).
  - right. left. reflexivity.
  - reflexivity.
  - apply existsb_exists in Hasks. exact Hasks.
Defined.

(** *** Waiting and progress *)

Lemma In_firstn_nth {A} (k : nat) (l : list A) (a : A) :
  In a (firstn k l) -> exists j, (j < k)%nat /\ nth_error l j = Some a.
Proof.
  revert l. induction k as [|k IH]; intros [|x l] Hin; try contradiction.
  cbn [firstn] in Hin. destruct Hin as [->|Hin].
  - exists 0%nat. split; [lia|reflexivity].
  - destruct (IH l Hin) as (j & Hj & Hnth). exists (S j). split; [lia|exact Hnth].
Qed.

Lemma In_skipn_nth {A} (k : nat) (l : list A) (a : A) :
  In a (skipn k l) -> exists j, (k <= j)%nat /\ nth_error l j = Some a.
Proof.
  revert l. induction k as [|k IH]; intros l Hin.
  - apply In_nth_error in Hin. destruct Hin as [j Hj]. exists j. split; [lia|exact Hj].
  - destruct l as [|x l]; [contradiction|]. cbn [skipn] in Hin.
    destruct (IH l Hin) as (j & Hj & Hnth). exists (S j). split; [lia|exact Hnth].
Qed.

Lemma In_others_nth {A} (k : nat) (l : list A) (a : A) :
  In a (firstn k l ++ skipn (S k) l) -> exists j, j <> k /\ nth_error l j = Some a.
Proof.
  intros Hin. apply in_app_or in Hin. destruct Hin as [Hpre|Hpost].
  - destruct (In_firstn_nth _ _ _ Hpre) as (j & Hlt & Hj). exists j. split; [lia|exact Hj].
  - destruct (In_skipn_nth _ _ _ Hpost) as (j & Hle & Hj). exists j. split; [lia|exact Hj].
Qed.

(** *** The clients of the pool *)

Lemma checked_out_app (pre post : list Handler) :
  checked_out (pre ++ post) = (checked_out pre + checked_out post)%nat.
Proof. unfold checked_out. rewrite filter_app, length_app. reflexivity. Qed.

Lemma checked_out_middle (pre post : list Handler) (h : Handler) :
  checked_out (pre ++ h :: post)
  = ((if holds_client h then 1 else 0) + checked_out (pre ++ post))%nat.
Proof.
  rewrite !checked_out_app. unfold checked_out at 2. cbn [filter].
  destruct (holds_client h); cbn [List.length]; fold (checked_out post); lia.
Qed.

Lemma checked_out_length (hs : list Handler) : (checked_out hs <= List.length hs)%nat.
Proof. apply filter_length_le. Qed.

Lemma checked_out_holder (hs : list Handler) :
  (0 < checked_out hs)%nat -> exists h, In h hs /\ holds_client h = true.
Proof.
  unfold checked_out. destruct (filter holds_client hs) as [|h rest] eqn:Hf;
    cbn [List.length]; [lia|]. intros _.
  assert (Hin : In h (filter holds_client hs)) by (rewrite Hf; left; reflexivity).
  apply filter_In in Hin. exists h. exact Hin.
Qed.

(** A step checks a client out only when the pool has one left, and
    never otherwise. *)
Lemma step_holds_client db g held busy h db' g' h' :
  step db g held busy h = Some (db', g', h') ->
  ((if holds_client h' then 1 else 0) <= (if holds_client h then 1 else 0))%nat
  \/ (busy < max_clients)%nat.
Proof.
  unfold step, holds_client.
  destruct (stage h) as [| | |cd o|cd o|cd sr|r|r]; try discriminate.
  - destruct (Nat.leb_spec max_clients busy); [discriminate|]. intros _. right. assumption.
  - destruct (invalid_format (code h)) as [[|]|]; intros [= <- <- <-]; cbn [stage]; auto.
  - destruct (existsb _ _); [discriminate|].
    destruct (codes_of _ db) as [|cd rest]; [intros [= <- <- <-]; cbn [stage]; auto|].
    destruct (is_used _); [intros [= <- <- <-]; cbn [stage]; auto|].
    destruct (Selector.selectWeightedOutcome g). intros [= <- <- <-]. cbn [stage]. auto.
  - destruct o; intros [= <- <- <-]; cbn [stage]; auto.
  - intros [= <- <- <-]. cbn [stage]. auto.
  - intros [= <- <- <-]. cbn [stage]. auto.
  - intros [= <- <- <-]. cbn [stage]. auto.
Qed.

Lemma advance_checked_out k st st' :
  advance k st = Some st' ->
  (checked_out (handlers st) <= max_clients)%nat ->
  (checked_out (handlers st') <= max_clients)%nat.
Proof.
  intros Hadv Hle.
  destruct (advance_cases k st st' Hadv) as (h & db & g & h' & _ & Hsplit & Hstep & ->).
  rewrite Hsplit in Hle. rewrite checked_out_middle in Hle.
  cbn [handlers]. rewrite checked_out_middle.
  destruct (step_holds_client _ _ _ _ _ _ _ _ Hstep) as [Hsame|Hfree].
  - lia.
  - destruct (holds_client h'); lia.
Qed.

Lemma run_checked_out schedule st st' :
  run schedule st = Some st' ->
  (checked_out (handlers st) <= max_clients)%nat ->
  (checked_out (handlers st') <= max_clients)%nat.
Proof.
  revert st. induction schedule as [|k schedule IH]; intros st Hrun Hle.
  - injection Hrun as <-. exact Hle.
  - cbn [run] in Hrun. destruct (advance k st) as [st1|] eqn:Hadv; [|discriminate].
    apply (IH st1 Hrun). apply (advance_checked_out k st); assumption.
Qed.

Lemma checked_out_arrive w requests : checked_out (handlers (arrive w requests)) = 0%nat.
Proof.
  unfold arrive, checked_out. cbn [handlers].
  induction requests as [|r requests IH]; [reflexivity|exact IH].
Qed.

(** *** What a handler waits for *)

(** A handler that has not responded takes its step unless it awaits a
    client while the pool has none left, or is at its
    [SELECT ... FOR UPDATE] while a row of its code is locked. *)
Lemma step_blocked db g held busy h :
  step db g held busy h = None -> responded h = false ->
  (stage h = Connecting /\ (max_clients <= busy)%nat)
  \/ (stage h = Selecting
      /\ exists row, In row (codes_of (Js.text_of (code h)) db)
                     /\ In (SpinCode.id row) held).
Proof.
  unfold step, responded.
  destruct (stage h) as [| | |cd o|cd o|cd sr|r|r]; try discriminate.
  - destruct (Nat.leb_spec max_clients busy); [|discriminate].
    intros _ _. left. split; [reflexivity|assumption].
  - destruct (invalid_format (code h)) as [[|]|]; discriminate.
  - destruct (existsb _ (codes_of (Js.text_of (code h)) db)) eqn:Hblocked.
    + intros _ _. right. split; [reflexivity|]. apply existsb_exists in Hblocked.
      destruct Hblocked as (row & Hrow & Hheld). exists row. split; [exact Hrow|].
      apply existsb_exists in Hheld. destruct Hheld as (i & Hi & Heq).
      apply Z.eqb_eq in Heq. rewrite Heq. exact Hi.
    + destruct (codes_of _ db) as [|cd rest]; [discriminate|].
      destruct (is_used (SpinCode.status cd)); [discriminate|].
      destruct (Selector.selectWeightedOutcome g). discriminate.
  - destruct o; discriminate.
Qed.

Lemma locked_stage db h :
  stage_ok db h -> locked h <> [] ->
  forall g held busy, step db g held busy h <> None.
Proof.
  intros [_ Hstage] Hlocked g held busy. unfold step.
  destruct (stage h) as [| | |cd o|cd o|cd sr|r|r]; try discriminate;
    try (exfalso; apply Hlocked; tauto).
  destruct o; discriminate.
Qed.

Lemma waits_for_client_or_code d0 requests st k h :
  invariant d0 requests st ->
  nth_error (handlers st) k = Some h -> responded h = false ->
  advance k st = None ->
  (stage h = Connecting /\ (max_clients <= checked_out (handlers st))%nat)
  \/ (stage h = Selecting
      /\ exists j hj,
          j <> k /\ nth_error (handlers st) j = Some hj
          /\ locked hj <> []
          /\ Js.text_of (code hj) = Js.text_of (code h)).
Proof.
  intros [Hcons _ _ _ Hstages _] Hnth Hresp Hadv. unfold advance in Hadv.
  rewrite Hnth in Hadv.
  destruct (step _ _ _ _ h) as [[[db g] h']|] eqn:Hstep; [discriminate|].
  destruct (step_blocked _ _ _ _ _ Hstep Hresp)
    as [[Hstage Hbusy]|(Hstage & row & Hrow & Hheld)].
  - left. split; [exact Hstage|].
    rewrite (nth_error_middle _ _ _ Hnth), checked_out_middle. lia.
  - right. split; [exact Hstage|].
    apply In_held_by in Hheld. destruct Hheld as (hj & Hhj & Hlock).
    destruct (In_others_nth _ _ _ Hhj) as (j & Hne & Hj).
    exists j, hj. split; [exact Hne|]. split; [exact Hj|].
    split; [intros Hnil; rewrite Hnil in Hlock; contradiction|].
    rewrite Forall_forall in Hstages.
    destruct (Hstages hj (nth_error_In _ _ Hj)) as [Hown _].
    rewrite Forall_forall in Hown.
    destruct (Hown _ Hlock) as (row' & Hrow' & Hid & Hcode).
    apply codes_of_In in Hrow. destruct Hrow as [Hin Hcode'].
    assert (row' = row)
      by (apply (NoDup_map_injective SpinCode.id (spin_codes (committed st))); auto;
          apply (ids_unique _ Hcons)).
    congruence.
Qed.

(** The holder of a lock can take its step. *)
Lemma holder_advances d0 requests st j hj :
  invariant d0 requests st ->
  nth_error (handlers st) j = Some hj -> locked hj <> [] ->
  exists st', advance j st = Some st'.
Proof.
  intros [_ _ _ _ Hstages _] Hj Hlocked. unfold advance. rewrite Hj.
  rewrite Forall_forall in Hstages.
  pose proof (locked_stage _ _ (Hstages hj (nth_error_In _ _ Hj)) Hlocked
                (generator st)
                (held_by (firstn j (handlers st) ++ skipn (S j) (handlers st)))
                (checked_out (firstn j (handlers st) ++ skipn (S j) (handlers st))))
    as Hstep.
  destruct (step _ _ _ _ hj) as [[[db g] h']|]; [|congruence].
  eexists. reflexivity.
Qed.

Lemma no_deadlock d0 requests st :
  invariant d0 requests st ->
  forallb responded (handlers st) = false ->
  exists k st', advance k st = Some st'.
Proof.
  intros Hinv Hsome.
  assert (Hh : exists h, In h (handlers st) /\ responded h = false).
  { clear - Hsome. induction (handlers st) as [|h hs IH]; [discriminate|].
    cbn [forallb] in Hsome. destruct (responded h) eqn:Hr.
    - destruct (IH Hsome) as (h' & Hin & Hr'). exists h'. split; [right; exact Hin|exact Hr'].
    - exists h. split; [left; reflexivity|exact Hr]. }
  destruct Hh as (h & Hin & Hresp). apply In_nth_error in Hin. destruct Hin as [k Hk].
  destruct (advance k st) as [st'|] eqn:Hadv; [exists k, st'; exact Hadv|].
  destruct (waits_for_client_or_code _ _ _ _ _ Hinv Hk Hresp Hadv)
    as [[_ Hbusy]|(_ & j & hj & _ & Hj & Hlocked & _)].
  - (* the pool has no client left: one of those who hold a client can
       take a step, or waits for a lock whose holder can *)
    destruct (checked_out_holder (handlers st)) as (hc & Hc & Hholds);
      [unfold max_clients in Hbusy; lia|].
    apply In_nth_error in Hc. destruct Hc as [c Hc].
    destruct (advance c st) as [st'|] eqn:Hadvc; [exists c, st'; exact Hadvc|].
    assert (Hrespc : responded hc = false)
      by (unfold responded; unfold holds_client in Hholds;
          destruct (stage hc); try reflexivity; discriminate).
    destruct (waits_for_client_or_code _ _ _ _ _ Hinv Hc Hrespc Hadvc)
      as [[Hconnecting _]|(_ & j & hj & _ & Hj & Hlocked & _)].
    + unfold holds_client in Hholds. rewrite Hconnecting in Hholds. discriminate.
    + exists j. apply (holder_advances _ _ _ _ _ Hinv Hj Hlocked).
  - exists j. apply (holder_advances _ _ _ _ _ Hinv Hj Hlocked).
Qed.

Lemma step_remaining db g held busy h db' g' h' :
  step db g held busy h = Some (db', g', h') -> (remaining h' < remaining h)%nat.
Proof.
  unfold step, remaining.
  destruct (stage h) as [| | |cd o|cd o|cd sr|r|r]; try discriminate.
  - destruct (max_clients <=? busy)%nat; [discriminate|].
    intros [= <- <- <-]. cbn [stage]. lia.
  - destruct (invalid_format (code h)) as [[|]|]; intros [= <- <- <-]; cbn [stage]; lia.
  - destruct (existsb _ _); [discriminate|].
    destruct (codes_of _ db) as [|cd rest]; [intros [= <- <- <-]; cbn [stage]; lia|].
    destruct (is_used _); [intros [= <- <- <-]; cbn [stage]; lia|].
    destruct (Selector.selectWeightedOutcome g). intros [= <- <- <-]. cbn [stage]. lia.
  - destruct o; intros [= <- <- <-]; cbn [stage]; lia.
  - intros [= <- <- <-]. cbn [stage]. lia.
  - intros [= <- <- <-]. cbn [stage]. lia.
  - intros [= <- <- <-]. cbn [stage]. lia.
Qed.

Lemma advance_steps_left k st st' :
  advance k st = Some st' -> (steps_left st' < steps_left st)%nat.
Proof.
  intros Hadv.
  destruct (advance_cases k st st' Hadv) as (h & db & g & h' & _ & Hsplit & Hstep & ->).
  apply step_remaining in Hstep.
  assert (Heq : steps_left st
                = list_sum (map remaining
                              (firstn k (handlers st) ++ h :: skipn (S k) (handlers st))))
    by (unfold steps_left; rewrite <- Hsplit; reflexivity).
  rewrite Heq. unfold steps_left. cbn [handlers].
  rewrite !map_app, !list_sum_app. cbn [map].
  change (list_sum (remaining h' :: ?l)) with (remaining h' + list_sum l)%nat.
  change (list_sum (remaining h :: ?l)) with (remaining h + list_sum l)%nat.
  lia.
Qed.

Lemma run_steps_left schedule st st' :
  run schedule st = Some st' ->
  (List.length schedule + steps_left st' <= steps_left st)%nat.
Proof.
  revert st. induction schedule as [|k schedule IH]; intros st Hrun.
  - injection Hrun as <-. cbn [List.length]. lia.
  - cbn [run] in Hrun. destruct (advance k st) as [st1|] eqn:Hadv; [|discriminate].
    apply advance_steps_left in Hadv. apply IH in Hrun. cbn [List.length]. lia.
Qed.

Lemma steps_left_arrive w requests :
  steps_left (arrive w requests) = (6 * List.length requests)%nat.
Proof.
  unfold steps_left, arrive. cbn [handlers].
  induction requests as [|r requests IH]; [reflexivity|].
  cbn [map List.length]. change (list_sum (?x :: ?l)) with (x + list_sum l)%nat.
  rewrite IH. cbn [remaining stage]. lia.
Qed.

Lemma completes d0 requests st :
  invariant d0 requests st ->
  exists rest st', run rest st = Some st' /\ forallb responded (handlers st') = true.
Proof.
  remember (steps_left st) as n eqn:Hn. revert st Hn.
  induction n as [n IH] using lt_wf_ind. intros st Hn Hinv.
  destruct (forallb responded (handlers st)) eqn:Hdone.
  - exists [], st. split; [reflexivity|exact Hdone].
  - destruct (no_deadlock _ _ _ Hinv Hdone) as (k & st1 & Hadv).
    pose proof (advance_steps_left _ _ _ Hadv) as Hless.
    destruct (IH (steps_left st1) ltac:(lia) st1 eq_refl
                (advance_invariant _ _ _ _ _ Hinv Hadv))
      as (rest & st' & Hrun & Hall).
    exists (k :: rest), st'. split; [|exact Hall]. cbn [run]. rewrite Hadv. exact Hrun.
Qed.

(** X18. Concurrent requests of [POST /spin/play] wait for one another
    only for a client of the pool or for the same code.  The handlers never
    hold more than the ten clients of the pool.  In any state they reach,
    a handler that cannot take its step either awaits [pool.connect()]
    while the ten clients are checked out, or is at its
    [SELECT ... FOR UPDATE] and waits for a handler asked for the same
    code, which holds the lock; with at most ten requests it is the
    latter.  There is no deadlock: while a handler has not responded some
    handler can take a step, every order of the steps has at most six
    steps for each request, and it can be continued until all have
    responded. *)
Theorem redeems_wait_for_client_or_same_code (w : World)
  (requests : list (Js.Value * Timestamp)) (schedule : list nat) (st : State) :
  reachable w ->
  run schedule (arrive w requests) = Some st ->
  (checked_out (handlers st) <= max_clients)%nat
  /\ (forall k h,
         nth_error (handlers st) k = Some h -> responded h = false ->
         advance k st = None ->
         (stage h = Connecting /\ checked_out (handlers st) = max_clients)
         \/ (stage h = Selecting
             /\ exists j hj,
                 j <> k /\ nth_error (handlers st) j = Some hj
                 /\ locked hj <> []
                 /\ Js.text_of (code hj) = Js.text_of (code h)))
  /\ ((List.length requests <= max_clients)%nat ->
      forall k h,
        nth_error (handlers st) k = Some h -> responded h = false ->
        advance k st = None -> stage h = Selecting)
  /\ (forallb responded (handlers st) = false ->
      exists k st', advance k st = Some st')
  /\ (List.length schedule + steps_left st <= 6 * List.length requests)%nat
  /\ exists rest st',
      run rest st = Some st' /\ forallb responded (handlers st') = true.
Proof.
  intros Hreach Hrun.
  assert (Hcons0 : consistent (database w)) by (apply reachable_consistent, Hreach).
  pose proof (run_invariant _ _ _ _ _ (arrive_invariant w requests Hcons0) Hrun)
    as Hinv.
  assert (Hpool : (checked_out (handlers st) <= max_clients)%nat).
  { apply (run_checked_out _ _ _ Hrun). rewrite checked_out_arrive. lia. }
  split; [exact Hpool|]. split; [|split].
  - intros k h Hk Hresp Hadv.
    destruct (waits_for_client_or_code _ _ _ _ _ Hinv Hk Hresp Hadv)
      as [[Hstage Hbusy]|Hlock]; [left|right; exact Hlock].
    split; [exact Hstage|lia].
  - intros Hfew k h Hk Hresp Hadv.
    destruct (waits_for_client_or_code _ _ _ _ _ Hinv Hk Hresp Hadv)
      as [[Hstage Hbusy]|[Hstage _]]; [exfalso|exact Hstage].
    rewrite (nth_error_middle _ _ _ Hk), checked_out_middle in Hbusy.
    unfold holds_client in Hbusy. rewrite Hstage in Hbusy.
    pose proof (checked_out_length
                  (firstn k (handlers st) ++ skipn (S k) (handlers st))) as Hlen.
    assert (Hsize : List.length (handlers st) = List.length requests)
      by (rewrite <- (inv_requests _ _ _ Hinv), length_map; reflexivity).
    rewrite (nth_error_middle _ _ _ Hk) in Hsize at 1.
    rewrite length_app in Hsize, Hlen. cbn [List.length] in Hsize. lia.
  - split; [apply (no_deadlock _ _ _ Hinv)|].
    split; [rewrite <- (steps_left_arrive w requests); apply run_steps_left, Hrun|].
    apply (completes _ _ _ Hinv).
Qed.

(** The statement of X18 on the same two requests. *)
Lemma redeems_wait_for_client_or_same_code_witness :
  (List.length interleaved + steps_left raced <= 6 * List.length two_requests)%nat.
Proof.
  destruct (redeems_wait_for_client_or_same_code issued_world two_requests interleaved
              raced) as (_ & _ & _ & _ & Hbound & _).
  - exact reachable_issued_world.
  - vm_compute. reflexivity.
  - exact Hbound.
Defined.



(** *** One request alone *)

Lemma run_alone n db g h :
  run (repeat 0%nat n) (mkState db g [h])
  = match alone n db g h with
    | Some (db', g', h') => Some (mkState db' g' [h'])
    | None => None
    end.
Proof.
  revert db g h. induction n as [|n IH]; intros db g h; [reflexivity|].
  cbn [repeat run alone]. unfold advance.
  cbn [handlers nth_error firstn skipn app committed generator held_by flat_map].
  change (checked_out []) with 0%nat.
  destruct (step db g [] 0 h) as [[[db' g'] h']|]; [apply IH|reflexivity].
Qed.

Lemma existsb_held_nil (rows : list SpinCode.t) :
  existsb (fun row => existsb (Z.eqb (SpinCode.id row)) []) rows = false.
Proof. induction rows as [|row rows IH]; [reflexivity|exact IH]. Qed.

(** What the handler leaves when it is served on its own and no call is
    rejected. *)
Lemma spin_play_unrejected now code codes results cseq rseq g :
  let db := mkDatabase codes results cseq rseq in
  fst (serve (spin_play now (fun _ => false) code) (mkWorld db g))
  = match invalid_format code with
    | None => (inr SpinFailed, mkWorld db g)
    | Some true => (inr InvalidFormat, mkWorld db g)
    | Some false =>
        match codes_of (Js.text_of code) db with
        | [] => (inr NotFound, mkWorld db g)
        | codeData :: _ =>
            if is_used (SpinCode.status codeData) then (inr AlreadyUsed, mkWorld db g)
            else
              match fst (Selector.selectWeightedOutcome g) with
              | Some o =>
                  (inr (res_json (play_body (Selector.prize o) (Selector.cents o)
                                    (Selector.weight o) rseq now)),
                   mkWorld (redeemed now codeData o db)
                     (snd (Selector.selectWeightedOutcome g)))
              | None =>
                  (inr SpinFailed, mkWorld db (snd (Selector.selectWeightedOutcome g)))
              end
        end
    end.
Proof.
  cbv zeta.
  assert (Hhead : forall t rest,
             codes_of (Js.text_of code) (mkDatabase codes results cseq rseq) = t :: rest ->
             In t codes)
    by (intros t rest H; apply (codes_of_head _ _ _ _ H)).
  unfold codes_of in *. cbn [spin_codes] in *.
  run_handler. unfold insert_spin_result. simpl.
  destruct (invalid_format code) as [[|]|]; simpl; try reflexivity.
  destruct (filter _ codes) as [|t rest] eqn:Hcodes; simpl; [reflexivity|].
  destruct (is_used (SpinCode.status t)); simpl; [reflexivity|].
  destruct (Selector.select _ _) as [o|]; simpl; [|reflexivity].
  rewrite (existsb_id_marked now (SpinCode.id t) t) by (eapply Hhead; reflexivity).
  simpl. reflexivity.
Qed.


(** X19. A request of [POST /spin/play] that runs alone takes at most six
    steps, and they leave the response, the tables and the state of
    [Math.random] that the handler leaves when it is served on its own
    with no call rejected. *)
Theorem alone_as_sequential (w : World) (code : Js.Value) (now : Timestamp) :
  exists n response,
    (n <= 6)%nat
    /\ fst (fst (serve (spin_play now (fun _ => false) code) w)) = inr response
    /\ run (repeat 0%nat n) (arrive w [(code, now)])
       = Some (mkState
                 (database (snd (fst (serve (spin_play now (fun _ => false) code) w))))
                 (Server.generator
                    (snd (fst (serve (spin_play now (fun _ => false) code) w))))
                 [mkHandler code now (Responded response) []]).
Proof.
  destruct w as [[codes results cseq rseq] g].
  pose proof (spin_play_unrejected now code codes results cseq rseq g) as Hserved.
  cbv zeta in Hserved.
  destruct (serve (spin_play now (fun _ => false) code)
              (mkWorld (mkDatabase codes results cseq rseq) g)) as [[r w'] l].
  cbn [fst snd] in *. unfold arrive. cbn [map fst snd database Server.generator].
  destruct (invalid_format code) as [[|]|] eqn:Hformat.
  { injection Hserved as -> ->. exists 3%nat, InvalidFormat.
    split; [lia|]. split; [reflexivity|]. rewrite run_alone.
    cbn [alone step stage Concurrent.code Concurrent.now max_clients Nat.leb]. rewrite Hformat.
    cbn [alone step stage Concurrent.code Concurrent.now max_clients Nat.leb]. reflexivity. }
  2:{ injection Hserved as -> ->. exists 3%nat, SpinFailed.
      split; [lia|]. split; [reflexivity|]. rewrite run_alone.
      cbn [alone step stage Concurrent.code Concurrent.now max_clients Nat.leb]. rewrite Hformat.
      cbn [alone step stage Concurrent.code Concurrent.now max_clients Nat.leb]. reflexivity. }
  destruct (codes_of (Js.text_of code) (mkDatabase codes results cseq rseq))
    as [|cd rest] eqn:Hrows.
  { injection Hserved as -> ->. exists 4%nat, NotFound.
    split; [lia|]. split; [reflexivity|]. rewrite run_alone.
    cbn [alone step stage Concurrent.code Concurrent.now max_clients Nat.leb]. rewrite Hformat.
    cbn [alone step stage Concurrent.code Concurrent.now max_clients Nat.leb].
    rewrite existsb_held_nil, Hrows.
    cbn [alone step stage Concurrent.code Concurrent.now max_clients Nat.leb]. reflexivity. }
  destruct (is_used (SpinCode.status cd)) eqn:Hused.
  { injection Hserved as -> ->. exists 4%nat, AlreadyUsed.
    split; [lia|]. split; [reflexivity|]. rewrite run_alone.
    cbn [alone step stage Concurrent.code Concurrent.now max_clients Nat.leb]. rewrite Hformat.
    cbn [alone step stage Concurrent.code Concurrent.now max_clients Nat.leb].
    rewrite existsb_held_nil, Hrows, Hused.
    cbn [alone step stage Concurrent.code Concurrent.now max_clients Nat.leb]. reflexivity. }
  destruct (Selector.selectWeightedOutcome g) as [[o|] g1] eqn:Hdraw; cbn [fst snd] in Hserved.
  - injection Hserved as -> ->. eexists 6%nat, _.
    split; [lia|]. split; [reflexivity|]. rewrite run_alone.
    cbn [alone step stage Concurrent.code Concurrent.now max_clients Nat.leb]. rewrite Hformat.
    cbn [alone step stage Concurrent.code Concurrent.now max_clients Nat.leb].
    rewrite existsb_held_nil, Hrows, Hused, Hdraw.
    cbn [alone step stage Concurrent.code Concurrent.now max_clients Nat.leb locked
           spin_codes spin_results spin_codes_id_seq spin_results_id_seq
           SpinResult.outcome SpinResult.prize_cents SpinResult.odds SpinResult.id
           SpinResult.created_at redeemed database Server.generator].
    reflexivity.
  - injection Hserved as -> ->. exists 5%nat, SpinFailed.
    split; [lia|]. split; [reflexivity|]. rewrite run_alone.
    cbn [alone step stage Concurrent.code Concurrent.now max_clients Nat.leb]. rewrite Hformat.
    cbn [alone step stage Concurrent.code Concurrent.now max_clients Nat.leb].
    rewrite existsb_held_nil, Hrows, Hused, Hdraw.
    cbn [alone step stage Concurrent.code Concurrent.now max_clients Nat.leb locked]. reflexivity.
Qed.

End ConcurrentFacts.

(** ** The panel of the player: what it sends *)

Module PanelFacts.

Import Panel.

Lemma array_set_fields (index : nat) (value : string) (code : list string) :
  (index < List.length code)%nat -> short value -> Forall short code ->
  List.length (array_set index value code) = List.length code
  /\ Forall short (array_set index value code).
Proof.
  revert code. induction index as [|i IH]; intros [|x rest] Hlt Hvalue Hcode;
    cbn [List.length] in Hlt; try lia; cbn [array_set List.length].
  - inversion Hcode; subst. split; [reflexivity|constructor; assumption].
  - inversion Hcode as [|y l Hx Hrest]; subst.
    destruct (IH rest) as [Hlen Hall]; [lia|exact Hvalue|exact Hrest|].
    split; [rewrite Hlen; reflexivity|constructor; assumption].
Qed.

Lemma edited_fields (changes : list (nat * string)) :
  Forall (fun change => (fst change < 5)%nat) changes ->
  List.length (edited changes) = 5%nat /\ Forall short (edited changes).
Proof.
  unfold edited.
  assert (Hinit : List.length initial = 5%nat /\ Forall short initial)
    by (split; [reflexivity|repeat constructor]).
  revert Hinit. generalize initial.
  induction changes as [|[index value] changes IH]; intros code Hcode Hindex;
    [exact Hcode|].
  inversion Hindex as [|c l Hc Hrest]; subst. cbn [fold_left fst snd].
  apply IH; [|exact Hrest]. unfold handleCodeChange.
  destruct (Nat.ltb_spec 1 (String.length value)) as [Hlong|Hshort]; [exact Hcode|].
  destruct Hcode as [Hlen Hall]. cbn [fst] in Hc.
  destruct (array_set_fields index value code) as [Hlen' Hall'];
    [lia|exact Hshort|exact Hall|].
  split; [congruence|exact Hall'].
Qed.

Lemma short_cases (field : string) :
  short field -> field = EmptyString \/ exists c, field = String c EmptyString.
Proof.
  unfold short. destruct field as [|c [|c' rest]]; cbn [String.length]; intros H.
  - left. reflexivity.
  - right. exists c. reflexivity.
  - lia.
Qed.


Lemma one_digit_char (c : ascii) :
  one_digit (String c EmptyString) <-> Js.is_digit c = true.
Proof.
  split.
  - intros (d & [= <-] & Hd). exact Hd.
  - intros Hd. exists c. split; [reflexivity|exact Hd].
Qed.

Lemma one_digit_empty : ~ one_digit EmptyString.
Proof. intros (d & H & _). discriminate. Qed.

(** The fields of a state [a; b; c; d; e], each empty or of one
    character. *)
Lemma handleSpin_fields (a b c d e : string) :
  short a -> short b -> short c -> short d -> short e ->
  let code := [a; b; c; d; e] in
  (forall s, handleSpin code = spin s <-> Forall one_digit code /\ s = join code)
  /\ (disabled code = false <-> Forall (fun field => field <> EmptyString) code).
Proof.
  intros Ha Hb Hc Hd He.
  destruct (short_cases a Ha) as [->|[ca ->]]; destruct (short_cases b Hb) as [->|[cb ->]];
    destruct (short_cases c Hc) as [->|[cc ->]]; destruct (short_cases d Hd) as [->|[cd ->]];
    destruct (short_cases e He) as [->|[ce ->]]; cbv zeta;
    unfold handleSpin, disabled, join; cbn [String.concat String.append String.length Nat.eqb negb];
    (split; [intros s; split;
               [try discriminate|
                intros [Hall ->];
                repeat match goal with
                  | H : Forall one_digit (_ :: _) |- _ => inversion H; clear H; subst
                  | H : one_digit EmptyString |- _ => destruct (one_digit_empty H)
                  end]
            |split;
               [try discriminate|
                intros Hall;
                repeat match goal with
                  | H : Forall _ (_ :: _) |- _ => inversion H; clear H; subst
                  end; try congruence]]).
  - (* all five fields hold a character: what is sent *)
    unfold Js.test_5_digits. cbn [String.length Nat.eqb andb Js.all_digits].
    intros Hsend.
    destruct (Js.is_digit ca) eqn:Ea; [|discriminate].
    destruct (Js.is_digit cb) eqn:Eb; [|discriminate].
    destruct (Js.is_digit cc) eqn:Ec; [|discriminate].
    destruct (Js.is_digit cd) eqn:Ed; [|discriminate].
    destruct (Js.is_digit ce) eqn:Ee; [|discriminate]. cbn [andb negb] in Hsend.
    injection Hsend as <-. split; [|reflexivity].
    repeat constructor; apply one_digit_char; assumption.
  - unfold Js.test_5_digits. cbn [String.length Nat.eqb andb Js.all_digits].
    repeat match goal with
      | H : one_digit (String _ EmptyString) |- _ => apply one_digit_char in H; rewrite H
      end.
    reflexivity.
  - intros _. repeat constructor; discriminate.
Qed.

(** X20. In [SpinCodePanel], whatever the fields of the form have been
    changed to, [handleSpin] calls [playerAPI.spin] exactly when each of
    the five fields holds one digit, with the five digits in the order of
    the fields; what it sends passes the format check of [POST
    /spin/verify] and [POST /spin/play]; and the button is enabled exactly
    when no field is empty. *)
Theorem panel_sends_five_digits (changes : list (nat * string)) :
  Forall (fun change => (fst change < 5)%nat) changes ->
  let code := edited changes in
  (forall s, handleSpin code = spin s <-> Forall one_digit code /\ s = join code)
  /\ (forall s, handleSpin code = spin s ->
                Server.invalid_format (Js.str s) = Some false)
  /\ (disabled code = false <-> Forall (fun field => field <> EmptyString) code).
Proof.
  intros Hindex. cbv zeta.
  destruct (edited_fields changes Hindex) as [Hlen Hshort].
  destruct (edited changes) as [|a [|b [|c [|d [|e [|f rest]]]]]]; try discriminate.
  inversion Hshort as [|? ? Ha H1]; subst. inversion H1 as [|? ? Hb H2]; subst.
  inversion H2 as [|? ? Hc H3]; subst. inversion H3 as [|? ? Hd H4]; subst.
  inversion H4 as [|? ? He _]; subst.
  destruct (handleSpin_fields a b c d e Ha Hb Hc Hd He) as [Hsend Hbutton].
  cbv zeta in Hsend, Hbutton.
  split; [exact Hsend|]. split; [|exact Hbutton].
  intros s Hs. unfold handleSpin in Hs.
  destruct (String.length (join [a; b; c; d; e]) =? 5)%nat eqn:Hfive;
    cbn [negb] in Hs; [|discriminate].
  destruct (Js.test_5_digits (join [a; b; c; d; e])) eqn:Htest; cbn [negb] in Hs;
    [|discriminate].
  injection Hs as <-. apply LedgerFacts.invalid_format_well_formed.
  exists (join [a; b; c; d; e]). split; [reflexivity|].
  apply Nat.eqb_eq in Hfive. split; [exact Hfive|].
  unfold Js.test_5_digits in Htest. apply andb_true_iff in Htest. apply Htest.
Qed.

(** The statement of X20 on the fields filled with 5, 5, 0, 0 and 0, the
    last one twice. *)
Lemma panel_sends_five_digits_witness :
  handleSpin (edited [(0, "5"); (1, "5"); (2, "0"); (3, "0"); (4, "x"); (4, "0")]%nat)
  = spin "55000"
  /\ Server.invalid_format (Js.str "55000") = Some false.
Proof.
  split; [reflexivity|].
  destruct (panel_sends_five_digits
              [(0, "5"); (1, "5"); (2, "0"); (3, "0"); (4, "x"); (4, "0")]%nat)
    as (_ & Hformat & _).
  - repeat constructor.
  - apply Hformat. reflexivity.
Defined.

End PanelFacts.

(** ** The connection of a redemption *)

Module ConnectionFacts.

Import Store Server Ledger LedgerFacts Samples.

Lemma spin_play_statements now faults code w r w' l :
  serve (spin_play now faults code) w = (r, w', l) ->
  (faults 0%nat = true -> r = inl connection_failure /\ l = [CONNECT] /\ w' = w)
  /\ (faults 0%nat = false ->
      exists middle last,
        l = CONNECT :: BEGIN :: middle ++ [last; RELEASE]
        /\ ~ In RELEASE middle /\ ~ In CONNECT middle
        /\ (last = COMMIT \/ last = ROLLBACK)
        /\ (is_success r = true -> last = COMMIT))
  /\ ((forall i j, faults i = true -> faults j = true -> i = j) ->
      faults 0%nat = false -> invalid_format code <> None ->
      exists response, r = inr response)
  /\ (faults 0%nat = false -> faults 1%nat = false -> invalid_format code = None ->
      l = [CONNECT; BEGIN; ROLLBACK; RELEASE]
      /\ r = if faults 2%nat then inl connection_failure else inr SpinFailed).
Proof.
  destruct w as [[codes results cseq rseq] g].
  run_handler. unfold insert_spin_result.
  repeat case_step; intros [= <- <- <-]; simpl;
    try (exfalso;
         match goal with
         | H : filter ?f codes = ?t :: _, E : existsb _ _ = false |- _ =>
             rewrite (existsb_id_marked _ _ t) in E;
             [discriminate
             |assert (Hin : In t (filter f codes)) by (rewrite H; left; reflexivity);
              apply filter_In in Hin; tauto]
         end);
    try (exfalso;
         match goal with
         | H : Selector.select Selector.SPIN_OUTCOMES ?random = None |- _ =>
             destruct (GeneratorFacts.select_spin_outcomes random) as (o & Ho & _);
             congruence
         end);
    (split; [intros Hfirst; try discriminate; repeat split|]);
    (split;
     [intros Hfirst; try discriminate;
      match goal with
      | |- exists middle last, CONNECT :: BEGIN :: ?l = _ /\ _ =>
          exists (removelast (removelast l)), (nth (List.length l - 2) l RELEASE);
          cbn; split; [reflexivity|];
          split; [intuition discriminate|];
          split; [intuition discriminate|];
          split; [auto|intros; try discriminate; reflexivity]
      end
     |]);
    (split;
     [intros Hone Hfirst Hthrows; try discriminate; try congruence;
      first
        [eexists; reflexivity
        |match goal with
         | H1 : faults ?a = true, H2 : faults ?b = true |- _ =>
             assert (a = b) by (apply Hone; assumption); discriminate
         end]
     |intros Hfirst Hsecond Hthrows; try congruence;
      repeat match goal with
        | H : faults _ = _ |- _ => rewrite H
        end;
      split; reflexivity]).
Qed.

(** X21. [POST /spin/play] awaits [pool.connect()] outside its [try]: when
    that call is rejected the handler is rejected without a response and
    nothing else is sent to the store.  Otherwise the handler sends BEGIN
    first, ends the transaction with COMMIT or ROLLBACK as its last
    statement and releases the connection after it, once; it answers with
    a prize only after a COMMIT.  When at most one call is rejected and
    the test of the format does not throw, it always answers.  When the
    test throws, after BEGIN, the handler sends the ROLLBACK of its
    [catch] and answers spin failed, and the rejection of that one
    ROLLBACK leaves it rejected without a response. *)
Theorem redeem_releases_connection (now : Timestamp) (faults : nat -> bool)
  (code : Js.Value) (w : World) :
  let served := serve (spin_play now faults code) w in
  (faults 0%nat = true ->
   fst (fst served) = inl connection_failure
   /\ snd served = [CONNECT] /\ snd (fst served) = w)
  /\ (faults 0%nat = false ->
      exists middle last,
        snd served = CONNECT :: BEGIN :: middle ++ [last; RELEASE]
        /\ ~ In RELEASE middle /\ ~ In CONNECT middle
        /\ (last = COMMIT \/ last = ROLLBACK)
        /\ (is_success (fst (fst served)) = true -> last = COMMIT))
  /\ ((forall i j, faults i = true -> faults j = true -> i = j) ->
      faults 0%nat = false -> invalid_format code <> None ->
      exists response, fst (fst served) = inr response)
  /\ (faults 0%nat = false -> faults 1%nat = false -> invalid_format code = None ->
      snd served = [CONNECT; BEGIN; ROLLBACK; RELEASE]
      /\ fst (fst served)
         = if faults 2%nat then inl connection_failure else inr SpinFailed).
Proof.
  cbv zeta. destruct (serve (spin_play now faults code) w) as [[r w'] l] eqn:Hserved.
  exact (spin_play_statements now faults code w r w' l Hserved).
Qed.

Lemma spin_play_draws now faults code w r w' l :
  serve (spin_play now faults code) w = (r, w', l) ->
  Js.draws (generator w') = Js.draws (generator w)
  /\ (Js.cursor (generator w') = S (Js.cursor (generator w))
      \/ Js.cursor (generator w') = Js.cursor (generator w))
  /\ (Js.cursor (generator w') = S (Js.cursor (generator w)) <->
      faults 0%nat = false /\ faults 1%nat = false /\ invalid_format code = Some false
      /\ faults 2%nat = false
      /\ exists codeData rest,
          codes_of (Js.text_of code) (database w) = codeData :: rest
          /\ SpinCode.status codeData = unused)
  /\ (is_success r = true ->
      Js.cursor (generator w') = S (Js.cursor (generator w))).
Proof.
  destruct w as [[codes results cseq rseq] g]. unfold codes_of. cbn [database spin_codes].
  run_handler. unfold insert_spin_result.
  repeat case_step; intros [= <- <- <-]; simpl;
    (split; [reflexivity|]);
    (split; [auto|]);
    (split;
     [split;
      [intros Hcursor; try (exfalso; clear - Hcursor; lia);
       repeat (split; [reflexivity|]);
       match goal with
       | H : is_used (SpinCode.status ?t) = false
         |- exists _ _, ?t :: ?l = _ /\ _ =>
           exists t, l; split; [reflexivity|];
           destruct (SpinCode.status t); [reflexivity|discriminate]
       end
      |intros (H0 & H1 & Hf & H2 & cd & rest & Hrows & Hunused);
       try reflexivity; exfalso; try congruence;
       injection Hrows as <- <-;
       match goal with
       | H : is_used (SpinCode.status _) = true |- _ =>
           rewrite Hunused in H; discriminate H
       end]
     |intros Hsuccess; try discriminate; reflexivity]).
Qed.

(** X24. [POST /spin/play] calls [Math.random] at most once, through
    [selectWeightedOutcome]: once when [pool.connect()], BEGIN and the
    SELECT resolve for a well-formed code whose first row is unused,
    whether the later statements are rejected or not, and not at all
    otherwise.  A redemption is never drawn twice, a redemption that is
    answered with a prize has drawn, and the draw of one that fails after
    the selection is lost.  [POST /spin/verify] does not draw. *)
Theorem redeem_draws_at_most_once (now : Timestamp) (faults : nat -> bool)
  (code : Js.Value) (w : World) :
  let w' := after (redeem now faults code) w in
  Js.draws (generator w') = Js.draws (generator w)
  /\ (Js.cursor (generator w') = S (Js.cursor (generator w))
      \/ Js.cursor (generator w') = Js.cursor (generator w))
  /\ (Js.cursor (generator w') = S (Js.cursor (generator w)) <->
      faults 0%nat = false /\ faults 1%nat = false /\ invalid_format code = Some false
      /\ faults 2%nat = false
      /\ exists codeData rest,
          codes_of (Js.text_of code) (database w) = codeData :: rest
          /\ SpinCode.status codeData = unused)
  /\ (is_success (fst (fst (serve (spin_play now faults code) w))) = true ->
      Js.cursor (generator w') = S (Js.cursor (generator w)))
  /\ generator (after (verify faults code) w) = generator w.
Proof.
  cbv zeta. cbn [after].
  destruct (serve (spin_play now faults code) w) as [[r w'] l] eqn:Hserved.
  cbn [fst snd].
  destruct (spin_play_draws now faults code w r w' l Hserved) as (Hd & Hc & Hiff & Hs).
  split; [exact Hd|]. split; [exact Hc|]. split; [exact Hiff|]. split; [exact Hs|].
  rewrite spin_verify_served. destruct (invalid_format code) as [[|]|]; reflexivity.
Qed.


End ConnectionFacts.

(** ** The keys *)

Module KeyFacts.

Import Store Server Ledger LedgerFacts Samples.

Lemma sorted_snoc (l : list Z) (x : Z) :
  Sorted.StronglySorted Z.lt l -> Forall (fun i => i < x) l ->
  Sorted.StronglySorted Z.lt (l ++ [x]).
Proof.
  induction l as [|a l IH]; intros Hsorted Hbelow; cbn [app].
  - constructor; constructor.
  - inversion Hsorted as [|y m Hrest Hall]; subst.
    inversion Hbelow as [|y m Ha Hl]; subst.
    constructor; [apply IH; assumption|].
    apply Forall_app. split; [exact Hall|]. constructor; [exact Ha|constructor].
Qed.

Lemma keys_increase_counters db cseq rseq :
  keys_increase db ->
  spin_codes_id_seq db <= cseq -> spin_results_id_seq db <= rseq ->
  keys_increase (mkDatabase (spin_codes db) (spin_results db) cseq rseq).
Proof.
  intros (Hc & Hcb & Hr & Hrb) Hcseq Hrseq. unfold keys_increase. cbn.
  split; [exact Hc|]. split; [|split; [exact Hr|]].
  - eapply Forall_impl; [|exact Hcb]. cbn. intros i Hi. lia.
  - eapply Forall_impl; [|exact Hrb]. cbn. intros i Hi. lia.
Qed.

Lemma keys_insert_spin_code now c db :
  keys_from_one db -> keys_from_one (fst (insert_spin_code now c db)).
Proof.
  intros [Hkeys [Hc1 Hr1]].
  destruct (insert_spin_code_cases now c db)
    as [(_ & ->)|[(_ & _ & ->)|[(_ & _ & _ & ->)|(_ & Hroom & _ & ->)]]]; cbn [fst].
  - split; [exact Hkeys|lia].
  - split; [exact Hkeys|lia].
  - split; [apply keys_increase_counters; [exact Hkeys|lia|lia]|cbn; lia].
  - destruct Hkeys as (Hc & Hcb & Hr & Hrb). split; [|cbn; lia].
    unfold keys_increase. cbn. rewrite map_app. cbn [map SpinCode.id].
    split; [apply sorted_snoc;
            [exact Hc|eapply Forall_impl; [|exact Hcb]; cbn; intros i Hi; lia]|].
    split; [|split; [exact Hr|exact Hrb]].
    apply Forall_app. split.
    + eapply Forall_impl; [|exact Hcb]. cbn. intros i Hi. lia.
    + constructor; [lia|constructor].
Qed.

Lemma keys_redeemed now t o db :
  keys_from_one db -> keys_from_one (redeemed now t o db).
Proof.
  intros [(Hc & Hcb & Hr & Hrb) [Hc1 Hr1]]. split; [|cbn; lia].
  unfold keys_increase, redeemed. cbn. rewrite map_id_mark_used, map_app.
  cbn [map SpinResult.id].
  split; [exact Hc|]. split; [exact Hcb|].
  split; [apply sorted_snoc;
          [exact Hr|eapply Forall_impl; [|exact Hrb]; cbn; intros i Hi; lia]|].
  apply Forall_app. split.
  - eapply Forall_impl; [|exact Hrb]. cbn. intros i Hi. lia.
  - constructor; [lia|constructor].
Qed.

Lemma keys_after op w :
  keys_from_one (database w) -> keys_from_one (database (after op w)).
Proof.
  intros Hkeys. destruct op as [times faults fuel count|faults code|now faults code];
    cbn [after].
  - destruct (serve (admin_generate times faults fuel count) w) as [[r w'] l] eqn:Hs.
    cbn [fst snd].
    destruct (admin_generate_preserves keys_from_one (Js.draws (generator w))
                (fun now db n => keys_insert_spin_code now _ db)
                times faults fuel count w r w' l Hs eq_refl Hkeys) as [_ H].
    exact H.
  - rewrite spin_verify_served. destruct (invalid_format code) as [[|]|];
      cbn [fst snd]; auto.
  - destruct (serve (spin_play now faults code) w) as [[r w'] l] eqn:Hs.
    cbn [fst snd].
    destruct (spin_play_cases _ _ _ _ _ _ _ Hs) as [_ Hcases].
    destruct Hcases as [(t & rest & o & _ & _ & _ & _ & _ & ->)|(_ & rseq & Hle & ->)].
    + apply keys_redeemed. exact Hkeys.
    + destruct Hkeys as [Hk [Hc1 Hr1]]. split; [|cbn; lia].
      apply keys_increase_counters; [exact Hk|lia|exact Hle].
Qed.

Lemma keys_reachable w : reachable w -> keys_from_one (database w).
Proof.
  intros [g Hreach]. induction Hreach as [|w op Hreach IH].
  - split; [|cbn; lia]. unfold keys_increase. cbn. repeat split; constructor.
  - apply keys_after. exact IH.
Qed.

(** *** No key is handed out twice *)







Lemma sorted_app_lt (l1 l2 : list Z) :
  Sorted.StronglySorted Z.lt (l1 ++ l2) ->
  forall a b, In a l1 -> In b l2 -> a < b.
Proof.
  induction l1 as [|x l1 IH]; intros Hsorted a b Ha Hb; [contradiction|].
  cbn [app] in Hsorted. inversion Hsorted as [|y m Hrest Hall]; subst.
  destruct Ha as [->|Ha].
  - rewrite Forall_forall in Hall. apply Hall. apply in_or_app. right. exact Hb.
  - exact (IH Hrest a b Ha Hb).
Qed.

Lemma NoDup_app_parts {A} (l1 l2 : list A) :
  NoDup (l1 ++ l2) -> NoDup l2 /\ forall a, In a l2 -> ~ In a l1.
Proof.
  intros Hnodup. split; [apply (NoDup_app_remove_l _ _ Hnodup)|].
  intros a Ha2 Ha1. revert Hnodup Ha1. induction l1 as [|x l1 IH]; intros Hnodup Ha1;
    [contradiction|].
  cbn [app] in Hnodup. inversion Hnodup as [|y m Hnotin Hrest]; subst.
  destruct Ha1 as [->|Ha1].
  - apply Hnotin. apply in_or_app. right. exact Ha2.
  - exact (IH Hrest Ha1).
Qed.

(** X23. In a world reached from the empty tables, the codes of a list
    that [POST /admin/generate] answers with are pairwise distinct and
    none was in the table before; their keys are distinct, above every key
    of the table, not below its counter and at most [2^31 - 1]; each is
    unused and was created at the time of one of the INSERTs of the
    request, which need not be the time of another. *)
Theorem issued_codes_distinct_and_new (w : World) (times : nat -> Timestamp)
  (faults : nat -> bool) (fuel : nat) (count : option float) (codes : list SpinCode.t) :
  reachable w ->
  fst (fst (serve (admin_generate times faults fuel count) w))
  = inr (Some (res_json (generate_body codes))) ->
  NoDup (map SpinCode.code codes)
  /\ NoDup (map SpinCode.id codes)
  /\ Forall (fun row =>
               codes_of (SpinCode.code row) (database w) = []
               /\ (forall stored, In stored (spin_codes (database w)) ->
                                  SpinCode.id stored < SpinCode.id row)
               /\ spin_codes_id_seq (database w) <= SpinCode.id row <= serial_max
               /\ SpinCode.status row = unused
               /\ SpinCode.used_at row = None
               /\ exists position,
                   (position
                    < List.length
                        (snd (serve (admin_generate times faults fuel count) w)))%nat
                   /\ SpinCode.created_at row = times position)
       codes.
Proof.
  intros Hreach Hanswer.
  assert (Hafter : reachable (after (issue times faults fuel count) w))
    by (destruct Hreach as [g Hg]; exists g; apply reach_step; exact Hg).
  pose proof (reachable_consistent _ Hafter) as Hcons.
  destruct (keys_reachable _ Hafter) as [(Hsorted & _) _].
  cbn [after] in Hcons, Hsorted. rewrite admin_generate_served in Hanswer, Hcons, Hsorted |- *.
  destruct (generate_loop times faults fuel _ 0 [] _) as [r s] eqn:Hloop.
  apply GeneratorFacts.generate_loop_appends in Hloop; [|reflexivity].
  cbn [store log fst snd database List.length] in *.
  destruct Hloop as (_ & news & Hcodes & _ & _ & _ & Hrows & Hout).
  destruct r as [e|[out|]]; try discriminate. injection Hanswer as ->.
  rewrite (Hout codes eq_refl) in *. cbn [app] in *. clear Hout.
  pose proof (codes_unique _ Hcons) as Hunique. pose proof (ids_unique _ Hcons) as Hids.
  rewrite Hcodes, map_app in Hunique, Hids, Hsorted.
  destruct (NoDup_app_parts _ _ Hunique) as [Hnew Hfresh].
  destruct (NoDup_app_parts _ _ Hids) as [Hnewids _].
  split; [exact Hnew|]. split; [exact Hnewids|].
  apply Forall_forall. intros row Hrow.
  rewrite Forall_forall in Hrows.
  destruct (Hrows row Hrow) as (Hs & Hu & (position & Hposition & Hc) & Hkey).
  split; [|split; [|split; [exact Hkey|split; [exact Hs|split; [exact Hu|]]]]].
  - destruct (codes_of (SpinCode.code row) (database w)) as [|stored rest] eqn:Hstored;
      [reflexivity|].
    destruct (codes_of_head _ _ _ _ Hstored) as [Hin Hcode].
    exfalso. apply (Hfresh (SpinCode.code row)); [apply in_map; exact Hrow|].
    rewrite <- Hcode. apply in_map. exact Hin.
  - intros stored Hstored. apply (sorted_app_lt _ _ Hsorted); apply in_map; assumption.
  - exists position. split; [lia|exact Hc].
Qed.

(** The statement of X23 on three codes issued into the empty tables. *)
Lemma issued_codes_distinct_and_new_witness :
  NoDup (map SpinCode.code (spin_codes (database issued_world))).
Proof.
  assert (Hanswer : fst (fst (serve (admin_generate at_100 no_faults 10 (Some 3%float))
                                empty_world))
                    = inr (Some (res_json (generate_body (spin_codes (database issued_world))))))
    by (vm_compute; reflexivity).
  apply (issued_codes_distinct_and_new empty_world at_100 no_faults 10 (Some 3%float)
           (spin_codes (database issued_world)) reachable_empty_world Hanswer).
Defined.

End KeyFacts.
